(** * Nine Men's Morris rules engine (game.py, class NineMensMorrisEnv)

    A shallow embedding of the environment: the board, the per-player
    bookkeeping, legal-action enumeration, the action/index encoding, the
    [step] transition with its terminal checks, and the state encoder.

    Conventions of the embedding.
    - Python ints that index the board (positions, action indices) come from
      [range(24)] and the static tables; they are [nat].  Counters that the
      code decrements without a floor (pieces in hand, pieces on board, the
      move counter) and the board cells (0, 1, -1) are [Z].
    - The player identity is the int 1 or -1 ([current_player] starts at 1 and
      is only ever negated); it is the two-valued type [Player], [pval] gives
      the int and [opp] is unary minus.
    - The dicts keyed by player ([{1: .., -1: ..}]) are two-slot records.
    - The phase strings are the enumeration [Phase].
    - An action is the 3-tuple [(action_type, from_pos, to_pos)] with [None]
      where the source puts [None].
    - Float rewards and tensor entries are the exact rationals of the decimal
      literals; float32 rounding is not modelled.
    - A position of an action is [None] or a non-negative int.  A board
      write at an int outside the array raises IndexError in the source;
      [step] then returns [None].  A board write at [None] raises nothing:
      numpy takes [None] for a new axis and the assignment fills the whole
      board ([write_at]).  Negative ints, which Python would wrap around,
      are not represented.  [move_history] (text only) is left out. *)

From Stdlib Require Import ZArith QArith Lia.
From stdpp Require Import base decidable option list.

Open Scope nat_scope.

(** ** Constants and static tables *)

Definition BOARD_POSITIONS : nat := 24.
Definition PIECES_PER_PLAYER : Z := 9.

Definition MILLS : list (list nat) :=
  [ [0;1;2]; [3;4;5]; [6;7;8]; [9;10;11]; [12;13;14]; [15;16;17];
    [18;19;20]; [21;22;23];
    [0;9;21]; [3;10;18]; [6;11;15]; [1;4;7]; [16;19;22]; [8;12;17];
    [5;13;20]; [2;14;23] ].

Definition ADJACENCY (pos : nat) : list nat :=
  match pos with
  | 0 => [1;9] | 1 => [0;2;4] | 2 => [1;14] | 3 => [4;10]
  | 4 => [1;3;5;7] | 5 => [4;13]
  | 6 => [7;11] | 7 => [4;6;8] | 8 => [7;12] | 9 => [0;10;21]
  | 10 => [3;9;11;18]
  | 11 => [6;10;15] | 12 => [8;13;17] | 13 => [5;12;14;20]
  | 14 => [2;13;23]
  | 15 => [11;16] | 16 => [15;17;19] | 17 => [12;16] | 18 => [10;19]
  | 19 => [16;18;20;22]
  | 20 => [13;19] | 21 => [9;22] | 22 => [19;21;23] | 23 => [14;22]
  | _ => []
  end.

Definition ACTION_PLACEMENT_START : nat := 0.
Definition ACTION_MOVEMENT_START : nat := 24.
Definition ACTION_CAPTURE_START : nat := 600.
Definition ACTION_SPACE_SIZE : nat := 624.

(** ** Data model *)

Inductive Player := P1 | M1.

Definition pval (p : Player) : Z :=
  match p with P1 => 1%Z | M1 => (-1)%Z end.

Definition opp (p : Player) : Player :=
  match p with P1 => M1 | M1 => P1 end.

Inductive Phase := placement | movement | flying.

Definition phase_eqb (a b : Phase) : bool :=
  match a, b with
  | placement, placement | movement, movement | flying, flying => true
  | _, _ => false
  end.

Record PerPlayer (A : Type) := mkPer { for_p1 : A; for_m1 : A }.
Arguments mkPer {A} _ _.
Arguments for_p1 {A} _.
Arguments for_m1 {A} _.

Definition pget {A} (d : PerPlayer A) (p : Player) : A :=
  match p with P1 => for_p1 d | M1 => for_m1 d end.

Definition pset {A} (d : PerPlayer A) (p : Player) (v : A) : PerPlayer A :=
  match p with
  | P1 => mkPer v (for_m1 d)
  | M1 => mkPer (for_p1 d) v
  end.

Inductive ActionType := place | move | capture.

Record Action := mkAction {
  atype : ActionType;
  from_pos : option nat;
  to_pos : option nat
}.

Record Env := mkEnv {
  board : list Z;
  global_phase : Phase;
  player_phase : PerPlayer Phase;
  current_player : Player;
  pieces_in_hand : PerPlayer Z;
  pieces_on_board : PerPlayer Z;
  winner : option Z;
  move_count : Z;
  last_mill_formed : bool;
  last_capture : bool
}.

Definition set_board (b : list Z) (s : Env) : Env :=
  mkEnv b (global_phase s) (player_phase s) (current_player s)
        (pieces_in_hand s) (pieces_on_board s) (winner s) (move_count s)
        (last_mill_formed s) (last_capture s).

Definition set_global_phase (g : Phase) (s : Env) : Env :=
  mkEnv (board s) g (player_phase s) (current_player s)
        (pieces_in_hand s) (pieces_on_board s) (winner s) (move_count s)
        (last_mill_formed s) (last_capture s).

Definition set_player_phase (pp : PerPlayer Phase) (s : Env) : Env :=
  mkEnv (board s) (global_phase s) pp (current_player s)
        (pieces_in_hand s) (pieces_on_board s) (winner s) (move_count s)
        (last_mill_formed s) (last_capture s).

Definition set_current_player (p : Player) (s : Env) : Env :=
  mkEnv (board s) (global_phase s) (player_phase s) p
        (pieces_in_hand s) (pieces_on_board s) (winner s) (move_count s)
        (last_mill_formed s) (last_capture s).

Definition set_pieces_in_hand (h : PerPlayer Z) (s : Env) : Env :=
  mkEnv (board s) (global_phase s) (player_phase s) (current_player s)
        h (pieces_on_board s) (winner s) (move_count s)
        (last_mill_formed s) (last_capture s).

Definition set_pieces_on_board (o : PerPlayer Z) (s : Env) : Env :=
  mkEnv (board s) (global_phase s) (player_phase s) (current_player s)
        (pieces_in_hand s) o (winner s) (move_count s)
        (last_mill_formed s) (last_capture s).

Definition set_winner (w : option Z) (s : Env) : Env :=
  mkEnv (board s) (global_phase s) (player_phase s) (current_player s)
        (pieces_in_hand s) (pieces_on_board s) w (move_count s)
        (last_mill_formed s) (last_capture s).

Definition set_move_count (m : Z) (s : Env) : Env :=
  mkEnv (board s) (global_phase s) (player_phase s) (current_player s)
        (pieces_in_hand s) (pieces_on_board s) (winner s) m
        (last_mill_formed s) (last_capture s).

Definition set_last_mill_formed (f : bool) (s : Env) : Env :=
  mkEnv (board s) (global_phase s) (player_phase s) (current_player s)
        (pieces_in_hand s) (pieces_on_board s) (winner s) (move_count s)
        f (last_capture s).

Definition set_last_capture (f : bool) (s : Env) : Env :=
  mkEnv (board s) (global_phase s) (player_phase s) (current_player s)
        (pieces_in_hand s) (pieces_on_board s) (winner s) (move_count s)
        (last_mill_formed s) f.

(** [board[pos]] as a read.  Every read of the source is at an index taken
    from [range(24)] or from the static tables, inside the 24-cell array. *)
Definition cell (b : list Z) (pos : nat) : Z := default 0%Z (b !! pos).

(** [board[pos] = v] for an int [pos]; IndexError outside the array. *)
Definition write (b : list Z) (pos : nat) (v : Z) : option (list Z) :=
  if pos <? length b then Some (<[pos := v]> b) else None.

(** [board[pos] = v] at a position as an action carries it.  With [None]
    numpy takes the index for a new axis: the target is a view of the whole
    array, the scalar is broadcast, and every cell becomes [v]; nothing is
    raised. *)
Definition write_at (b : list Z) (pos : option nat) (v : Z)
  : option (list Z) :=
  match pos with
  | Some i => write b i v
  | None => Some (replicate (length b) v)
  end.

(** [reset]: the fresh environment. *)
Definition reset : Env :=
  mkEnv (replicate BOARD_POSITIONS 0%Z) placement (mkPer placement placement)
        P1 (mkPer PIECES_PER_PLAYER PIECES_PER_PLAYER) (mkPer 0%Z 0%Z)
        None 0%Z false false.

(** ** Mill detection *)

Definition _is_in_mill (s : Env) (pos : nat) (player : Z) : bool :=
  existsb
    (fun mill =>
       existsb (Nat.eqb pos) mill
       && forallb (fun p => (cell (board s) p =? player)%Z) mill)
    MILLS.

Definition _all_in_mills (s : Env) (player : Z) : bool :=
  forallb
    (fun pos =>
       if (cell (board s) pos =? player)%Z
       then _is_in_mill s pos player
       else true)
    (seq 0 BOARD_POSITIONS).

(** [_is_in_mill(pos, player)] at a position as an action carries it:
    [None in mill] is False for every mill, so with [None] no mill is
    found. *)
Definition is_in_mill_at (s : Env) (pos : option nat) (player : Z) : bool :=
  match pos with
  | Some p => _is_in_mill s p player
  | None => false
  end.

(** ** Legal-action enumeration *)

Definition place_action (pos : nat) : Action := mkAction place None (Some pos).
Definition move_action (f t : nat) : Action := mkAction move (Some f) (Some t).
Definition capture_action (pos : nat) : Action :=
  mkAction capture (Some pos) None.

Definition get_valid_actions (s : Env) : list Action :=
  let cur := current_player s in
  match pget (player_phase s) cur with
  | placement =>
      if (0 <? pget (pieces_in_hand s) cur)%Z then
        flat_map
          (fun pos =>
             if (cell (board s) pos =? 0)%Z then [place_action pos] else [])
          (seq 0 BOARD_POSITIONS)
      else []
  | movement =>
      flat_map
        (fun f =>
           if (cell (board s) f =? pval cur)%Z then
             flat_map
               (fun t =>
                  if (cell (board s) t =? 0)%Z then [move_action f t] else [])
               (ADJACENCY f)
           else [])
        (seq 0 BOARD_POSITIONS)
  | flying =>
      flat_map
        (fun f =>
           if (cell (board s) f =? pval cur)%Z then
             flat_map
               (fun t =>
                  if (cell (board s) t =? 0)%Z then [move_action f t] else [])
               (seq 0 BOARD_POSITIONS)
           else [])
        (seq 0 BOARD_POSITIONS)
  end.

Definition get_valid_capture_actions (s : Env) : list Action :=
  let opponent := (- pval (current_player s))%Z in
  flat_map
    (fun pos =>
       if (cell (board s) pos =? opponent)%Z then
         if negb (_is_in_mill s pos opponent) || _all_in_mills s opponent
         then [capture_action pos]
         else []
       else [])
    (seq 0 BOARD_POSITIONS).

(** ** Action encoding *)

(** [None] stands for the TypeError of adding [None] to an int. *)
Definition action_to_index (a : Action) : option nat :=
  match atype a with
  | place =>
      match to_pos a with
      | Some t => Some (ACTION_PLACEMENT_START + t)
      | None => None
      end
  | move =>
      match from_pos a, to_pos a with
      | Some f, Some t => Some (ACTION_MOVEMENT_START + f * BOARD_POSITIONS + t)
      | _, _ => None
      end
  | capture =>
      match from_pos a with
      | Some f => Some (ACTION_CAPTURE_START + f)
      | None => None
      end
  end.

Definition index_to_action (index : nat) : Action :=
  if index <? ACTION_MOVEMENT_START then
    let pos := index - ACTION_PLACEMENT_START in
    mkAction place None (Some pos)
  else if index <? ACTION_CAPTURE_START then
    let offset := index - ACTION_MOVEMENT_START in
    let f := offset / BOARD_POSITIONS in
    let t := offset mod BOARD_POSITIONS in
    mkAction move (Some f) (Some t)
  else
    let pos := index - ACTION_CAPTURE_START in
    mkAction capture (Some pos) None.

(** ** State encoder *)

Definition Tensor := list (list Q).

Definition indicator (b : bool) : Q := if b then 1%Q else 0%Q.

Definition ones : list Q := replicate BOARD_POSITIONS 1%Q.
Definition zeros : list Q := replicate BOARD_POSITIONS 0%Q.

Definition get_state (s : Env) : Tensor :=
  let cur := current_player s in
  let phase := pget (player_phase s) cur in
  [ map (fun c => indicator (c =? pval cur)%Z) (board s);
    map (fun c => indicator (c =? - pval cur)%Z) (board s);
    match phase with placement => ones | _ => zeros end;
    match phase with movement => ones | _ => zeros end;
    match phase with flying => ones | _ => zeros end;
    map (fun one => (one * (inject_Z (pget (pieces_in_hand s) cur)
                            / inject_Z PIECES_PER_PLAYER))%Q) ones;
    map (fun c => indicator (c =? 0)%Z) (board s) ].

(** The method call on the mutable object: the tensor and the object as the
    call leaves it. *)
Definition get_state_call (s : Env) : Tensor * Env := (get_state s, s).

(** ** The step transition *)

(** The [info] dict: the early return of a formed mill carries
    [needs_capture] and [formed_mill]; the final return carries
    [formed_mill] and [capture]. *)
Inductive Info :=
| InfoCapture (needs_capture_v formed_mill_v : bool)
| InfoTurn (formed_mill_v capture_v : bool).

(** [info.get('needs_capture', False)], as the driver reads it. *)
Definition needs_capture (i : Info) : bool :=
  match i with InfoCapture n _ => n | InfoTurn _ _ => false end.

Definition formed_mill (i : Info) : bool :=
  match i with InfoCapture _ f => f | InfoTurn f _ => f end.

Record StepResult := mkResult {
  state : Tensor;
  reward : Q;
  done : bool;
  info : Info
}.

(** Placement -> movement transition of the global phase. *)
Definition phase_transition (s : Env) : Env :=
  if phase_eqb (global_phase s) placement then
    if (pget (pieces_in_hand s) P1 =? 0)%Z
       && (pget (pieces_in_hand s) M1 =? 0)%Z
    then
      set_player_phase
        (pset (pset (player_phase s) P1 movement) M1 movement)
        (set_global_phase movement s)
    else s
  else s.

(** Flying phase, per player: [for p in [1, -1]]. *)
Definition flying_update (s : Env) : Env :=
  if phase_eqb (global_phase s) movement then
    fold_left
      (fun e p =>
         if (pget (pieces_on_board e) p =? 3)%Z
         then set_player_phase (pset (player_phase e) p flying) e
         else e)
      [P1; M1] s
  else s.

(** The running triple of the terminal checks: [done], [reward] and the
    environment (with its [winner]). *)
Definition Verdict : Type := bool * Q * Env.

(** Win by reducing the opponent to fewer than 3 pieces. *)
Definition check_elimination (acting : Player) (v : Verdict) : Verdict :=
  let '(d, r, s) := v in
  if negb (phase_eqb (global_phase s) placement) then
    if (pget (pieces_on_board s) (opp acting) <? 3)%Z
    then (true, (3 # 2)%Q, set_winner (Some (pval acting)) s)
    else v
  else v.

(** [has_move] of the blockade check, for the player about to move. *)
Definition has_move (s : Env) : bool :=
  let next_player := current_player s in
  match pget (player_phase s) next_player with
  | placement =>
      existsb (fun c => (c =? 0)%Z) (board s)
      && (0 <? pget (pieces_in_hand s) next_player)%Z
  | movement =>
      existsb
        (fun f =>
           (cell (board s) f =? pval next_player)%Z
           && existsb (fun t => (cell (board s) t =? 0)%Z) (ADJACENCY f))
        (seq 0 BOARD_POSITIONS)
  | flying => existsb (fun c => (c =? 0)%Z) (board s)
  end.

(** Win by blocking the opponent. *)
Definition check_blockade (acting : Player) (v : Verdict) : Verdict :=
  let '(d, r, s) := v in
  if negb d then
    if negb (has_move s)
    then (true, (3 # 2)%Q, set_winner (Some (pval acting)) s)
    else v
  else v.

(** Draw by move limit. *)
Definition check_draw (v : Verdict) : Verdict :=
  let '(d, r, s) := v in
  if (move_count s >? 200)%Z
  then (true, 0%Q, set_winner (Some 0%Z) s)
  else v.

(** Everything of [step] after the action branches: phase updates, terminal
    checks and the final return. *)
Definition finish_turn (acting : Player) (r : Q) (s : Env)
  : Env * StepResult :=
  let s1 := flying_update (phase_transition s) in
  let '(d, r', s2) :=
    check_draw (check_blockade acting (check_elimination acting (false, r, s1))) in
  (s2, mkResult (get_state s2) r' d
                (InfoTurn (last_mill_formed s2) (last_capture s2))).

(** The mill check that follows a placement and a movement (the same text in
    both branches): early return when a capture is owed, otherwise the
    player is switched and the turn is finished. *)
Definition after_piece (acting : Player) (r : Q) (to : option nat) (s : Env)
  : Env * StepResult :=
  if is_in_mill_at s to (pval (current_player s)) then
    let s1 := set_last_mill_formed true s in
    let r1 := (r + (1 # 10))%Q in
    if 0 <? length (get_valid_capture_actions s1) then
      (s1, mkResult (get_state s1) r1 false (InfoCapture true true))
    else
      finish_turn acting r1 (set_current_player (opp (current_player s1)) s1)
  else
    finish_turn acting r (set_current_player (opp (current_player s)) s).

(** The three action branches, up to the mill check. *)
Definition do_capture (s : Env) (f : option nat) : option Env :=
  match write_at (board s) f 0%Z with
  | Some b =>
      let cur := current_player s in
      let s1 := set_board b s in
      let s2 :=
        set_pieces_on_board
          (pset (pieces_on_board s1) (opp cur)
                (pget (pieces_on_board s1) (opp cur) - 1)%Z) s1 in
      let s3 := set_current_player (opp cur) s2 in
      let s4 := set_move_count (move_count s3 + 1)%Z s3 in
      Some (set_last_capture true s4)
  | None => None
  end.

Definition do_place (s : Env) (t : option nat) : option Env :=
  let cur := current_player s in
  match write_at (board s) t (pval cur) with
  | Some b =>
      let s1 := set_board b s in
      let s2 :=
        set_pieces_in_hand
          (pset (pieces_in_hand s1) cur (pget (pieces_in_hand s1) cur - 1)%Z)
          s1 in
      let s3 :=
        set_pieces_on_board
          (pset (pieces_on_board s2) cur
                (pget (pieces_on_board s2) cur + 1)%Z) s2 in
      Some (set_move_count (move_count s3 + 1)%Z s3)
  | None => None
  end.

Definition do_move (s : Env) (f t : option nat) : option Env :=
  let cur := current_player s in
  match write_at (board s) f 0%Z with
  | Some b0 =>
      match write_at b0 t (pval cur) with
      | Some b => Some (set_move_count (move_count s + 1)%Z (set_board b s))
      | None => None
      end
  | None => None
  end.

Definition base_reward : Q := (-35 # 10000)%Q.

(** [step]: [None] when the source raises, which it does only on a board
    write at an int outside the array.  The position the action does not
    use ([from_pos] of a placement, [to_pos] of a capture) is ignored. *)
Definition step (s : Env) (a : Action) : option (Env * StepResult) :=
  let acting := current_player s in
  let s0 := set_last_capture false (set_last_mill_formed false s) in
  match atype a with
  | capture =>
      match do_capture s0 (from_pos a) with
      | Some s1 => Some (finish_turn acting (base_reward + (5 # 100))%Q s1)
      | None => None
      end
  | place =>
      match do_place s0 (to_pos a) with
      | Some s1 => Some (after_piece acting base_reward (to_pos a) s1)
      | None => None
      end
  | move =>
      match do_move s0 (from_pos a) (to_pos a) with
      | Some s1 => Some (after_piece acting base_reward (to_pos a) s1)
      | None => None
      end
  end.

(** ** The driver's session (app.py, [execute_turn])

    The driver submits an action of [get_valid_actions], and when the result
    says [needs_capture] an action of [get_valid_capture_actions]; it stops
    at [done].  [captured] is a ghost count, per player, of that player's
    pieces removed so far: the source keeps no such counter. *)
Record Session := mkSession {
  env : Env;
  capture_owed : bool;
  finished : bool;
  captured : PerPlayer Z
}.

Definition new_session : Session :=
  mkSession reset false false (mkPer 0%Z 0%Z).

Definition legal_set (ss : Session) : list Action :=
  if capture_owed ss then get_valid_capture_actions (env ss)
  else get_valid_actions (env ss).

Definition legal (ss : Session) (a : Action) : Prop :=
  finished ss = false ∧ In a (legal_set ss).

Definition note_capture (ss : Session) (a : Action) : PerPlayer Z :=
  match atype a with
  | capture =>
      let victim := opp (current_player (env ss)) in
      pset (captured ss) victim (pget (captured ss) victim + 1)%Z
  | _ => captured ss
  end.

Definition apply (ss : Session) (a : Action) : option Session :=
  match step (env ss) a with
  | Some (e, r) =>
      Some (mkSession e (needs_capture (info r)) (done r) (note_capture ss a))
  | None => None
  end.

Inductive reachable : Session -> Prop :=
| reachable_new : reachable new_session
| reachable_step ss a ss' :
    reachable ss -> legal ss a -> apply ss a = Some ss' -> reachable ss'.

#[global] Instance Player_eq_dec : EqDecision Player.
Proof. solve_decision. Defined.

#[global] Instance ActionType_eq_dec : EqDecision ActionType.
Proof. solve_decision. Defined.

#[global] Instance Action_eq_dec : EqDecision Action.
Proof. solve_decision. Defined.

Definition legalb (ss : Session) (a : Action) : bool :=
  negb (finished ss) && existsb (fun x => bool_decide (x = a)) (legal_set ss).

(** Replay of a list of actions, each checked against the legal set. *)
Fixpoint play (acts : list Action) (ss : Session) : option Session :=
  match acts with
  | [] => Some ss
  | a :: rest =>
      if legalb ss a then
        match apply ss a with
        | Some ss' => play rest ss'
        | None => None
        end
      else None
  end.

(** Number of cells holding [v]. *)
Fixpoint count_cells (v : Z) (b : list Z) : Z :=
  match b with
  | [] => 0%Z
  | c :: r => ((if (c =? v)%Z then 1 else 0) + count_cells v r)%Z
  end.

(** ** Recorded games

    Concrete legal games, replayed by [play] from [new_session].  Player 1
    keeps pieces on 0 and 2 and runs a third one between 4 and 1, closing the
    mill [0,1,2] again and again; player -1 shuffles a piece between 12 and
    13 and never forms a mill. *)

Definition opening : list Action :=
  map place_action [0;12; 2;9; 4;10; 21;19; 6;20; 8;23; 15;14; 17;7; 18;16].

(** Four quiet moves that bring the board back to where it was. *)
Definition shuffle : list Action :=
  [move_action 21 22; move_action 12 13; move_action 22 21; move_action 13 12].

(** Close the mill, capture [victim], re-open the mill. *)
Definition mill_cycle (victim : nat) : list Action :=
  [move_action 4 1; capture_action victim; move_action 12 13;
   move_action 1 4; move_action 13 12].

Fixpoint times {A} (n : nat) (l : list A) : list A :=
  match n with 0 => [] | S k => l ++ times k l end.

(** 201 actions: player -1 is down to 3 pieces, player 1 has just closed the
    mill and owes the capture that eliminates. *)
Definition long_game_elimination : list Action :=
  opening ++ times 38 shuffle ++ flat_map mill_cycle [9;10;19;20;23;14]
  ++ [move_action 4 1].

(** 200 actions: player -1 has 4 pieces, player 1 has just closed the mill
    and owes a capture. *)
Definition long_game_draw : list Action :=
  opening ++ times 39 shuffle ++ flat_map mill_cycle [9;10;19;20;23]
  ++ [move_action 4 1].

(** The 18 placements, the last of which completes the mill [9,10,11] of
    player -1. *)
Definition opening_with_last_mill : list Action :=
  map place_action [0;12; 2;9; 4;10; 21;19; 6;20; 8;23; 15;14; 17;7; 18;11].

(** A game that ends in a blockade.  Player -1 places on the four outer
    corners 0, 2, 21 and 23, player 1 on the four cells between them (1, 9,
    14 and 22), so that the corner pieces can never move; nobody completes a
    mill while placing.  Player 1 then runs a piece between 7 and 4, closing
    the mill [3,4,5] again and again, while player -1 shuffles its one free
    piece between 12 and 13. *)
Definition corner_opening : list Action :=
  map place_action [1;0; 9;2; 14;21; 22;23; 3;12; 5;10; 7;19; 15;20; 17;6].

(** Four quiet moves that bring the board back to where it was. *)
Definition corner_shuffle : list Action :=
  [move_action 15 16; move_action 12 13; move_action 16 15; move_action 13 12].

(** Close the mill [3,4,5], capture [victim], re-open the mill. *)
Definition corner_cycle (victim : nat) : list Action :=
  [move_action 7 4; capture_action victim; move_action 13 12;
   move_action 4 7; move_action 12 13].

(** 201 actions: player -1 is down to its four corner pieces and the free
    piece on 13; player 1 has just closed the mill and owes a capture. *)
Definition long_game_blockade : list Action :=
  corner_opening ++ times 40 corner_shuffle
  ++ [move_action 15 16; move_action 12 13]
  ++ flat_map corner_cycle [10;19;20;6] ++ [move_action 7 4].

(** The same game without the 160 quiet moves: 41 actions. *)
Definition short_game_blockade : list Action :=
  corner_opening ++ [move_action 15 16; move_action 12 13]
  ++ flat_map corner_cycle [10;19;20;6] ++ [move_action 7 4].

(** ** Mills, as propositions *)

(** [mill] is a triple of the table with all three cells held by [player]. *)
Definition complete_mill (b : list Z) (player : Z) (mill : list nat) : Prop :=
  In mill MILLS ∧ ∀ p, In p mill → cell b p = player.

(** [pos] lies inside some complete mill of [player]. *)
Definition inside_mill (b : list Z) (player : Z) (pos : nat) : Prop :=
  ∃ mill, complete_mill b player mill ∧ In pos mill.

(** Every cell of [player] lies inside some complete mill of [player]. *)
Definition all_inside_mills (b : list Z) (player : Z) : Prop :=
  ∀ pos, pos < BOARD_POSITIONS → cell b pos = player → inside_mill b player pos.

(** Some cell of the opponent of [acting] is a legal capture target. *)
Definition capture_available (b : list Z) (acting : Player) : Prop :=
  ∃ pos, pos < BOARD_POSITIONS
         ∧ cell b pos = pval (opp acting)
         ∧ (¬ inside_mill b (pval (opp acting)) pos
            ∨ all_inside_mills b (pval (opp acting))).

(** The board that a placement on [t], or a movement from [from_pos a] to
    [t], makes of the board of [s]: the source cell of a movement is emptied,
    then the acting player's value is written on [t]. *)
Definition board_with_piece (s : Env) (a : Action) (t : nat) : list Z :=
  let mine := pval (current_player s) in
  match atype a, from_pos a with
  | move, Some f => <[t := mine]> (<[f := 0%Z]> (board s))
  | _, _ => <[t := mine]> (board s)
  end.

(** What [step s a] gives for a placement or movement onto [t]: the board
    returned is the board of [s] with the piece put on [t], and a capture is
    owed exactly when, on that board, the piece on [t] lies in a complete
    mill of the acting player and a legal capture exists. *)
Definition mill_capture_outcome (s : Env) (a : Action) (t : nat) : Prop :=
  let acting := current_player s in
  let b := board_with_piece s a t in
  let owed := inside_mill b (pval acting) t ∧ capture_available b acting in
  ∃ s' r,
    step s a = Some (s', r)
    ∧ board s' = b
    ∧ (owed → needs_capture (info r) = true ∧ formed_mill (info r) = true
              ∧ done r = false ∧ current_player s' = acting)
    ∧ (¬ owed → needs_capture (info r) = false
                ∧ current_player s' = opp acting).

(** Player 1 on 0 and 1, player -1 on 12 and 9, player 1 to place. *)
Definition two_in_row : Env :=
  mkEnv [1;1;0;0;0;0;0;0;0;-1;0;0;-1;0;0;0;0;0;0;0;0;0;0;0]%Z
        placement (mkPer placement placement) P1
        (mkPer 7%Z 7%Z) (mkPer 2%Z 2%Z) None 4%Z false false.

(** Player 1 on 0 and 1, nothing else on the board. *)
Definition two_in_row_alone : Env :=
  mkEnv [1;1;0;0;0;0;0;0;0;0;0;0;0;0;0;0;0;0;0;0;0;0;0;0]%Z
        placement (mkPer placement placement) P1
        (mkPer 7%Z 9%Z) (mkPer 2%Z 0%Z) None 2%Z false false.

(** Entry [i] of layer [k] of a tensor. *)
Definition entry (T : Tensor) (k i : nat) : option Q :=
  match T !! k with
  | Some row => row !! i
  | None => None
  end.

(** The layers of [get_state s], cell by cell, and the call leaving the
    environment as it found it. *)
Definition encoder_contract (s : Env) : Prop :=
  let cur := current_player s in
  let ph := pget (player_phase s) cur in
  let T := get_state s in
  length T = 7
  ∧ (∀ row, In row T → length row = BOARD_POSITIONS)
  ∧ (∀ i, i < BOARD_POSITIONS →
       entry T 0 i = Some (indicator (cell (board s) i =? pval cur)%Z)
       ∧ entry T 1 i = Some (indicator (cell (board s) i =? pval (opp cur))%Z)
       ∧ entry T 2 i = Some (indicator (phase_eqb ph placement))
       ∧ entry T 3 i = Some (indicator (phase_eqb ph movement))
       ∧ entry T 4 i = Some (indicator (phase_eqb ph flying))
       ∧ entry T 5 i = Some (pget (pieces_in_hand s) cur # 9)%Q
       ∧ entry T 6 i = Some (indicator (cell (board s) i =? 0)%Z))
  ∧ (get_state_call s).2 = s
  ∧ (get_state_call (get_state_call s).2).1 = (get_state_call s).1.

(** The elimination test of [check_elimination], on the environment the
    terminal checks see. *)
Definition eliminated (acting : Player) (s : Env) : bool :=
  negb (phase_eqb (global_phase s) placement)
  && (pget (pieces_on_board s) (opp acting) <? 3)%Z.

(** [step], with a default where the source raises. *)
Definition step_or_stay (s : Env) (a : Action) : Env * StepResult :=
  default (s, mkResult (get_state s) 0%Q false (InfoTurn false false))
          (step s a).

(** The environment a recorded game leaves ([reset] if it is not legal). *)
Definition env_after (acts : list Action) : Env :=
  match play acts new_session with
  | Some ss => env ss
  | None => reset
  end.

(** A turn in two halves: [s] to [s1] by the piece that closes the mill
    (result [r1]) and [s1] to [s2] by the capture (result [r2]). *)
Definition capture_half_counts (s s1 s2 : Env) (r1 r2 : StepResult) : Prop :=
  move_count s1 = (move_count s + 1)%Z
  ∧ move_count s2 = (move_count s1 + 1)%Z
  ∧ move_count s2 = (move_count s + 2)%Z
  ∧ done r1 = false
  ∧ (move_count s = 199%Z →
     (move_count s1 >? 200)%Z = false
     ∧ (move_count s2 >? 200)%Z = true
     ∧ done r2 = true ∧ winner s2 = Some 0%Z).

(** [long_game_draw] without its last action: 199 actions, player 1 to
    move. *)
Definition long_game_draw_before : list Action :=
  opening ++ times 39 shuffle ++ flat_map mill_cycle [9;10;19;20;23].

(** The fields that the end of a turn leaves as they are. *)
Definition same_position (s s' : Env) : Prop :=
  board s' = board s
  ∧ current_player s' = current_player s
  ∧ pieces_in_hand s' = pieces_in_hand s
  ∧ pieces_on_board s' = pieces_on_board s
  ∧ move_count s' = move_count s
  ∧ last_mill_formed s' = last_mill_formed s
  ∧ last_capture s' = last_capture s.

(** ** Piece accounting *)

(** The books of one player balance: hand, board and captured pieces add up
    to 9, and the on-board counter is the number of that player's cells. *)
Definition balanced (ss : Session) (p : Player) : Prop :=
  (pget (pieces_in_hand (env ss)) p
   + count_cells (pval p) (board (env ss))
   + pget (captured ss) p = PIECES_PER_PLAYER)%Z
  ∧ pget (pieces_on_board (env ss)) p = count_cells (pval p) (board (env ss))
  ∧ (0 <= pget (pieces_in_hand (env ss)) p)%Z
  ∧ (0 <= pget (captured ss) p)%Z.

(** Change of one player's hand, cells and captured pieces from [ss] to
    [ss']. *)
Definition delta (ss ss' : Session) (p : Player) (dh db dc : Z) : Prop :=
  pget (pieces_in_hand (env ss')) p = (pget (pieces_in_hand (env ss)) p + dh)%Z
  ∧ count_cells (pval p) (board (env ss'))
    = (count_cells (pval p) (board (env ss)) + db)%Z
  ∧ pget (captured ss') p = (pget (captured ss) p + dc)%Z.

(** What one action does to the pieces: a placement takes one piece of the
    acting player from hand to board, a capture takes one piece of the
    opponent from board to captured, nothing else changes. *)
Definition piece_effect (ss : Session) (a : Action) (ss' : Session) : Prop :=
  let acting := current_player (env ss) in
  match atype a with
  | place => delta ss ss' acting (-1) 1 0 ∧ delta ss ss' (opp acting) 0 0 0
  | move => delta ss ss' acting 0 0 0 ∧ delta ss ss' (opp acting) 0 0 0
  | capture => delta ss ss' acting 0 0 0 ∧ delta ss ss' (opp acting) 0 (-1) 1
  end.

Definition conservation (ss : Session) : Prop :=
  length (board (env ss)) = BOARD_POSITIONS
  ∧ (∀ p, balanced ss p)
  ∧ (∀ a, legal ss a → ∃ ss', apply ss a = Some ss' ∧ piece_effect ss a ss').

(** ** Phases *)

(** The session a recorded game leaves ([new_session] if it is not legal). *)
Definition session_after (acts : list Action) : Session :=
  default new_session (play acts new_session).

(** Both hands are empty. *)
Definition hands_empty (e : Env) : Prop :=
  pget (pieces_in_hand e) P1 = 0%Z ∧ pget (pieces_in_hand e) M1 = 0%Z.

(** Flying implies that the global phase is movement, and the global phase
    is never the string of flying. *)
Definition phases_coherent (e : Env) : Prop :=
  (∀ p, pget (player_phase e) p = flying → global_phase e = movement)
  ∧ global_phase e ≠ flying.

(** One step from [ss] to [ss']: movement stays, flying stays, and the
    global phase leaves placement exactly on a step that completes a turn
    (no capture owed after it) with both hands empty after it. *)
Definition phase_progress (ss ss' : Session) : Prop :=
  let e := env ss in
  let e' := env ss' in
  (global_phase e = movement → global_phase e' = movement)
  ∧ (∀ p, pget (player_phase e) p = flying → pget (player_phase e') p = flying)
  ∧ (global_phase e = placement →
     (global_phase e' = movement
      ↔ capture_owed ss' = false ∧ hands_empty e')).

(** The first 17 placements of [opening_with_last_mill]. *)
Definition opening_before_last_mill : list Action :=
  map place_action [0;12; 2;9; 4;10; 21;19; 6;20; 8;23; 15;14; 17;7; 18].

(** The test of the placement -> movement transition. *)
Definition leaves_placement (s : Env) : bool :=
  phase_eqb (global_phase s) placement
  && ((pget (pieces_in_hand s) P1 =? 0)%Z
      && (pget (pieces_in_hand s) M1 =? 0)%Z).

(** ** Blockade *)

(** No cell of the board is empty. *)
Definition board_full (b : list Z) : Prop := ∀ c, In c b → c ≠ 0%Z.

(** The player about to move is blocked, as the blockade check of [step]
    decides it: in the placement phase when the board is full or the hand is
    empty, in the movement phase when no own piece has an empty neighbour,
    in the flying phase when the board is full. *)
Definition blocked (s : Env) : Prop :=
  let next_player := current_player s in
  match pget (player_phase s) next_player with
  | placement =>
      board_full (board s) ∨ (pget (pieces_in_hand s) next_player <= 0)%Z
  | movement =>
      ∀ f t, f < BOARD_POSITIONS → cell (board s) f = pval next_player →
             In t (ADJACENCY f) → cell (board s) t ≠ 0%Z
  | flying => board_full (board s)
  end.

(** True blockade of the player about to move, in the words of the rules:
    movement phase with no own piece next to an empty cell, flying phase
    with no empty cell to fly to, placement phase with the board fully
    occupied.  The hand plays no part. *)
Definition truly_blocked (s : Env) : Prop :=
  let next_player := current_player s in
  match pget (player_phase s) next_player with
  | placement => board_full (board s)
  | movement =>
      ∀ f t, f < BOARD_POSITIONS → cell (board s) f = pval next_player →
             In t (ADJACENCY f) → cell (board s) t ≠ 0%Z
  | flying => board_full (board s)
  end.

(** A flying player about to move has a piece on the board. *)
Definition flyer_has_piece (s : Env) : Prop :=
  pget (player_phase s) (current_player s) = flying →
  ∃ f, f < BOARD_POSITIONS ∧ cell (board s) f = pval (current_player s).

(** The blockade check on a completed step from [s] to [s'] with result
    [r]. *)
Definition blockade_contract (s s' : Env) (r : StepResult) : Prop :=
  (done r = true ↔ blocked s')
  ∧ (blocked s' → winner s' = Some (pval (current_player s)))
  ∧ (pget (player_phase s') (current_player s') = placement →
     pget (pieces_in_hand s') (current_player s') = 0%Z →
     done r = true ∧ winner s' = Some (pval (current_player s)))
  ∧ (length (board s') = BOARD_POSITIONS → flyer_has_piece s' →
     (blocked s' ↔ get_valid_actions s' = [])).

(** ** Alternation of the placements *)

(** While the global phase is placement both players are in the placement
    phase and the hands differ by the one piece of the player whose turn it
    is; afterwards nobody is in the placement phase. *)
Definition placement_turns (ss : Session) : Prop :=
  let e := env ss in
  let h := pget (pieces_in_hand e) in
  (global_phase e = placement →
   pget (player_phase e) P1 = placement
   ∧ pget (player_phase e) M1 = placement
   ∧ (capture_owed ss = false →
      ¬ hands_empty e
      ∧ match current_player e with
        | P1 => h P1 = h M1
        | M1 => h M1 = (h P1 + 1)%Z
        end)
   ∧ (capture_owed ss = true →
      match current_player e with
      | P1 => (h P1 + 1)%Z = h M1
      | M1 => h M1 = h P1
      end))
  ∧ (global_phase e = movement →
     pget (player_phase e) P1 ≠ placement
     ∧ pget (player_phase e) M1 ≠ placement).

(** Every cell holds 0, 1 or -1. *)
Definition cells_valid (b : list Z) : Prop :=
  Forall (λ c, c = 0%Z ∨ c = 1%Z ∨ c = (-1)%Z) b.

(** ** The action mask and the copy of an environment *)

(** [get_valid_action_mask]: 624 zeros, then [mask[idx] = 1.0] for every
    action of [get_valid_actions] ([mark_action] is one round of the loop).
    [None] stands for the TypeError of an index that cannot be computed and
    for the IndexError of an index outside the mask. *)
Definition mark_action (mask : option (list Q)) (a : Action)
  : option (list Q) :=
  match mask, action_to_index a with
  | Some m, Some idx =>
      if idx <? length m then Some (<[idx := 1%Q]> m) else None
  | _, _ => None
  end.

Definition get_valid_action_mask (s : Env) : option (list Q) :=
  fold_left mark_action (get_valid_actions s)
            (Some (replicate ACTION_SPACE_SIZE 0%Q)).

(** [clone]: a fresh environment ([__init__] runs [reset]) whose board,
    phases, player to act, counters, winner and move counter are then
    overwritten with copies of the original's.  The two event flags are not
    copied. *)
Definition clone (s : Env) : Env :=
  let new_env := reset in
  let e1 := set_board (board s) new_env in
  let e2 := set_global_phase (global_phase s) e1 in
  let e3 := set_player_phase (player_phase s) e2 in
  let e4 := set_current_player (current_player s) e3 in
  let e5 := set_pieces_in_hand (pieces_in_hand s) e4 in
  let e6 := set_pieces_on_board (pieces_on_board s) e5 in
  let e7 := set_winner (winner s) e6 in
  set_move_count (move_count s) e7.

(** The positions an action needs are ints, not [None]. *)
Definition positions_given (a : Action) : Prop :=
  match atype a with
  | place => to_pos a ≠ None
  | move => from_pos a ≠ None ∧ to_pos a ≠ None
  | capture => from_pos a ≠ None
  end.

(** Some int position that the action uses lies outside the board. *)
Definition position_out_of_range (s : Env) (a : Action) : Prop :=
  match atype a with
  | place => ∃ t, to_pos a = Some t ∧ length (board s) ≤ t
  | move => (∃ f, from_pos a = Some f ∧ length (board s) ≤ f)
            ∨ (∃ t, to_pos a = Some t ∧ length (board s) ≤ t)
  | capture => ∃ f, from_pos a = Some f ∧ length (board s) ≤ f
  end.

(** The positions an action needs are ints inside the board. *)
Definition positions_in_range (s : Env) (a : Action) : Prop :=
  match atype a with
  | place => ∃ t, to_pos a = Some t ∧ t < length (board s)
  | move => ∃ f t, from_pos a = Some f ∧ to_pos a = Some t
                   ∧ f < length (board s) ∧ t < length (board s)
  | capture => ∃ f, from_pos a = Some f ∧ f < length (board s)
  end.

(** ** The session, as the page and the driver use it (app.py) *)

(** The counters as [main] shows them: [max(0, pieces_in_hand[p])] and
    [min(9, max(0, pieces_on_board[p]))]. *)
Definition shown_in_hand (e : Env) (p : Player) : Z :=
  Z.max 0 (pget (pieces_in_hand e) p).

Definition shown_on_board (e : Env) (p : Player) : Z :=
  Z.min 9 (Z.max 0 (pget (pieces_on_board e) p)).

(** An open session can go on: a capture that is owed has a target, and a
    player about to start a turn passes the blockade check, has at least 3
    pieces once the placement is over, and is within the move limit. *)
Definition ready (ss : Session) : Prop :=
  finished ss = false →
  if capture_owed ss then get_valid_capture_actions (env ss) ≠ []
  else has_move (env ss) = true
       ∧ (global_phase (env ss) ≠ placement →
          (3 <= pget (pieces_on_board (env ss)) (current_player (env ss)))%Z)
       ∧ (move_count (env ss) <= 200)%Z.

(** The bound on the move counter, by the state of the session. *)
Definition move_bound (ss : Session) : Z :=
  if finished ss then 202%Z else if capture_owed ss then 201%Z else 200%Z.

(** The winner field agrees with the end of the game. *)
Definition winner_settled (ss : Session) : Prop :=
  (finished ss = false → winner (env ss) = None)
  ∧ (finished ss = true →
     winner (env ss) = Some 0%Z ∨ winner (env ss) = Some 1%Z
     ∨ winner (env ss) = Some (-1)%Z).

(** ** Pixel coordinates of the cells (board.py) *)

Definition BOARD_SIZE : Z := 600.
Definition MARGIN : Z := 60.

(** The dict [POSITION_GRID]; [None] where the key is missing. *)
Definition POSITION_GRID (pos : Z) : option (Z * Z) :=
  match pos with
  | 0 => Some (0, 0) | 1 => Some (3, 0) | 2 => Some (6, 0)
  | 3 => Some (1, 1) | 4 => Some (3, 1) | 5 => Some (5, 1)
  | 6 => Some (2, 2) | 7 => Some (3, 2) | 8 => Some (4, 2)
  | 9 => Some (0, 3) | 10 => Some (1, 3) | 11 => Some (2, 3)
  | 12 => Some (4, 3) | 13 => Some (5, 3) | 14 => Some (6, 3)
  | 15 => Some (2, 4) | 16 => Some (3, 4) | 17 => Some (4, 4)
  | 18 => Some (1, 5) | 19 => Some (3, 5) | 20 => Some (5, 5)
  | 21 => Some (0, 6) | 22 => Some (3, 6) | 23 => Some (6, 6)
  | _ => None
  end%Z.

(** [get_position_coords(pos, board_size, margin)]; [//] is floor division,
    as [Z.div] is. *)
Definition get_position_coords (pos board_size margin : Z) : Z * Z :=
  match POSITION_GRID pos with
  | None => (0, 0)%Z
  | Some (grid_x, grid_y) =>
      let cell_size := ((board_size - 2 * margin) / 6)%Z in
      (margin + grid_x * cell_size, margin + grid_y * cell_size)%Z
  end.

(** The cells of the board, as the ints the drawing code passes. *)
Definition cell_ids : list Z := map Z.of_nat (seq 0 BOARD_POSITIONS).

(** ** One turn of the driver (app.py, [execute_turn] and [log_move])

    The page's session state, as far as a turn touches it: the environment,
    the page's own move counter, the last move shown, and the move log.  A
    log entry is kept as the data its text and its database row are built
    from: move number, player, action, mill flag.  The action chosen by the
    policy and the capture chosen by the policy, should one be asked for, are
    arguments. *)
Record Ui := mkUi {
  ui_env : Env;
  ui_move_count : Z;
  ui_last_move : option (option nat * option nat);
  ui_log : list (Z * Player * Action * bool)
}.

(** [start_game], as far as these fields go. *)
Definition start_game : Ui := mkUi reset 0%Z None [].

(** [log_move(player, action, formed_mill)]. *)
Definition log_move (player : Player) (a : Action) (mill : bool) (u : Ui)
  : Ui :=
  let n := (ui_move_count u + 1)%Z in
  mkUi (ui_env u) n (ui_last_move u) (ui_log u ++ [(n, player, a, mill)]).

Definition with_env (e : Env) (u : Ui) : Ui :=
  mkUi e (ui_move_count u) (ui_last_move u) (ui_log u).

(** [execute_turn]: returns the new session state and the pair
    [(done, env.winner)]; [None] when a step raises. *)
Definition execute_turn (a c : Action) (u : Ui)
  : option (Ui * (bool * option Z)) :=
  let player_num := current_player (ui_env u) in
  let last :=
    match atype a with
    | move => Some (from_pos a, to_pos a)
    | place => Some (None, to_pos a)
    | capture => ui_last_move u
    end in
  let u0 := mkUi (ui_env u) (ui_move_count u) last (ui_log u) in
  match step (ui_env u0) a with
  | None => None
  | Some (e1, r1) =>
      let u1 := log_move player_num a (formed_mill (info r1)) (with_env e1 u0) in
      if needs_capture (info r1) then
        match step (ui_env u1) c with
        | None => None
        | Some (e2, r2) =>
            let u2 := log_move player_num c false (with_env e2 u1) in
            Some (u2, (done r2, winner (ui_env u2)))
        end
      else Some (u1, (done r1, winner (ui_env u1)))
  end.

(** What a turn of the driver achieves from the open session [ss], whose
    environment the page holds in [u]. *)
Definition turn_completed (ss : Session) (u : Ui) (a c : Action) : Prop :=
  ∃ u' d ss',
    execute_turn a c u = Some (u', (d, winner (ui_env u')))
    ∧ reachable ss'
    ∧ env ss' = ui_env u'
    ∧ capture_owed ss' = false
    ∧ finished ss' = d
    ∧ current_player (ui_env u') = opp (current_player (env ss))
    ∧ (ui_move_count u' - ui_move_count u
       = move_count (ui_env u') - move_count (env ss))%Z
    ∧ (Z.of_nat (length (ui_log u')) - Z.of_nat (length (ui_log u))
       = ui_move_count u' - ui_move_count u)%Z
    ∧ (ui_move_count u' - ui_move_count u = 1
       ∨ ui_move_count u' - ui_move_count u = 2)%Z.

(** The elimination game without the quiet moves: 49 actions, player 1 has
    just closed the mill and owes the capture that eliminates. *)
Definition short_game_elimination : list Action :=
  opening ++ flat_map mill_cycle [9;10;19;20;23;14] ++ [move_action 4 1].

(** Once the global phase is movement, a player with exactly 3 pieces on
    the counter is flying, and a flying player has at most 3. *)
Definition flying_tracked (ss : Session) : Prop :=
  global_phase (env ss) = movement →
  ∀ p, (pget (pieces_on_board (env ss)) p = 3%Z →
        pget (player_phase (env ss)) p = flying)
       ∧ (pget (player_phase (env ss)) p = flying →
          (pget (pieces_on_board (env ss)) p <= 3)%Z).

(** The mask that [get_ai_capture] (model.py) builds by hand: 624 zeros,
    then a 1 at the index of every action of [get_valid_capture_actions]. *)
Definition capture_mask (s : Env) : option (list Q) :=
  fold_left mark_action (get_valid_capture_actions s)
            (Some (replicate ACTION_SPACE_SIZE 0%Q)).

(** Number of entries of a mask that are 1. *)
Definition count_ones (m : list Q) : nat :=
  length (List.filter (λ x, Qeq_bool x 1) m).

(** * Properties *)

(** ** Elementary facts *)

Lemma pval_opp p : pval (opp p) = (- pval p)%Z.
Proof. by destruct p. Qed.

Lemma pval_nonzero p : pval p ≠ 0%Z.
Proof. by destruct p. Qed.

Lemma phase_eqb_eq a b : phase_eqb a b = true ↔ a = b.
Proof. destruct a, b; simpl; split; congruence. Qed.

Lemma cell_lookup (b : list Z) i x : b !! i = Some x → cell b i = x.
Proof. unfold cell. by intros ->. Qed.

Lemma cell_insert_ne (b : list Z) i j v :
  i ≠ j → cell (<[i:=v]> b) j = cell b j.
Proof. intros H. unfold cell. by rewrite list_lookup_insert_ne. Qed.

Lemma write_Some (b b' : list Z) i v :
  write b i v = Some b' ↔ i < length b ∧ b' = <[i:=v]> b.
Proof.
  unfold write. destruct (Nat.ltb_spec i (length b)); split.
  - intros [= <-]. done.
  - by intros [_ ->].
  - done.
  - intros [? _]. lia.
Qed.

Lemma write_length (b b' : list Z) i v :
  write b i v = Some b' → length b' = length b.
Proof. intros [_ ->]%write_Some. apply length_insert. Qed.

Lemma count_cells_insert (x : Z) (b : list Z) i v old :
  b !! i = Some old →
  count_cells x (<[i:=v]> b)
  = (count_cells x b - (if (old =? x)%Z then 1 else 0)
     + (if (v =? x)%Z then 1 else 0))%Z.
Proof.
  revert i. induction b as [|c r IH]; intros [|i] H; simpl in *; try done.
  - injection H as ->. lia.
  - rewrite (IH i H). lia.
Qed.

Lemma cell_in_range_lookup (b : list Z) i :
  i < length b → b !! i = Some (cell b i).
Proof.
  intros H. unfold cell.
  destruct (lookup_lt_is_Some_2 b i H) as [x ->]. done.
Qed.

(** ** The enumerations, as membership conditions *)

Lemma in_cond_singleton {A} (c : bool) (x y : A) :
  In y (if c then [x] else []) ↔ c = true ∧ y = x.
Proof. destruct c; simpl; intuition congruence. Qed.

Lemma ADJACENCY_in_range f t :
  f < BOARD_POSITIONS → In t (ADJACENCY f) → t < BOARD_POSITIONS.
Proof.
  unfold BOARD_POSITIONS. intros Hf Ht.
  do 24 (destruct f as [|f]; [simpl in Ht; intuition lia|]). lia.
Qed.

Lemma in_get_valid_actions s a :
  In a (get_valid_actions s) ↔
  match pget (player_phase s) (current_player s) with
  | placement =>
      (0 < pget (pieces_in_hand s) (current_player s))%Z
      ∧ ∃ t, t < BOARD_POSITIONS ∧ cell (board s) t = 0%Z ∧ a = place_action t
  | movement =>
      ∃ f t, f < BOARD_POSITIONS ∧ cell (board s) f = pval (current_player s)
             ∧ In t (ADJACENCY f) ∧ cell (board s) t = 0%Z
             ∧ a = move_action f t
  | flying =>
      ∃ f t, f < BOARD_POSITIONS ∧ cell (board s) f = pval (current_player s)
             ∧ t < BOARD_POSITIONS ∧ cell (board s) t = 0%Z
             ∧ a = move_action f t
  end.
Proof.
  unfold get_valid_actions.
  destruct (pget (player_phase s) (current_player s)).
  - destruct (Z.ltb_spec 0 (pget (pieces_in_hand s) (current_player s))).
    + rewrite in_flat_map. split.
      * intros (t & Ht%in_seq & Hin). apply in_cond_singleton in Hin as [Hc ->].
        apply Z.eqb_eq in Hc. split; [done|]. exists t. split; [lia|done].
      * intros (_ & t & Ht & Hc & ->). exists t. split; [apply in_seq; lia|].
        apply in_cond_singleton. by rewrite Z.eqb_eq.
    + split; [done|]. intros [? _]. lia.
  - rewrite in_flat_map. split.
    + intros (f & Hf%in_seq & Hin).
      destruct (Z.eqb_spec (cell (board s) f) (pval (current_player s)));
        [|done].
      apply in_flat_map in Hin as (t & Ht & Hin).
      apply in_cond_singleton in Hin as [Hc%Z.eqb_eq ->].
      exists f, t. repeat split; try done. lia.
    + intros (f & t & Hf & Hc & Ht & Hz & ->). exists f.
      split; [apply in_seq; lia|].
      rewrite Hc, Z.eqb_refl. apply in_flat_map. exists t. split; [done|].
      apply in_cond_singleton. by rewrite Z.eqb_eq.
  - rewrite in_flat_map. split.
    + intros (f & Hf%in_seq & Hin).
      destruct (Z.eqb_spec (cell (board s) f) (pval (current_player s)));
        [|done].
      apply in_flat_map in Hin as (t & Ht%in_seq & Hin).
      apply in_cond_singleton in Hin as [Hc%Z.eqb_eq ->].
      exists f, t. repeat split; try done; lia.
    + intros (f & t & Hf & Hc & Ht & Hz & ->). exists f.
      split; [apply in_seq; lia|].
      rewrite Hc, Z.eqb_refl. apply in_flat_map. exists t.
      split; [apply in_seq; lia|].
      apply in_cond_singleton. by rewrite Z.eqb_eq.
Qed.

Lemma in_get_valid_capture_actions s a :
  In a (get_valid_capture_actions s) ↔
  ∃ pos, pos < BOARD_POSITIONS
         ∧ cell (board s) pos = (- pval (current_player s))%Z
         ∧ (_is_in_mill s pos (- pval (current_player s)) = false
            ∨ _all_in_mills s (- pval (current_player s)) = true)
         ∧ a = capture_action pos.
Proof.
  unfold get_valid_capture_actions. rewrite in_flat_map. split.
  - intros (pos & Hp%in_seq & Hin).
    destruct (Z.eqb_spec (cell (board s) pos) (- pval (current_player s)));
      [|done].
    apply in_cond_singleton in Hin as [Hc ->].
    exists pos. repeat split; [lia|done|].
    apply orb_true_iff in Hc as [Hc%negb_true_iff|Hc]; auto.
  - intros (pos & Hp & Hc & Hm & ->). exists pos.
    split; [apply in_seq; lia|].
    rewrite Hc, Z.eqb_refl. apply in_cond_singleton. split; [|done].
    apply orb_true_iff. destruct Hm as [-> | ->]; auto.
Qed.

Lemma valid_action_shape s a :
  In a (get_valid_actions s) →
  (∃ t, t < BOARD_POSITIONS ∧ a = place_action t)
  ∨ (∃ f t, f < BOARD_POSITIONS ∧ t < BOARD_POSITIONS ∧ a = move_action f t).
Proof.
  intros H%in_get_valid_actions.
  destruct (pget (player_phase s) (current_player s)).
  - destruct H as (_ & t & ? & _ & ->). left. eauto.
  - destruct H as (f & t & ? & _ & ?%ADJACENCY_in_range & _ & ->); [|done].
    right. eauto.
  - destruct H as (f & t & ? & _ & ? & _ & ->). right. eauto.
Qed.

Lemma valid_capture_shape s a :
  In a (get_valid_capture_actions s) →
  ∃ f, f < BOARD_POSITIONS ∧ a = capture_action f.
Proof. intros (f & ? & _ & _ & ->)%in_get_valid_capture_actions. eauto. Qed.

(** ** Action encoding (C4) *)

Lemma roundtrip_place t :
  t < BOARD_POSITIONS →
  action_to_index (place_action t) = Some t
  ∧ index_to_action t = place_action t.
Proof.
  unfold BOARD_POSITIONS. intros H. split; [done|].
  unfold index_to_action, ACTION_MOVEMENT_START, ACTION_PLACEMENT_START.
  destruct (Nat.ltb_spec t 24); [|lia]. unfold place_action. f_equal. f_equal. lia.
Qed.

Lemma roundtrip_move f t :
  f < BOARD_POSITIONS → t < BOARD_POSITIONS →
  action_to_index (move_action f t) = Some (24 + f * 24 + t)
  ∧ index_to_action (24 + f * 24 + t) = move_action f t.
Proof.
  unfold BOARD_POSITIONS. intros Hf Ht. split; [done|].
  unfold index_to_action, ACTION_MOVEMENT_START, ACTION_CAPTURE_START,
    BOARD_POSITIONS.
  destruct (Nat.ltb_spec (24 + f * 24 + t) 24); [lia|].
  destruct (Nat.ltb_spec (24 + f * 24 + t) 600); [|lia].
  replace (24 + f * 24 + t - 24) with (t + f * 24) by lia.
  rewrite Nat.div_add, Nat.Div0.mod_add by lia.
  rewrite Nat.div_small, Nat.mod_small by lia. done.
Qed.

Lemma roundtrip_capture f :
  action_to_index (capture_action f) = Some (600 + f)
  ∧ index_to_action (600 + f) = capture_action f.
Proof.
  split; [done|].
  unfold index_to_action, ACTION_MOVEMENT_START, ACTION_CAPTURE_START.
  destruct (Nat.ltb_spec (600 + f) 24); [lia|].
  destruct (Nat.ltb_spec (600 + f) 600); [lia|].
  unfold capture_action. do 2 f_equal. lia.
Qed.

(** C4.  For every action of the legal set of a state (placements and
    movements of [get_valid_actions], captures of
    [get_valid_capture_actions]) encoding succeeds, decoding the index gives
    the action back, the index is below 624, and it lies in the sub-range of
    its kind: place-at-i is i in [0,24), move-from-A-to-B is 24 + A*24 + B in
    [24,600), capture-at-i is 600 + i in [600,624).  It holds in every
    state, reachable ones included. *)
Theorem action_index_roundtrip (s : Env) (a : Action) :
  In a (get_valid_actions s) ∨ In a (get_valid_capture_actions s) →
  ∃ idx,
    action_to_index a = Some idx
    ∧ index_to_action idx = a
    ∧ idx < ACTION_SPACE_SIZE
    ∧ match atype a with
      | place => ∃ i, a = place_action i ∧ idx = i ∧ idx < 24
      | move =>
          ∃ f t, a = move_action f t ∧ idx = 24 + f * 24 + t
                 ∧ 24 ≤ idx < 600
      | capture => ∃ i, a = capture_action i ∧ idx = 600 + i
                        ∧ 600 ≤ idx < 624
      end.
Proof.
  unfold ACTION_SPACE_SIZE.
  intros [[(t & Ht & ->)|(f & t & Hf & Ht & ->)]%valid_action_shape
         |(f & Hf & ->)%valid_capture_shape].
  - destruct (roundtrip_place t Ht) as [He Hd]. exists t.
    unfold BOARD_POSITIONS in Ht. repeat split; try done; try lia.
    simpl. exists t. done.
  - destruct (roundtrip_move f t Hf Ht) as [He Hd]. exists (24 + f * 24 + t).
    unfold BOARD_POSITIONS in Hf, Ht. repeat split; try done; try lia.
    simpl. exists f, t. repeat split; lia.
  - destruct (roundtrip_capture f) as [He Hd]. exists (600 + f).
    unfold BOARD_POSITIONS in Hf. repeat split; try done; try lia.
    simpl. exists f. repeat split; lia.
Qed.

Lemma action_index_roundtrip_witness :
  ∃ idx,
    action_to_index (place_action 3) = Some idx
    ∧ index_to_action idx = place_action 3
    ∧ idx < ACTION_SPACE_SIZE
    ∧ ∃ i, place_action 3 = place_action i ∧ idx = i ∧ idx < 24.
Proof.
  apply (action_index_roundtrip reset (place_action 3)).
  left. vm_compute. auto 10.
Defined.

(** ** Capture eligibility (C3) *)

Lemma is_in_mill_spec s pos player :
  _is_in_mill s pos player = true ↔ inside_mill (board s) player pos.
Proof.
  unfold _is_in_mill, inside_mill, complete_mill.
  rewrite existsb_exists. split.
  - intros (mill & Hm & [Hp Ha]%andb_true_iff). exists mill.
    apply existsb_exists in Hp as (q & Hq & ->%Nat.eqb_eq).
    rewrite forallb_forall in Ha. repeat split; try done.
    intros p Hp. by apply Z.eqb_eq, Ha.
  - intros (mill & [Hm Ha] & Hp). exists mill. split; [done|].
    apply andb_true_iff. split.
    + apply existsb_exists. exists pos. split; [done|]. apply Nat.eqb_refl.
    + apply forallb_forall. intros p Hq. by apply Z.eqb_eq, Ha.
Qed.

Lemma is_in_mill_false s pos player :
  _is_in_mill s pos player = false ↔ ¬ inside_mill (board s) player pos.
Proof.
  rewrite <- is_in_mill_spec. destruct (_is_in_mill s pos player); split;
    congruence.
Qed.

Lemma all_in_mills_spec s player :
  _all_in_mills s player = true ↔ all_inside_mills (board s) player.
Proof.
  unfold _all_in_mills, all_inside_mills. rewrite forallb_forall. split.
  - intros H pos Hp Hc. specialize (H pos). rewrite Hc, Z.eqb_refl in H.
    apply is_in_mill_spec, H, in_seq. lia.
  - intros H pos Hp%in_seq.
    destruct (Z.eqb_spec (cell (board s) pos) player); [|done].
    apply is_in_mill_spec, H; [lia|done].
Qed.

(** C3.  The legal capture targets are exactly the cells held by the opponent
    that lie inside no complete opponent mill, except that when every
    opponent piece on the board lies inside some complete opponent mill
    every opponent cell is a target. *)
Theorem capture_targets_exact (s : Env) (a : Action) :
  let opponent := pval (opp (current_player s)) in
  In a (get_valid_capture_actions s) ↔
  ∃ pos, a = capture_action pos
         ∧ pos < BOARD_POSITIONS
         ∧ cell (board s) pos = opponent
         ∧ (¬ inside_mill (board s) opponent pos
            ∨ all_inside_mills (board s) opponent).
Proof.
  simpl. rewrite pval_opp, in_get_valid_capture_actions.
  split; intros (pos & H); exists pos.
  - destruct H as (Hp & Hc & Hm & ->). repeat split; try done.
    destruct Hm as [Hm%is_in_mill_false|Hm%all_in_mills_spec]; auto.
  - destruct H as (-> & Hp & Hc & Hm). repeat split; try done.
    destruct Hm as [Hm%is_in_mill_false|Hm%all_in_mills_spec]; auto.
Qed.

(** ** What the end of a turn leaves untouched *)

Lemma same_position_refl s : same_position s s.
Proof. by repeat split. Qed.

Lemma same_position_trans s1 s2 s3 :
  same_position s1 s2 → same_position s2 s3 → same_position s1 s3.
Proof.
  intros (?&?&?&?&?&?&?) (?&?&?&?&?&?&?). repeat split; congruence.
Qed.

Lemma phase_transition_same s : same_position s (phase_transition s).
Proof.
  unfold phase_transition. repeat case_match; by repeat split.
Qed.

Lemma flying_update_same s : same_position s (flying_update s).
Proof.
  unfold flying_update. simpl. repeat case_match; by repeat split.
Qed.

Lemma check_elimination_same acting d r s :
  same_position s (check_elimination acting (d, r, s)).2.
Proof.
  unfold check_elimination. repeat case_match; by repeat split.
Qed.

Lemma check_blockade_same acting d r s :
  same_position s (check_blockade acting (d, r, s)).2.
Proof.
  unfold check_blockade. repeat case_match; by repeat split.
Qed.

Lemma check_draw_same d r s : same_position s (check_draw (d, r, s)).2.
Proof.
  unfold check_draw. repeat case_match; by repeat split.
Qed.

Lemma finish_turn_same acting r s :
  same_position s (finish_turn acting r s).1.
Proof.
  unfold finish_turn.
  pose proof (phase_transition_same s) as H1.
  pose proof (flying_update_same (phase_transition s)) as H2.
  destruct (check_elimination acting (false, r, flying_update (phase_transition s)))
    as [[d1 r1] e1] eqn:E1.
  pose proof (check_elimination_same acting false r
                (flying_update (phase_transition s))) as H3.
  rewrite E1 in H3. simpl in H3.
  destruct (check_blockade acting (d1, r1, e1)) as [[d2 r2] e2] eqn:E2.
  pose proof (check_blockade_same acting d1 r1 e1) as H4.
  rewrite E2 in H4. simpl in H4.
  destruct (check_draw (d2, r2, e2)) as [[d3 r3] e3] eqn:E3.
  pose proof (check_draw_same d2 r2 e2) as H5.
  rewrite E3 in H5. simpl in H5. simpl.
  eauto using same_position_trans.
Qed.

Lemma finish_turn_info acting r s :
  info (finish_turn acting r s).2
  = InfoTurn (last_mill_formed s) (last_capture s).
Proof.
  pose proof (finish_turn_same acting r s) as (_&_&_&_&_&Hm&Hc).
  unfold finish_turn in *.
  destruct (check_draw _) as [[d3 r3] e3]. simpl in *. congruence.
Qed.

(** ** Mill, capture owed and the passing of the turn (C2) *)

Lemma captures_nonempty s :
  (0 <? length (get_valid_capture_actions s)) = true
  ↔ capture_available (board s) (current_player s).
Proof.
  unfold capture_available. rewrite pval_opp. split.
  - intros H%Nat.ltb_lt.
    destruct (get_valid_capture_actions s) as [|a l] eqn:E; [simpl in H; lia|].
    assert (In a (get_valid_capture_actions s)) as Ha by (rewrite E; by left).
    apply in_get_valid_capture_actions in Ha as (pos & Hp & Hc & Hm & _).
    exists pos. repeat split; try done.
    destruct Hm as [Hm%is_in_mill_false|Hm%all_in_mills_spec]; auto.
  - intros (pos & Hp & Hc & Hm). apply Nat.ltb_lt.
    assert (In (capture_action pos) (get_valid_capture_actions s)) as Ha.
    { apply in_get_valid_capture_actions. exists pos. repeat split; try done.
      destruct Hm as [Hm%is_in_mill_false|Hm%all_in_mills_spec]; auto. }
    destruct (get_valid_capture_actions s); [done|simpl; lia].
Qed.

Lemma after_piece_outcome acting r t sm :
  let res := after_piece acting r (Some t) sm in
  let owed := inside_mill (board sm) (pval (current_player sm)) t
              ∧ capture_available (board sm) (current_player sm) in
  board res.1 = board sm
  ∧ (owed → info res.2 = InfoCapture true true ∧ done res.2 = false
            ∧ res.1 = set_last_mill_formed true sm)
  ∧ (¬ owed → needs_capture (info res.2) = false
              ∧ current_player res.1 = opp (current_player sm)).
Proof.
  simpl. unfold after_piece, is_in_mill_at.
  destruct (_is_in_mill sm t (pval (current_player sm))) eqn:Em.
  - destruct (0 <? length (get_valid_capture_actions (set_last_mill_formed true sm)))
      eqn:Ec.
    + simpl. split; [done|]. split; [done|].
      intros Hn. exfalso. apply Hn.
      split; [by apply is_in_mill_spec|].
      by apply (captures_nonempty (set_last_mill_formed true sm)).
    + pose proof (finish_turn_same acting (r + (1 # 10))%Q
        (set_current_player (opp (current_player (set_last_mill_formed true sm)))
           (set_last_mill_formed true sm))) as (Hb & Hp & _).
      rewrite finish_turn_info. split; [done|]. split.
      * intros [_ Hc]. exfalso.
        apply (captures_nonempty (set_last_mill_formed true sm)) in Hc.
        congruence.
      * intros _. done.
  - pose proof (finish_turn_same acting r
        (set_current_player (opp (current_player sm)) sm)) as (Hb & Hp & _).
    rewrite finish_turn_info.
    assert (¬ inside_mill (board sm) (pval (current_player sm)) t) as Hn
      by by apply is_in_mill_false.
    split; [done|]. split.
    + intros [? _]. done.
    + intros _. done.
Qed.

Lemma do_place_Some s t sm :
  do_place s (Some t) = Some sm →
  t < length (board s)
  ∧ board sm = <[t := pval (current_player s)]> (board s)
  ∧ current_player sm = current_player s.
Proof.
  unfold do_place, write_at. destruct (write _ _ _) as [b|] eqn:E; [|done].
  apply write_Some in E as [? ->]. by intros [= <-].
Qed.

Lemma do_move_Some s f t sm :
  do_move s (Some f) (Some t) = Some sm →
  f < length (board s) ∧ t < length (board s)
  ∧ board sm = <[t := pval (current_player s)]> (<[f := 0%Z]> (board s))
  ∧ current_player sm = current_player s.
Proof.
  unfold do_move, write_at.
  destruct (write (board s) f 0%Z) as [b0|] eqn:E0; [|done].
  apply write_Some in E0 as [? ->].
  destruct (write _ t _) as [b|] eqn:E; [|done].
  apply write_Some in E as [Ht ->]. rewrite length_insert in Ht.
  by intros [= <-].
Qed.

Lemma do_place_total s t :
  t < length (board s) → ∃ sm, do_place s (Some t) = Some sm.
Proof.
  intros H. unfold do_place, write_at, write.
  destruct (Nat.ltb_spec t (length (board s))); [eauto|lia].
Qed.

Lemma do_move_total s f t :
  f < length (board s) → t < length (board s) →
  ∃ sm, do_move s (Some f) (Some t) = Some sm.
Proof.
  intros Hf Ht. unfold do_move, write_at, write.
  destruct (Nat.ltb_spec f (length (board s))); [|lia].
  rewrite length_insert.
  destruct (Nat.ltb_spec t (length (board s))); [eauto|lia].
Qed.

(** C2.  A placement on a cell [t] of the board, or a movement from a cell
    of the board to [t], returns the board with the acting player's piece
    put on [t] (and the source cell of a movement emptied).  If on that
    board the piece on [t] completes a mill of the acting player while a
    legal capture exists, the step returns [needs_capture] and [formed_mill]
    set, [done] unset, and leaves the current player unchanged; in every
    other case (no mill, or a mill with no legal capture) the current player
    becomes the opponent on that step. *)
Theorem mill_grants_capture (s : Env) (a : Action) (t : nat) :
  atype a ≠ capture →
  to_pos a = Some t →
  t < length (board s) →
  (atype a = move → ∃ f, from_pos a = Some f ∧ f < length (board s)) →
  mill_capture_outcome s a t.
Proof.
  intros Hty Hto Ht Hfrom.
  unfold mill_capture_outcome, board_with_piece, step.
  rewrite Hto.
  set (s0 := set_last_capture false (set_last_mill_formed false s)).
  destruct (atype a) eqn:Ea; [| |done].
  - destruct (do_place_total s0 t Ht) as [sm Hsm]. rewrite Hsm.
    apply do_place_Some in Hsm as (_ & Hb & Hc).
    pose proof (after_piece_outcome (current_player s) base_reward t sm)
      as (Hb' & Hy & Hn).
    destruct (after_piece (current_player s) base_reward (Some t) sm)
      as [s' r].
    simpl in *. rewrite Hb, Hc in Hy, Hn. exists s', r.
    split; [done|]. split; [congruence|]. split.
    + intros Ho. destruct (Hy Ho) as (-> & -> & ->). done.
    + intros Ho. destruct (Hn Ho) as (-> & ->). done.
  - destruct (Hfrom eq_refl) as (f & -> & Hf).
    destruct (do_move_total s0 f t Hf Ht) as [sm Hsm]. rewrite Hsm.
    apply do_move_Some in Hsm as (_ & _ & Hb & Hc).
    pose proof (after_piece_outcome (current_player s) base_reward t sm)
      as (Hb' & Hy & Hn).
    destruct (after_piece (current_player s) base_reward (Some t) sm)
      as [s' r].
    simpl in *. rewrite Hb, Hc in Hy, Hn. exists s', r.
    split; [done|]. split; [congruence|]. split.
    + intros Ho. destruct (Hy Ho) as (-> & -> & ->). done.
    + intros Ho. destruct (Hn Ho) as (-> & ->). done.
Qed.

Lemma mill_grants_capture_witness :
  mill_capture_outcome two_in_row (place_action 2) 2.
Proof.
  apply (mill_grants_capture two_in_row (place_action 2) 2).
  - done.
  - reflexivity.
  - simpl. lia.
  - intros H. discriminate H.
Defined.

(** The mill [0,1,2] closed by player 1 in [two_in_row]: capture owed, the
    player to act is still player 1. *)
Example two_in_row_capture_owed :
  (λ o, match o with
        | Some (s', r) =>
            Some (needs_capture (info r), formed_mill (info r), done r,
                  current_player s')
        | None => None
        end) (step two_in_row (place_action 2))
  = Some (true, true, false, P1).
Proof. reflexivity. Qed.

(** With no opponent piece on the board there is nothing to capture: the
    mill is reported, no capture is owed and the turn passes. *)
Example two_in_row_alone_turn_passes :
  (λ o, match o with
        | Some (s', r) =>
            Some (needs_capture (info r), formed_mill (info r), done r,
                  current_player s')
        | None => None
        end) (step two_in_row_alone (place_action 2))
  = Some (false, true, false, M1).
Proof. reflexivity. Qed.

(** ** The state encoder (C9) *)

Lemma lookup_map {A B} (f : A → B) (l : list A) i :
  map f l !! i = option_map f (l !! i).
Proof. revert i. induction l as [|x l IH]; intros [|i]; simpl; auto. Qed.

Lemma lookup_map_cell (f : Z → Q) (b : list Z) i :
  i < length b → map f b !! i = Some (f (cell b i)).
Proof.
  intros H. rewrite lookup_map, (cell_in_range_lookup b i H). done.
Qed.

Lemma hand_fraction (h : Z) :
  (1 * (inject_Z h / inject_Z PIECES_PER_PLAYER))%Q = (h # 9)%Q.
Proof.
  unfold Qdiv, Qmult, Qinv, inject_Z, PIECES_PER_PLAYER. simpl.
  f_equal. destruct h; simpl; try done; f_equal; lia.
Qed.

(** C9.  On a 24-cell board [get_state] returns 7 layers of 24 entries:
    layer 0 marks the cells of the player to act, layer 1 those of the
    opponent, layers 2, 3, 4 are uniformly 1 or 0 and one-hot for that
    player's phase (placement, movement, flying), layer 5 is uniformly that
    player's in-hand count over 9, layer 6 marks the empty cells.  The call
    leaves the environment unchanged and a second call returns the same
    tensor. *)
Theorem get_state_layers (s : Env) :
  length (board s) = BOARD_POSITIONS → encoder_contract s.
Proof.
  intros Hlen. unfold encoder_contract. split; [done|]. split.
  - intros row Hrow. simpl in Hrow.
    assert (length ones = BOARD_POSITIONS) as Ho by apply length_replicate.
    assert (length zeros = BOARD_POSITIONS) as Hz by apply length_replicate.
    destruct (pget (player_phase s) (current_player s));
      repeat (destruct Hrow as [<-|Hrow]);
      rewrite ?length_map; done.
  - split; [|done]. intros i Hi.
    assert (ones !! i = Some 1%Q) as Ho by by apply lookup_replicate_2.
    assert (zeros !! i = Some 0%Q) as Hz by by apply lookup_replicate_2.
    unfold entry, get_state.
    generalize dependent ones. generalize dependent zeros. intros z Hz o Ho.
    simpl. rewrite !lookup_map_cell by lia. rewrite pval_opp.
    rewrite lookup_map, Ho. simpl. rewrite hand_fraction.
    destruct (pget (player_phase s) (current_player s)); simpl;
      rewrite ?Ho, ?Hz; done.
Qed.

Lemma get_state_layers_witness : encoder_contract two_in_row.
Proof. apply (get_state_layers two_in_row). reflexivity. Defined.

(** The tensor is a function of the board, the player to act, that player's
    phase and that player's hand, and of nothing else. *)
Lemma get_state_depends_on s1 s2 :
  board s1 = board s2 →
  current_player s1 = current_player s2 →
  pget (player_phase s1) (current_player s1)
  = pget (player_phase s2) (current_player s2) →
  pget (pieces_in_hand s1) (current_player s1)
  = pget (pieces_in_hand s2) (current_player s2) →
  get_state s1 = get_state s2.
Proof. intros Hb Hc Hp Hh. unfold get_state. by rewrite Hb, Hp, Hh, Hc. Qed.

(** ** The terminal checks, in one statement *)

Lemma finish_turn_verdict acting r s :
  let s1 := flying_update (phase_transition s) in
  let s' := (finish_turn acting r s).1 in
  let res := (finish_turn acting r s).2 in
  global_phase s' = global_phase s1
  ∧ player_phase s' = player_phase s1
  ∧ ((move_count s > 200)%Z → done res = true ∧ winner s' = Some 0%Z)
  ∧ ((move_count s <= 200)%Z →
       if eliminated acting s1 || negb (has_move s1)
       then done res = true ∧ winner s' = Some (pval acting)
       else done res = false ∧ winner s' = winner s).
Proof.
  simpl.
  pose proof (phase_transition_same s) as H1.
  pose proof (flying_update_same (phase_transition s)) as H2.
  pose proof (same_position_trans _ _ _ H1 H2) as (Hb&Hc&Hh&Ho&Hm&_).
  assert (winner (flying_update (phase_transition s)) = winner s) as Hw.
  { unfold flying_update, phase_transition. simpl.
    repeat case_match; done. }
  unfold finish_turn, eliminated.
  set (s1 := flying_update (phase_transition s)) in *.
  unfold check_elimination.
  destruct (negb (phase_eqb (global_phase s1) placement)) eqn:Eg; simpl.
  - destruct (pget (pieces_on_board s1) (opp acting) <? 3)%Z eqn:Ee; simpl.
    + unfold check_draw. simpl. rewrite Hm.
      destruct (Z.gtb_spec (move_count s) 200); simpl;
        repeat split; try done; lia.
    + unfold check_blockade. simpl.
      destruct (has_move s1) eqn:Eh; simpl; unfold check_draw; simpl;
        rewrite Hm; destruct (Z.gtb_spec (move_count s) 200); simpl;
        repeat split; try done; lia.
  - unfold check_blockade. simpl.
    destruct (has_move s1) eqn:Eh; simpl; unfold check_draw; simpl;
      rewrite Hm; destruct (Z.gtb_spec (move_count s) 200); simpl;
      repeat split; try done; lia.
Qed.

(** ** The move counter (C10) *)

Lemma do_capture_Some s f sm :
  do_capture s (Some f) = Some sm →
  f < length (board s)
  ∧ board sm = <[f := 0%Z]> (board s)
  ∧ current_player sm = opp (current_player s)
  ∧ pieces_on_board sm
    = pset (pieces_on_board s) (opp (current_player s))
           (pget (pieces_on_board s) (opp (current_player s)) - 1)%Z
  ∧ pieces_in_hand sm = pieces_in_hand s
  ∧ move_count sm = (move_count s + 1)%Z
  ∧ global_phase sm = global_phase s
  ∧ player_phase sm = player_phase s.
Proof.
  unfold do_capture, write_at. destruct (write _ _ _) as [b|] eqn:E; [|done].
  apply write_Some in E as [? ->]. by intros [= <-].
Qed.

(** What the three action branches do besides the board write, whatever the
    positions are. *)
Lemma do_capture_frame s f sm :
  do_capture s f = Some sm →
  current_player sm = opp (current_player s)
  ∧ pieces_on_board sm
    = pset (pieces_on_board s) (opp (current_player s))
           (pget (pieces_on_board s) (opp (current_player s)) - 1)%Z
  ∧ pieces_in_hand sm = pieces_in_hand s
  ∧ move_count sm = (move_count s + 1)%Z
  ∧ global_phase sm = global_phase s
  ∧ player_phase sm = player_phase s
  ∧ winner sm = winner s
  ∧ last_capture sm = true
  ∧ last_mill_formed sm = last_mill_formed s.
Proof.
  unfold do_capture. destruct (write_at _ _ _) as [b|]; [|done].
  by intros [= <-].
Qed.

Lemma do_place_frame s t sm :
  do_place s t = Some sm →
  current_player sm = current_player s
  ∧ pieces_in_hand sm
    = pset (pieces_in_hand s) (current_player s)
           (pget (pieces_in_hand s) (current_player s) - 1)%Z
  ∧ pieces_on_board sm
    = pset (pieces_on_board s) (current_player s)
           (pget (pieces_on_board s) (current_player s) + 1)%Z
  ∧ move_count sm = (move_count s + 1)%Z
  ∧ global_phase sm = global_phase s
  ∧ player_phase sm = player_phase s
  ∧ winner sm = winner s
  ∧ last_capture sm = last_capture s
  ∧ last_mill_formed sm = last_mill_formed s.
Proof.
  unfold do_place. destruct (write_at _ _ _) as [b|]; [|done].
  by intros [= <-].
Qed.

Lemma do_move_frame s f t sm :
  do_move s f t = Some sm →
  current_player sm = current_player s
  ∧ pieces_in_hand sm = pieces_in_hand s
  ∧ pieces_on_board sm = pieces_on_board s
  ∧ move_count sm = (move_count s + 1)%Z
  ∧ global_phase sm = global_phase s
  ∧ player_phase sm = player_phase s
  ∧ winner sm = winner s
  ∧ last_capture sm = last_capture s
  ∧ last_mill_formed sm = last_mill_formed s.
Proof.
  unfold do_move. destruct (write_at _ _ _) as [b0|]; [|done].
  destruct (write_at _ _ _) as [b|]; [|done].
  by intros [= <-].
Qed.

Lemma after_piece_move_count acting r t sm :
  move_count (after_piece acting r t sm).1 = move_count sm.
Proof.
  unfold after_piece. repeat case_match; try done.
  - by destruct (finish_turn_same acting (r + (1 # 10))%Q
       (set_current_player (opp (current_player (set_last_mill_formed true sm)))
          (set_last_mill_formed true sm))) as (_&_&_&_&->&_).
  - by destruct (finish_turn_same acting r
       (set_current_player (opp (current_player sm)) sm)) as (_&_&_&_&->&_).
Qed.

Lemma step_move_count s a s' r :
  step s a = Some (s', r) → move_count s' = (move_count s + 1)%Z.
Proof.
  unfold step. intros H. repeat case_match; try done; simplify_eq.
  - match goal with
    | H : after_piece ?p ?q ?t ?sm = _ |- _ =>
        pose proof (after_piece_move_count p q t sm) as Hm; rewrite H in Hm
    end.
    simpl in Hm. rewrite Hm.
    match goal with
    | H : do_place _ _ = Some _ |- _ =>
        apply do_place_frame in H as (_&_&_&->&_)
    end. done.
  - match goal with
    | H : after_piece ?p ?q ?t ?sm = _ |- _ =>
        pose proof (after_piece_move_count p q t sm) as Hm; rewrite H in Hm
    end.
    simpl in Hm. rewrite Hm.
    match goal with
    | H : do_move _ _ _ = Some _ |- _ =>
        apply do_move_frame in H as (_&_&_&->&_)
    end. done.
  - match goal with
    | H : finish_turn ?p ?q ?sm = _ |- _ =>
        pose proof (finish_turn_same p q sm) as (_&_&_&_&Hm&_);
        rewrite H in Hm
    end.
    simpl in Hm. rewrite Hm.
    match goal with
    | H : do_capture _ _ = Some _ |- _ =>
        apply do_capture_frame in H as (_&_&_&->&_)
    end. done.
Qed.

Lemma needs_capture_not_done s a s' r :
  step s a = Some (s', r) → needs_capture (info r) = true → done r = false.
Proof.
  unfold step. intros H Hn. repeat case_match; try done; simplify_eq.
  - match goal with
    | H : after_piece ?p ?q ?t ?sm = _ |- _ =>
        unfold after_piece in H; repeat case_match; simplify_eq; try done;
        match goal with
        | H : finish_turn ?p ?q ?sm = _ |- _ =>
            pose proof (finish_turn_info p q sm) as Hi; rewrite H in Hi;
            simpl in Hi; rewrite Hi in Hn; done
        end
    end.
  - match goal with
    | H : after_piece ?p ?q ?t ?sm = _ |- _ =>
        unfold after_piece in H; repeat case_match; simplify_eq; try done;
        match goal with
        | H : finish_turn ?p ?q ?sm = _ |- _ =>
            pose proof (finish_turn_info p q sm) as Hi; rewrite H in Hi;
            simpl in Hi; rewrite Hi in Hn; done
        end
    end.
  - match goal with
    | H : finish_turn ?p ?q ?sm = _ |- _ =>
        pose proof (finish_turn_info p q sm) as Hi; rewrite H in Hi;
        simpl in Hi; rewrite Hi in Hn; done
    end.
Qed.

Lemma capture_step_draw s c s' r :
  atype c = capture → step s c = Some (s', r) → (move_count s >= 200)%Z →
  done r = true ∧ winner s' = Some 0%Z.
Proof.
  unfold step. intros -> H Hm. repeat case_match; try done; simplify_eq.
  match goal with
  | H : finish_turn ?p ?q ?sm = _, D : do_capture _ _ = Some _ |- _ =>
      pose proof (finish_turn_verdict p q sm) as (_&_&Hd&_);
      rewrite H in Hd; apply do_capture_frame in D as (_&_&_&D&_)
  end.
  simpl in *. apply Hd. lia.
Qed.

(** C10.  A capture raises the move counter by exactly 1, as the placement
    or movement before it did, so a turn that forms a mill and then captures
    adds 2; the half that forms the mill never ends the game, and when such a
    turn starts at 199 the counter passes 200 only on the capture, whose
    step then reports the draw. *)
Theorem capture_counts_toward_limit
    (s : Env) (a c : Action) (s1 s2 : Env) (r1 r2 : StepResult) :
  step s a = Some (s1, r1) →
  needs_capture (info r1) = true →
  atype c = capture →
  step s1 c = Some (s2, r2) →
  capture_half_counts s s1 s2 r1 r2.
Proof.
  intros Ha Hn Hc Hs. unfold capture_half_counts.
  pose proof (step_move_count _ _ _ _ Ha) as H1.
  pose proof (step_move_count _ _ _ _ Hs) as H2.
  pose proof (needs_capture_not_done _ _ _ _ Ha Hn) as Hd.
  split; [done|]. split; [done|]. split; [lia|]. split; [done|].
  intros H199.
  destruct (capture_step_draw s1 c s2 r2 Hc Hs) as [Hdone Hw]; [lia|].
  rewrite H2, H1, H199. done.
Qed.

Lemma capture_counts_toward_limit_witness :
  let s := env_after long_game_draw_before in
  let h1 := step_or_stay s (move_action 4 1) in
  let h2 := step_or_stay h1.1 (capture_action 14) in
  move_count s = 199%Z ∧ capture_half_counts s h1.1 h2.1 h1.2 h2.2.
Proof.
  split; [vm_compute; reflexivity|].
  apply (capture_counts_toward_limit
           (env_after long_game_draw_before) (move_action 4 1)
           (capture_action 14)).
  - vm_compute. reflexivity.
  - vm_compute. reflexivity.
  - reflexivity.
  - vm_compute. reflexivity.
Defined.

(** The same turn inside a legal game: after the 199 actions of
    [long_game_draw_before] the move 4 to 1 closes a mill at count 200 with
    the game still open, and the capture at count 201 ends it in a draw
    although player -1 still has 3 pieces and room to move. *)
Example draw_on_capture_half :
  ∃ ss ss',
    play long_game_draw new_session = Some ss
    ∧ capture_owed ss = true ∧ finished ss = false
    ∧ move_count (env ss) = 200%Z
    ∧ legalb ss (capture_action 14) = true
    ∧ apply ss (capture_action 14) = Some ss'
    ∧ move_count (env ss') = 201%Z
    ∧ pget (pieces_on_board (env ss')) M1 = 3%Z
    ∧ has_move (env ss') = true
    ∧ finished ss' = true ∧ winner (env ss') = Some 0%Z.
Proof.
  eexists. eexists. split; [vm_compute; reflexivity|].
  split; [reflexivity|]. split; [reflexivity|]. split; [reflexivity|].
  split; [vm_compute; reflexivity|].
  split; [vm_compute; reflexivity|].
  vm_compute. repeat split.
Qed.

(** ** Elimination against the move limit (C1, C8) *)

(** C1.  The terminal checks run elimination, blockade, move limit, and the
    last one overrides: at the end of the legal game
    [long_game_elimination] the capture of the piece on 7 leaves player -1
    with 2 pieces outside the placement phase, the counter at 202, and the
    step reports a draw (winner 0) instead of the win of player 1. *)
Theorem draw_overrides_elimination :
  ∃ ss s' r,
    play long_game_elimination new_session = Some ss
    ∧ finished ss = false
    ∧ In (capture_action 7) (legal_set ss)
    ∧ current_player (env ss) = P1
    ∧ step (env ss) (capture_action 7) = Some (s', r)
    ∧ eliminated P1 s' = true
    ∧ (move_count s' >? 200)%Z = true
    ∧ done r = true
    ∧ winner s' = Some 0%Z
    ∧ winner s' ≠ Some (pval P1).
Proof.
  eexists. eexists. eexists.
  split; [vm_compute; reflexivity|].
  split; [reflexivity|].
  split; [vm_compute; auto 10|].
  split; [reflexivity|].
  split; [vm_compute; reflexivity|].
  vm_compute. repeat split. discriminate.
Qed.

(** C8.  A step outside the placement phase that leaves the opponent with 2
    pieces: the capture that ends [long_game_elimination] is taken in the
    movement phase by player 1, player -1 drops from 3 pieces to 2, [done]
    is set, and the winner recorded is 0 (draw), not player 1, because the
    move counter stands at 202. *)
Theorem elimination_lost_to_move_limit :
  let s := env_after long_game_elimination in
  let res := step_or_stay s (capture_action 7) in
  option_map env (play long_game_elimination new_session) = Some s
  ∧ In (capture_action 7) (get_valid_capture_actions s)
  ∧ step s (capture_action 7) = Some res
  ∧ global_phase s = movement
  ∧ current_player s = P1
  ∧ pget (pieces_on_board s) M1 = 3%Z
  ∧ pget (pieces_on_board res.1) M1 = 2%Z
  ∧ move_count res.1 = 202%Z
  ∧ done res.2 = true
  ∧ winner res.1 = Some 0%Z.
Proof. vm_compute. repeat split. auto 10. Qed.

(** Within the move limit the elimination stands: a completed step that
    leaves the opponent below 3 pieces outside the placement phase ends the
    game for the acting player. *)
Lemma elimination_within_limit acting r s :
  (move_count s <= 200)%Z →
  eliminated acting (flying_update (phase_transition s)) = true →
  done (finish_turn acting r s).2 = true
  ∧ winner (finish_turn acting r s).1 = Some (pval acting).
Proof.
  intros Hm He.
  destruct (finish_turn_verdict acting r s) as (_&_&_&Hv).
  specialize (Hv Hm). rewrite He in Hv. done.
Qed.

(** Past the move limit every completed step is a draw. *)
Lemma move_limit_overrides acting r s :
  (move_count s > 200)%Z →
  done (finish_turn acting r s).2 = true
  ∧ winner (finish_turn acting r s).1 = Some 0%Z.
Proof.
  intros Hm. destruct (finish_turn_verdict acting r s) as (_&_&Hv&_). auto.
Qed.

(** ** The shape of a step *)

Lemma after_piece_pieces acting r t sm :
  let s' := (after_piece acting r t sm).1 in
  board s' = board sm
  ∧ pieces_in_hand s' = pieces_in_hand sm
  ∧ pieces_on_board s' = pieces_on_board sm.
Proof.
  simpl. unfold after_piece. repeat case_match; try done.
  - by destruct (finish_turn_same acting (r + (1 # 10))%Q
       (set_current_player (opp (current_player (set_last_mill_formed true sm)))
          (set_last_mill_formed true sm))) as (->&_&->&->&_).
  - by destruct (finish_turn_same acting r
       (set_current_player (opp (current_player sm)) sm)) as (->&_&->&->&_).
Qed.

(** What a step does to the board and to the piece counters. *)
Lemma step_pieces s a s' r :
  step s a = Some (s', r) →
  positions_given a →
  let cur := current_player s in
  match atype a with
  | place =>
      ∃ t, to_pos a = Some t ∧ t < length (board s)
           ∧ board s' = <[t := pval cur]> (board s)
           ∧ pieces_in_hand s'
             = pset (pieces_in_hand s) cur (pget (pieces_in_hand s) cur - 1)%Z
           ∧ pieces_on_board s'
             = pset (pieces_on_board s) cur
                    (pget (pieces_on_board s) cur + 1)%Z
  | move =>
      ∃ f t, from_pos a = Some f ∧ to_pos a = Some t
             ∧ f < length (board s) ∧ t < length (board s)
             ∧ board s' = <[t := pval cur]> (<[f := 0%Z]> (board s))
             ∧ pieces_in_hand s' = pieces_in_hand s
             ∧ pieces_on_board s' = pieces_on_board s
  | capture =>
      ∃ f, from_pos a = Some f ∧ f < length (board s)
           ∧ board s' = <[f := 0%Z]> (board s)
           ∧ pieces_in_hand s' = pieces_in_hand s
           ∧ pieces_on_board s'
             = pset (pieces_on_board s) (opp cur)
                    (pget (pieces_on_board s) (opp cur) - 1)%Z
  end.
Proof.
  unfold step, positions_given. intros H Hg. simpl.
  destruct (atype a).
  - destruct (to_pos a) as [t|]; [|done]. exists t.
    destruct (do_place _ (Some t)) as [sm|] eqn:E; [|done]. injection H as H.
    pose proof (after_piece_pieces (current_player s) base_reward (Some t) sm)
      as (Hb & Hh & Ho).
    rewrite H in Hb, Hh, Ho. simpl in Hb, Hh, Ho.
    apply do_place_Some in E as Hm. destruct Hm as (Ht & Hbm & _).
    apply do_place_frame in E as (_ & Hhm & Hom & _).
    simpl in *. rewrite Hb, Hh, Ho, Hbm, Hhm, Hom. done.
  - destruct Hg as [Hgf Hgt].
    destruct (from_pos a) as [f|]; [|done].
    destruct (to_pos a) as [t|]; [|done]. exists f, t.
    destruct (do_move _ (Some f) (Some t)) as [sm|] eqn:E; [|done].
    injection H as H.
    pose proof (after_piece_pieces (current_player s) base_reward (Some t) sm)
      as (Hb & Hh & Ho).
    rewrite H in Hb, Hh, Ho. simpl in Hb, Hh, Ho.
    apply do_move_Some in E as Hm. destruct Hm as (Hf & Ht & Hbm & _).
    apply do_move_frame in E as (_ & Hhm & Hom & _).
    simpl in *. rewrite Hb, Hh, Ho, Hbm, Hhm, Hom. done.
  - destruct (from_pos a) as [f|]; [|done]. exists f.
    destruct (do_capture _ (Some f)) as [sm|] eqn:E; [|done].
    injection H as H.
    pose proof (finish_turn_same (current_player s)
                  (base_reward + (5 # 100))%Q sm) as (Hb&_&Hh&Ho&_).
    rewrite H in Hb, Hh, Ho. simpl in Hb, Hh, Ho.
    apply do_capture_Some in E as (Hf & Hbm & _ & Hom & Hhm & _).
    simpl in *. rewrite Hb, Hh, Ho, Hbm, Hom, Hhm. done.
Qed.

(** A step on in-range positions returns. *)
Lemma step_total s a :
  match atype a with
  | place => ∃ t, to_pos a = Some t ∧ t < length (board s)
  | move => ∃ f t, from_pos a = Some f ∧ to_pos a = Some t
                   ∧ f < length (board s) ∧ t < length (board s)
  | capture => ∃ f, from_pos a = Some f ∧ f < length (board s)
  end →
  ∃ s' r, step s a = Some (s', r).
Proof.
  unfold step.
  set (s0 := set_last_capture false (set_last_mill_formed false s)).
  destruct (atype a).
  - intros (t & -> & Ht). destruct (do_place_total s0 t Ht) as [sm ->].
    destruct (after_piece _ _ _ _). eauto.
  - intros (f & t & -> & -> & Hf & Ht).
    destruct (do_move_total s0 f t Hf Ht) as [sm ->].
    destruct (after_piece _ _ _ _). eauto.
  - intros (f & -> & Hf). unfold do_capture, write_at, write. simpl.
    destruct (Nat.ltb_spec f (length (board s))); [|lia].
    destruct (finish_turn _ _ _). eauto.
Qed.

(** A step that does not ask for a capture went through the end of the
    turn, with the opponent to move. *)
Lemma step_completed s a s' r :
  step s a = Some (s', r) →
  needs_capture (info r) = false →
  ∃ r0 sm,
    finish_turn (current_player s) r0 sm = (s', r)
    ∧ current_player sm = opp (current_player s)
    ∧ move_count sm = (move_count s + 1)%Z
    ∧ global_phase sm = global_phase s
    ∧ player_phase sm = player_phase s.
Proof.
  unfold step. intros H Hn.
  destruct (atype a).
  - destruct (do_place _ (to_pos a)) as [sm|] eqn:E; [|done].
    injection H as H.
    apply do_place_frame in E as (Hc & _ & _ & Hm & Hg & Hp & _).
    simpl in Hc, Hm, Hg, Hp.
    unfold after_piece in H. repeat case_match; simplify_eq; try done;
      eexists _, _; (split; [eassumption|]); simpl;
      rewrite Hc, Hm, Hg, Hp; done.
  - destruct (do_move _ (from_pos a) (to_pos a)) as [sm|] eqn:E; [|done].
    injection H as H.
    apply do_move_frame in E as (Hc & _ & _ & Hm & Hg & Hp & _).
    simpl in Hc, Hm, Hg, Hp.
    unfold after_piece in H. repeat case_match; simplify_eq; try done;
      eexists _, _; (split; [eassumption|]); simpl;
      rewrite Hc, Hm, Hg, Hp; done.
  - destruct (do_capture _ (from_pos a)) as [sm|] eqn:E; [|done].
    injection H as H.
    apply do_capture_frame in E as (Hc&_&_&Hm&Hg&Hp&_).
    eexists _, _. split; [eassumption|]. done.
Qed.

(** A step that asks for a capture returned early: phases, counters of
    pieces and the player to act are those of the action branch. *)
Lemma step_capture_owed s a s' r :
  step s a = Some (s', r) →
  needs_capture (info r) = true →
  atype a ≠ capture
  ∧ current_player s' = current_player s
  ∧ global_phase s' = global_phase s
  ∧ player_phase s' = player_phase s
  ∧ winner s' = winner s
  ∧ done r = false.
Proof.
  unfold step. intros H Hn.
  destruct (atype a).
  - destruct (do_place _ (to_pos a)) as [sm|] eqn:E; [|done].
    injection H as H.
    apply do_place_frame in E as (Hc & _ & _ & _ & Hg & Hp & Hw & _).
    simpl in Hc, Hg, Hp, Hw.
    unfold after_piece in H. repeat case_match; simplify_eq; try done;
      match goal with
      | H : finish_turn ?p ?q ?sm = _ |- _ =>
          pose proof (finish_turn_info p q sm) as Hi; rewrite H in Hi;
          simpl in Hi; rewrite Hi in Hn; done
      end.
  - destruct (do_move _ (from_pos a) (to_pos a)) as [sm|] eqn:E; [|done].
    injection H as H.
    apply do_move_frame in E as (Hc & _ & _ & _ & Hg & Hp & Hw & _).
    simpl in Hc, Hg, Hp, Hw.
    unfold after_piece in H. repeat case_match; simplify_eq; try done;
      match goal with
      | H : finish_turn ?p ?q ?sm = _ |- _ =>
          pose proof (finish_turn_info p q sm) as Hi; rewrite H in Hi;
          simpl in Hi; rewrite Hi in Hn; done
      end.
  - destruct (do_capture _ (from_pos a)) as [sm|] eqn:E; [|done].
    injection H as H.
    pose proof (finish_turn_info (current_player s)
                  (base_reward + (5 # 100))%Q sm) as Hi.
    rewrite H in Hi. simpl in Hi. rewrite Hi in Hn. done.
Qed.

(** ** Piece conservation (C5) *)

Lemma legal_shape ss a :
  legal ss a →
  let e := env ss in
  match atype a with
  | place =>
      ∃ t, a = place_action t ∧ t < BOARD_POSITIONS ∧ cell (board e) t = 0%Z
           ∧ (0 < pget (pieces_in_hand e) (current_player e))%Z
  | move =>
      ∃ f t, a = move_action f t ∧ f < BOARD_POSITIONS ∧ t < BOARD_POSITIONS
             ∧ cell (board e) f = pval (current_player e)
             ∧ cell (board e) t = 0%Z
  | capture =>
      ∃ f, a = capture_action f ∧ f < BOARD_POSITIONS
           ∧ cell (board e) f = pval (opp (current_player e))
  end.
Proof.
  intros [_ Hin]. unfold legal_set in Hin. simpl.
  destruct (capture_owed ss).
  - apply in_get_valid_capture_actions in Hin as (f & Hf & Hc & _ & ->).
    simpl. exists f. by rewrite pval_opp.
  - apply in_get_valid_actions in Hin.
    destruct (pget (player_phase (env ss)) (current_player (env ss))).
    + destruct Hin as (Hh & t & Ht & Hc & ->). simpl. by exists t.
    + destruct Hin as (f & t & Hf & Hcf & Hadj & Hct & ->). simpl.
      exists f, t. repeat split; try done.
      by apply (ADJACENCY_in_range f).
    + destruct Hin as (f & t & Hf & Hcf & Ht & Hct & ->). simpl.
      by exists f, t.
Qed.

Lemma apply_Some ss a ss' :
  apply ss a = Some ss' →
  ∃ r, step (env ss) a = Some (env ss', r)
       ∧ capture_owed ss' = needs_capture (info r)
       ∧ finished ss' = done r
       ∧ captured ss' = note_capture ss a.
Proof.
  unfold apply. destruct (step (env ss) a) as [[e r]|]; [|done].
  intros [= <-]. by exists r.
Qed.

Lemma legal_positions_given ss a : legal ss a → positions_given a.
Proof.
  intros Hl. pose proof (legal_shape ss a Hl) as Hs. simpl in Hs.
  unfold positions_given. destruct (atype a).
  - by destruct Hs as (t & -> & _).
  - by destruct Hs as (f & t & -> & _).
  - by destruct Hs as (f & -> & _).
Qed.

Lemma legal_apply_total ss a :
  length (board (env ss)) = BOARD_POSITIONS → legal ss a →
  ∃ ss', apply ss a = Some ss'.
Proof.
  intros Hlen Hl. pose proof (legal_shape ss a Hl) as Hs. simpl in Hs.
  destruct (step_total (env ss) a) as (s' & r & Hstep).
  - destruct (atype a).
    + destruct Hs as (t & -> & Ht & _). exists t. simpl. split; [done|lia].
    + destruct Hs as (f & t & -> & Hf & Ht & _). exists f, t. simpl.
      repeat split; try done; lia.
    + destruct Hs as (f & -> & Hf & _). exists f. simpl. split; [done|lia].
  - unfold apply. rewrite Hstep. eauto.
Qed.

Lemma count_cells_write_empty x (b : list Z) t v :
  t < length b → cell b t = 0%Z → v ≠ 0%Z →
  count_cells x (<[t := v]> b)
  = (count_cells x b + (if (v =? x)%Z then 1 else 0)
     - (if (0 =? x)%Z then 1 else 0))%Z.
Proof.
  intros Ht Hc Hv.
  rewrite (count_cells_insert x b t v 0%Z).
  - lia.
  - rewrite <- Hc. by apply cell_in_range_lookup.
Qed.

Lemma count_cells_clear x (b : list Z) f old :
  f < length b → cell b f = old →
  count_cells x (<[f := 0%Z]> b)
  = (count_cells x b - (if (old =? x)%Z then 1 else 0)
     + (if (0 =? x)%Z then 1 else 0))%Z.
Proof.
  intros Hf Hc. apply count_cells_insert.
  rewrite <- Hc. by apply cell_in_range_lookup.
Qed.

(** One legal action, seen on the books. *)
Lemma legal_step_effect ss a ss' :
  length (board (env ss)) = BOARD_POSITIONS →
  legal ss a → apply ss a = Some ss' →
  length (board (env ss')) = BOARD_POSITIONS
  ∧ piece_effect ss a ss'
  ∧ (∀ p, (pget (pieces_on_board (env ss')) p
           - pget (pieces_on_board (env ss)) p
           = count_cells (pval p) (board (env ss'))
             - count_cells (pval p) (board (env ss)))%Z).
Proof.
  intros Hlen Hl Ha.
  pose proof (legal_shape ss a Hl) as Hs. simpl in Hs.
  apply apply_Some in Ha as (r & Hstep & _ & _ & Hcap).
  pose proof (step_pieces _ _ _ _ Hstep (legal_positions_given _ _ Hl))
    as Hp.
  simpl in Hp.
  unfold piece_effect, delta, note_capture in *. rewrite Hcap.
  destruct (atype a).
  - destruct Hs as (t & -> & Ht & Hc & Hh).
    destruct Hp as (t' & [= <-] & _ & -> & -> & ->).
    rewrite length_insert.
    assert (t < length (board (env ss))) as Ht' by lia.
    assert (∀ x, count_cells x (<[t := pval (current_player (env ss))]>
                                  (board (env ss)))
                 = (count_cells x (board (env ss))
                    + (if (pval (current_player (env ss)) =? x)%Z
                       then 1 else 0)
                    - (if (0 =? x)%Z then 1 else 0))%Z) as Hcount.
    { intros x. apply count_cells_write_empty; try done. apply pval_nonzero. }
    split; [done|]. split; [|intros p]; rewrite !Hcount;
      destruct (current_player (env ss)); try destruct p; simpl;
      repeat split; lia.
  - destruct Hs as (f & t & -> & Hf & Ht & Hcf & Hct).
    destruct Hp as (f' & t' & [= <-] & [= <-] & _ & _ & -> & -> & ->).
    rewrite !length_insert.
    assert (f < length (board (env ss))) as Hf' by lia.
    assert (t < length (board (env ss))) as Ht' by lia.
    assert (f ≠ t) as Hne.
    { intros ->. rewrite Hct in Hcf.
      by destruct (current_player (env ss)). }
    assert (∀ x, count_cells x (<[t := pval (current_player (env ss))]>
                                  (<[f := 0%Z]> (board (env ss))))
                 = count_cells x (board (env ss))) as Hcount.
    { intros x. rewrite count_cells_write_empty.
      - rewrite (count_cells_clear x _ f _ Hf' Hcf). lia.
      - by rewrite length_insert.
      - by rewrite cell_insert_ne.
      - apply pval_nonzero. }
    split; [done|]. split; [|intros p]; rewrite !Hcount;
      repeat split; lia.
  - destruct Hs as (f & -> & Hf & Hcf).
    destruct Hp as (f' & [= <-] & _ & -> & -> & ->).
    rewrite length_insert.
    assert (f < length (board (env ss))) as Hf' by lia.
    assert (∀ x, count_cells x (<[f := 0%Z]> (board (env ss)))
                 = (count_cells x (board (env ss))
                    - (if (pval (opp (current_player (env ss))) =? x)%Z
                       then 1 else 0)
                    + (if (0 =? x)%Z then 1 else 0))%Z) as Hcount.
    { intros x. by apply count_cells_clear. }
    split; [done|]. split; [|intros p]; rewrite !Hcount;
      destruct (current_player (env ss)); try destruct p; simpl;
      repeat split; lia.
Qed.

Lemma balanced_new p : balanced new_session p.
Proof.
  destruct p; unfold balanced; simpl; unfold PIECES_PER_PLAYER;
    repeat split; lia.
Qed.

Lemma balanced_step ss a ss' :
  length (board (env ss)) = BOARD_POSITIONS →
  legal ss a → apply ss a = Some ss' →
  (∀ p, balanced ss p) → ∀ p, balanced ss' p.
Proof.
  intros Hlen Hl Ha Hb p.
  destruct (legal_step_effect ss a ss' Hlen Hl Ha) as (_ & He & Ho).
  pose proof (legal_shape ss a Hl) as Hs. simpl in Hs.
  specialize (Ho p).
  pose proof (Hb p) as (Hsum & Hob & Hh & Hc).
  pose proof (Hb (current_player (env ss))) as (_ & _ & Hh' & _).
  unfold balanced, piece_effect, delta in *.
  destruct (atype a).
  - destruct Hs as (t & _ & _ & _ & Hpos).
    destruct He as ((E1 & E2 & E3) & (E4 & E5 & E6)).
    destruct (current_player (env ss)), p; simpl in *; repeat split; lia.
  - destruct He as ((E1 & E2 & E3) & (E4 & E5 & E6)).
    destruct (current_player (env ss)), p; simpl in *; repeat split; lia.
  - destruct He as ((E1 & E2 & E3) & (E4 & E5 & E6)).
    destruct (current_player (env ss)), p; simpl in *; repeat split; lia.
Qed.

Lemma reachable_balanced ss :
  reachable ss →
  length (board (env ss)) = BOARD_POSITIONS ∧ ∀ p, balanced ss p.
Proof.
  induction 1 as [|ss a ss' Hr [Hlen Hb] Hl Ha].
  - split; [done|]. apply balanced_new.
  - split.
    + by destruct (legal_step_effect ss a ss' Hlen Hl Ha) as (? & _).
    + by apply (balanced_step ss a ss').
Qed.

(** C5.  In every session reached from a fresh one by legal actions, for
    each player the pieces in hand, the pieces on the board (counted on the
    board, and equal to the on-board counter) and the pieces captured by the
    opponent add up to 9; every legal action is accepted, a placement moves
    exactly one piece of the acting player from hand to board, a capture
    removes exactly one piece of the opponent from the board, and nothing
    else changes the numbers. *)
Theorem piece_conservation (ss : Session) :
  reachable ss → conservation ss.
Proof.
  intros Hr. destruct (reachable_balanced ss Hr) as [Hlen Hb].
  split; [done|]. split; [done|].
  intros a Hl. destruct (legal_apply_total ss a Hlen Hl) as [ss' Ha].
  exists ss'. split; [done|].
  by destruct (legal_step_effect ss a ss' Hlen Hl Ha) as (_ & ? & _).
Qed.

Lemma legalb_legal ss a : legalb ss a = true → legal ss a.
Proof.
  unfold legalb, legal. intros [Hf Hin]%andb_true_iff. split.
  - by destruct (finished ss).
  - apply existsb_exists in Hin as (x & Hx & Heq).
    apply bool_decide_eq_true in Heq. by subst.
Qed.

Lemma play_reachable acts ss ss' :
  reachable ss → play acts ss = Some ss' → reachable ss'.
Proof.
  revert ss. induction acts as [|a acts IH]; intros ss Hr; simpl.
  - by intros [= <-].
  - destruct (legalb ss a) eqn:El; [|done].
    destruct (apply ss a) as [ss1|] eqn:Ea; [|done].
    apply IH. eapply reachable_step; eauto using legalb_legal.
Qed.

Lemma piece_conservation_witness :
  conservation (session_after long_game_draw).
Proof.
  apply (piece_conservation (session_after long_game_draw)).
  apply (play_reachable long_game_draw new_session).
  - apply reachable_new.
  - vm_compute. reflexivity.
Defined.

(** ** Phase monotonicity (C7) *)

Lemma leaves_placement_spec s :
  leaves_placement s = true ↔ global_phase s = placement ∧ hands_empty s.
Proof.
  unfold leaves_placement, hands_empty.
  rewrite !andb_true_iff, phase_eqb_eq, !Z.eqb_eq. done.
Qed.

Lemma phase_transition_phases s :
  global_phase (phase_transition s)
  = (if leaves_placement s then movement else global_phase s)
  ∧ player_phase (phase_transition s)
    = (if leaves_placement s then mkPer movement movement
       else player_phase s).
Proof.
  unfold phase_transition, leaves_placement.
  destruct (phase_eqb (global_phase s) placement); simpl.
  - destruct ((for_p1 (pieces_in_hand s) =? 0)%Z
              && (for_m1 (pieces_in_hand s) =? 0)%Z); split; reflexivity.
  - split; reflexivity.
Qed.

Lemma flying_update_phases s :
  global_phase (flying_update s) = global_phase s
  ∧ ∀ p, pget (player_phase (flying_update s)) p
         = if phase_eqb (global_phase s) movement
              && (pget (pieces_on_board s) p =? 3)%Z
           then flying else pget (player_phase s) p.
Proof.
  unfold flying_update.
  destruct (phase_eqb (global_phase s) movement); simpl.
  - split.
    + repeat case_match; reflexivity.
    + intros p. destruct p; simpl; repeat case_match; simpl in *; congruence.
  - split; reflexivity.
Qed.


(** Phases after the end-of-turn updates. *)
Lemma end_of_turn_phases s :
  phases_coherent s →
  let s1 := flying_update (phase_transition s) in
  phases_coherent s1
  ∧ (global_phase s = movement → global_phase s1 = movement)
  ∧ (∀ p, pget (player_phase s) p = flying → pget (player_phase s1) p = flying)
  ∧ (global_phase s = placement →
     (global_phase s1 = movement ↔ hands_empty s)).
Proof.
  intros [Hfly Hg]. simpl.
  destruct (phase_transition_phases s) as [Hg1 Hp1].
  destruct (flying_update_phases (phase_transition s)) as [Hg2 Hp2].
  unfold phases_coherent. rewrite Hg2.
  destruct (leaves_placement s) eqn:Ego.
  - apply leaves_placement_spec in Ego as [Eg Hh].
    assert (∀ p, pget (player_phase s) p ≠ flying) as Hno.
    { intros p Hp. specialize (Hfly p Hp). congruence. }
    rewrite Hg1. split; [split; [done|done]|]. split; [done|]. split.
    + intros p Hp. by destruct (Hno p).
    + done.
  - rewrite Hg1.
    assert (¬ (global_phase s = placement ∧ hands_empty s)) as Hnot.
    { rewrite <- leaves_placement_spec. congruence. }
    assert (∀ p, pget (player_phase (flying_update (phase_transition s))) p
                 = if phase_eqb (global_phase s) movement
                      && (pget (pieces_on_board (phase_transition s)) p =? 3)%Z
                   then flying else pget (player_phase s) p) as Hp3.
    { intros p. by rewrite Hp2, Hg1, Hp1. }
    split; [split; [|done]|]; [|split; [done|split]].
    + intros p. rewrite Hp3.
      destruct (phase_eqb (global_phase s) movement) eqn:Em; simpl.
      * intros _. by apply phase_eqb_eq.
      * apply Hfly.
    + intros p Hp. rewrite Hp3, Hp. by destruct (_ && _).
    + intros Eg. split; [congruence|]. intros Hh. by destruct Hnot.
Qed.

Lemma step_phases s a s' r :
  phases_coherent s → step s a = Some (s', r) →
  phases_coherent s'
  ∧ (global_phase s = movement → global_phase s' = movement)
  ∧ (∀ p, pget (player_phase s) p = flying → pget (player_phase s') p = flying)
  ∧ (global_phase s = placement →
     (global_phase s' = movement
      ↔ needs_capture (info r) = false ∧ hands_empty s')).
Proof.
  intros Hco Hstep. destruct (needs_capture (info r)) eqn:En.
  - destruct (step_capture_owed _ _ _ _ Hstep En) as (_ & _ & Hg & Hp & _).
    unfold phases_coherent in *. rewrite Hg, Hp.
    split; [done|]. split; [done|]. split; [done|].
    intros Eg. split; [congruence|]. intros [? _]. done.
  - destruct (step_completed _ _ _ _ Hstep En) as (r0 & sm & Hf & _ & _ & Hg & Hp).
    assert (phases_coherent sm) as Hcm.
    { unfold phases_coherent in *. by rewrite Hg, Hp. }
    destruct (end_of_turn_phases sm Hcm) as (Hc1 & Hmv & Hfl & Htr).
    destruct (finish_turn_verdict (current_player s) r0 sm) as (Hg' & Hp' & _).
    pose proof (finish_turn_same (current_player s) r0 sm) as (_&_&Hh&_).
    rewrite Hf in Hg', Hp', Hh. simpl in Hg', Hp', Hh.
    unfold phases_coherent, hands_empty in *.
    rewrite Hg', Hp', Hh. rewrite Hg, Hp in *.
    split; [done|]. split; [done|]. split; [done|].
    intros Eg. rewrite (Htr Eg). tauto.
Qed.

Lemma reachable_phases ss : reachable ss → phases_coherent (env ss).
Proof.
  induction 1 as [|ss a ss' Hr IH Hl Ha].
  - split; [|done]. by intros [|].
  - apply apply_Some in Ha as (r & Hstep & _).
    by destruct (step_phases _ _ _ _ IH Hstep) as (? & _).
Qed.

(** C7, as the code has it.  From any session reached from a fresh one, a
    step keeps a global phase of movement, keeps every flying phase, and
    takes the global phase from placement to movement exactly when it
    completes a turn (leaves no capture owed) and leaves both hands empty:
    the first such step is the only transition. *)
Theorem phase_monotone (ss : Session) (a : Action) (ss' : Session) :
  reachable ss → apply ss a = Some ss' → phase_progress ss ss'.
Proof.
  intros Hr Ha. pose proof (reachable_phases ss Hr) as Hco.
  apply apply_Some in Ha as (r & Hstep & Ho & _).
  destruct (step_phases _ _ _ _ Hco Hstep) as (_ & Hmv & Hfl & Htr).
  unfold phase_progress. rewrite Ho. done.
Qed.

Lemma phase_monotone_witness :
  phase_progress (session_after opening_with_last_mill)
                 (session_after (opening_with_last_mill ++ [capture_action 0])).
Proof.
  apply (phase_monotone (session_after opening_with_last_mill)
                        (capture_action 0)).
  - apply (play_reachable opening_with_last_mill new_session).
    + apply reachable_new.
    + vm_compute. reflexivity.
  - vm_compute. reflexivity.
Defined.

(** Along a replayed game neither the global movement phase nor a flying
    phase is ever left. *)
Lemma phases_never_revert acts ss ss' :
  reachable ss → play acts ss = Some ss' →
  (global_phase (env ss) = movement → global_phase (env ss') = movement)
  ∧ (∀ p, pget (player_phase (env ss)) p = flying
          → pget (player_phase (env ss')) p = flying).
Proof.
  revert ss. induction acts as [|a acts IH]; intros ss Hr; simpl.
  - by intros [= <-].
  - destruct (legalb ss a) eqn:El; [|done].
    destruct (apply ss a) as [ss1|] eqn:Ea; [|done]. intros Hp.
    pose proof Ea as Ea'. apply apply_Some in Ea' as (r & Hstep & _).
    destruct (step_phases _ _ _ _ (reachable_phases ss Hr) Hstep)
      as (_ & Hmv & Hfl & _).
    assert (reachable ss1) as Hr1
      by (eapply reachable_step; eauto using legalb_legal).
    destruct (IH ss1 Hr1 Hp) as [Hmv' Hfl']. split; auto.
Qed.

(** C7, as stated, fails: the 18th placement of [opening_with_last_mill]
    is the first step after which both hands are empty, it closes the mill
    [9,10,11] and returns with a capture owed, and the global phase is still
    placement; it becomes movement on the capture that follows. *)
Lemma transition_waits_for_capture :
  ∃ ss0 ss1 ss2,
    play opening_before_last_mill new_session = Some ss0
    ∧ pget (pieces_in_hand (env ss0)) M1 = 1%Z
    ∧ legalb ss0 (place_action 11) = true
    ∧ apply ss0 (place_action 11) = Some ss1
    ∧ hands_empty (env ss1)
    ∧ global_phase (env ss1) = placement
    ∧ capture_owed ss1 = true
    ∧ legalb ss1 (capture_action 0) = true
    ∧ apply ss1 (capture_action 0) = Some ss2
    ∧ global_phase (env ss2) = movement.
Proof.
  eexists. eexists. eexists.
  split; [vm_compute; reflexivity|].
  split; [reflexivity|].
  split; [vm_compute; reflexivity|].
  split; [vm_compute; reflexivity|].
  split; [split; reflexivity|].
  split; [reflexivity|].
  split; [reflexivity|].
  split; [vm_compute; reflexivity|].
  split; [vm_compute; reflexivity|].
  reflexivity.
Qed.

(** ** The blockade check *)

Lemma existsb_false {A} (f : A → bool) (l : list A) :
  existsb f l = false ↔ ∀ x, In x l → f x = false.
Proof.
  induction l as [|y l IH]; simpl.
  - split; [intros _ x []|done].
  - rewrite orb_false_iff, IH. split.
    + intros [Hy Hl] x [<-|Hx]; auto.
    + intros H. split; [apply H; by left|]. intros x Hx. apply H. by right.
Qed.

Lemma no_empty_cell (b : list Z) :
  existsb (λ c, (c =? 0)%Z) b = false ↔ board_full b.
Proof.
  rewrite existsb_false. unfold board_full.
  split; intros H c Hc; specialize (H c Hc); by apply Z.eqb_neq.
Qed.

Lemma has_move_blocked s : has_move s = false ↔ blocked s.
Proof.
  unfold has_move, blocked.
  destruct (pget (player_phase s) (current_player s)).
  - rewrite andb_false_iff, no_empty_cell, Z.ltb_ge. done.
  - rewrite existsb_false. split.
    + intros H f t Hf Hc Ht. specialize (H f).
      rewrite Hc, Z.eqb_refl in H. simpl in H.
      assert (In f (seq 0 BOARD_POSITIONS)) as Hin by (apply in_seq; lia).
      specialize (H Hin). rewrite existsb_false in H.
      by apply Z.eqb_neq, H.
    + intros H f Hf%in_seq.
      destruct (Z.eqb_spec (cell (board s) f) (pval (current_player s)));
        [|done].
      simpl. apply existsb_false. intros t Ht. apply Z.eqb_neq.
      apply (H f t); [lia|done|done].
  - apply no_empty_cell.
Qed.

Lemma board_full_cells (b : list Z) :
  board_full b ↔ ∀ i, i < length b → cell b i ≠ 0%Z.
Proof.
  unfold board_full. split.
  - intros H i Hi. apply H, list_elem_of_In, list_elem_of_lookup.
    exists i. by apply cell_in_range_lookup.
  - intros H c Hc%list_elem_of_In%list_elem_of_lookup.
    destruct Hc as [i Hi]. rewrite <- (cell_lookup b i c Hi).
    apply H. by eapply lookup_lt_Some.
Qed.

Lemma nil_no_member {A} (l : list A) : l = [] ↔ ∀ x, ¬ In x l.
Proof.
  split; [intros -> x []|]. destruct l as [|x l]; [done|].
  intros H. destruct (H x). by left.
Qed.

Lemma blocked_no_actions s :
  length (board s) = BOARD_POSITIONS → flyer_has_piece s →
  (blocked s ↔ get_valid_actions s = []).
Proof.
  intros Hlen Hfly. rewrite nil_no_member.
  unfold blocked, flyer_has_piece in *.
  split.
  - intros Hb a Ha%in_get_valid_actions.
    destruct (pget (player_phase s) (current_player s)).
    + destruct Ha as (Hh & t & Ht & Hc & _).
      destruct Hb as [Hfull|Hh']; [|lia].
      apply (proj1 (board_full_cells _) Hfull t); [lia|done].
    + destruct Ha as (f & t & Hf & Hcf & Ht & Hct & _).
      by apply (Hb f t).
    + destruct Ha as (f & t & Hf & Hcf & Ht & Hct & _).
      apply (proj1 (board_full_cells _) Hb t); [lia|done].
  - intros Hno.
    assert (∀ a, ¬ In a (get_valid_actions s)) as Hno' by done.
    clear Hno. setoid_rewrite in_get_valid_actions in Hno'.
    destruct (pget (player_phase s) (current_player s)).
    + destruct (Z_lt_le_dec 0 (pget (pieces_in_hand s) (current_player s)))
        as [Hpos|Hle]; [left|by right].
      apply board_full_cells. intros i Hi Hc.
      apply (Hno' (place_action i)). split; [done|]. exists i.
      repeat split; [lia|done].
    + intros f t Hf Hcf Ht Hct. apply (Hno' (move_action f t)).
      by exists f, t.
    + destruct (Hfly eq_refl) as (f & Hf & Hcf).
      apply board_full_cells. intros i Hi Hc.
      apply (Hno' (move_action f i)). exists f, i.
      repeat split; try done. lia.
Qed.

Lemma has_move_same s s' :
  same_position s s' → player_phase s' = player_phase s →
  has_move s' = has_move s.
Proof.
  intros (Hb & Hc & Hh & _) Hp. unfold has_move. by rewrite Hb, Hc, Hh, Hp.
Qed.

(** The blockade check on any state.  On a step that completes a turn
    within the move limit and does not eliminate, [done] is set exactly when
    [has_move] fails for the player about to move, and then the acting
    player is the winner; on a 24-cell board, for a flying player who has a
    piece, [has_move] fails exactly when there is no legal action. *)
Lemma completed_step_blockade
    (s : Env) (a : Action) (s' : Env) (r : StepResult) :
  step s a = Some (s', r) →
  needs_capture (info r) = false →
  (move_count s' <= 200)%Z →
  eliminated (current_player s) s' = false →
  blockade_contract s s' r.
Proof.
  intros Hstep Hn Hm He.
  destruct (step_completed _ _ _ _ Hstep Hn) as (r0 & sm & Hf & _).
  destruct (finish_turn_verdict (current_player s) r0 sm)
    as (Hg & Hp & _ & Hv).
  pose proof (finish_turn_same (current_player s) r0 sm) as Hsame.
  rewrite Hf in Hg, Hp, Hv, Hsame. simpl in Hg, Hp, Hv, Hsame.
  assert (same_position (flying_update (phase_transition sm)) s') as Hs1.
  { pose proof (same_position_trans _ _ _ (phase_transition_same sm)
                  (flying_update_same (phase_transition sm))) as H1.
    destruct H1 as (A1&A2&A3&A4&A5&A6&A7).
    destruct Hsame as (B1&B2&B3&B4&B5&B6&B7).
    repeat split; congruence. }
  set (s1 := flying_update (phase_transition sm)) in *.
  assert (has_move s' = has_move s1) as Hhm by by apply has_move_same.
  assert (eliminated (current_player s) s1 = false) as He1.
  { unfold eliminated in *. destruct Hs1 as (_&_&_&Ho&_).
    by rewrite <- Hg, <- Ho. }
  assert (move_count sm <= 200)%Z as Hm'.
  { destruct Hsame as (_&_&_&_&<-&_). done. }
  specialize (Hv Hm'). rewrite He1, <- Hhm in Hv. simpl in Hv.
  assert (done r = true ↔ blocked s') as Hdone.
  { rewrite <- has_move_blocked.
    destruct (has_move s'); simpl in Hv; destruct Hv as [-> _]; done. }
  assert (blocked s' → winner s' = Some (pval (current_player s))) as Hwin.
  { intros Hb%has_move_blocked. rewrite Hb in Hv. by destruct Hv. }
  unfold blockade_contract. split; [done|]. split; [done|]. split.
  - intros Hph Hh.
    assert (blocked s') as Hb.
    { unfold blocked. rewrite Hph. right. lia. }
    split; [by apply Hdone|by apply Hwin].
  - apply blocked_no_actions.
Qed.

(** ** Legal play never blocks a player in the placement phase *)

Lemma end_of_turn_player_phase s p :
  pget (player_phase (flying_update (phase_transition s))) p
  = if phase_eqb (global_phase (flying_update (phase_transition s))) movement
       && (pget (pieces_on_board s) p =? 3)%Z
    then flying
    else if leaves_placement s then movement else pget (player_phase s) p.
Proof.
  destruct (phase_transition_phases s) as [Hg1 Hp1].
  destruct (flying_update_phases (phase_transition s)) as [Hg2 Hp2].
  destruct (phase_transition_same s) as (_&_&_&Ho&_).
  rewrite Hp2, Hg2, Hp1, Ho.
  destruct (leaves_placement s); by destruct p.
Qed.

(** The two ways a step ends, with what each leaves of players, phases and
    hands. *)
Lemma step_summary s a s' r :
  step s a = Some (s', r) →
  (needs_capture (info r) = true
   ∧ atype a ≠ capture
   ∧ current_player s' = current_player s
   ∧ global_phase s' = global_phase s
   ∧ player_phase s' = player_phase s)
  ∨ (needs_capture (info r) = false
     ∧ current_player s' = opp (current_player s)
     ∧ ∃ sm, global_phase sm = global_phase s
             ∧ player_phase sm = player_phase s
             ∧ pieces_in_hand sm = pieces_in_hand s'
             ∧ global_phase s'
               = (if leaves_placement sm then movement else global_phase s)
             ∧ ∀ p, pget (player_phase s') p = flying
                    ∨ pget (player_phase s') p
                      = if leaves_placement sm then movement
                        else pget (player_phase s) p).
Proof.
  intros Hstep. destruct (needs_capture (info r)) eqn:En.
  - left. destruct (step_capture_owed _ _ _ _ Hstep En) as (?&?&?&?&_).
    done.
  - right.
    destruct (step_completed _ _ _ _ Hstep En)
      as (r0 & sm & Hf & Hc & _ & Hg & Hp).
    destruct (finish_turn_verdict (current_player s) r0 sm) as (Hg' & Hp' & _).
    pose proof (finish_turn_same (current_player s) r0 sm) as (_&Hc'&Hh&_).
    rewrite Hf in Hg', Hp', Hc', Hh. simpl in Hg', Hp', Hc', Hh.
    split; [done|]. split; [congruence|]. exists sm.
    destruct (phase_transition_phases sm) as [Hg1 _].
    destruct (flying_update_phases (phase_transition sm)) as [Hg2 _].
    repeat split; try done.
    + rewrite Hg', Hg2, Hg1, Hg. done.
    + intros p. rewrite Hp', end_of_turn_player_phase, Hp.
      destruct (_ && _); auto.
Qed.

Lemma legal_action_type ss a :
  legal ss a →
  if capture_owed ss then atype a = capture
  else match pget (player_phase (env ss)) (current_player (env ss)) with
       | placement => atype a = place
       | _ => atype a = move
       end.
Proof.
  intros [_ Hin]. unfold legal_set in Hin. destruct (capture_owed ss).
  - by apply in_get_valid_capture_actions in Hin as (f & _ & _ & _ & ->).
  - apply in_get_valid_actions in Hin.
    destruct (pget (player_phase (env ss)) (current_player (env ss))).
    + by destruct Hin as (_ & t & _ & _ & ->).
    + by destruct Hin as (f & t & _ & _ & _ & _ & ->).
    + by destruct Hin as (f & t & _ & _ & _ & _ & ->).
Qed.

Lemma placement_turns_step ss a ss' :
  phases_coherent (env ss) → placement_turns ss →
  legal ss a → apply ss a = Some ss' → placement_turns ss'.
Proof.
  intros Hco [Hpl Hmv] Hl Ha.
  pose proof (legal_action_type ss a Hl) as Hty.
  apply apply_Some in Ha as (r & Hstep & Ho & _).
  destruct (step_phases _ _ _ _ Hco Hstep) as (Hco' & _).
  pose proof (step_pieces _ _ _ _ Hstep (legal_positions_given _ _ Hl))
    as Hpc.
  simpl in Hpc.
  pose proof (step_summary _ _ _ _ Hstep) as Hsum.
  destruct Hco as [Hfly Hnf]. destruct Hco' as [Hfly' Hnf'].
  unfold placement_turns. rewrite Ho.
  destruct (global_phase (env ss)) eqn:Eg; [| |done].
  - (* the global phase was placement *)
    destruct (Hpl eq_refl) as (Hp1 & Hm1 & Hfree & Howed). clear Hpl Hmv.
    assert (pget (player_phase (env ss)) (current_player (env ss)) = placement)
      as Hcur by (by destruct (current_player (env ss))).
    rewrite Hcur in Hty.
    destruct Hsum as [(En & Hnc & Hc & Hg & Hp)
                     |(En & Hc & sm & Hgm & Hpm & Hhm & Hg & Hp)].
    + (* a capture is owed after the step: it was a placement *)
      rewrite En, Hg, Hp, Hc.
      destruct (capture_owed ss) eqn:Eo; [congruence|].
      rewrite Hty in Hpc. destruct Hpc as (t & _ & _ & _ & Hh & _).
      destruct (Hfree eq_refl) as [_ Hrel].
      split; [|done]. intros _. split; [done|]. split; [done|].
      split; [done|]. intros _. rewrite Hh.
      destruct (current_player (env ss)); simpl in *; lia.
    + (* the turn was completed *)
      rewrite En, Hc.
      assert (pieces_in_hand (env ss')
              = if capture_owed ss then pieces_in_hand (env ss)
                else pset (pieces_in_hand (env ss)) (current_player (env ss))
                          (pget (pieces_in_hand (env ss))
                                (current_player (env ss)) - 1)%Z) as Hh.
      { destruct (capture_owed ss); rewrite Hty in Hpc.
        - by destruct Hpc as (f & _ & _ & _ & -> & _).
        - by destruct Hpc as (t & _ & _ & _ & -> & _). }
      destruct (leaves_placement sm) eqn:El.
      * (* both hands empty: movement *)
        split; [rewrite Hg; done|]. intros _.
        split.
        -- destruct (Hp P1) as [->| ->]; done.
        -- destruct (Hp M1) as [->| ->]; done.
      * assert (¬ hands_empty (env ss')) as Hne.
        { intros He. apply not_true_iff_false in El. apply El.
          apply leaves_placement_spec. split; [done|].
          unfold hands_empty in *. by rewrite Hhm. }
        split; [|rewrite Hg; done]. intros _.
        split.
        { destruct (Hp P1) as [Hf|Hf]; [|congruence].
          specialize (Hfly' P1 Hf). congruence. }
        split.
        { destruct (Hp M1) as [Hf|Hf]; [|congruence].
          specialize (Hfly' M1 Hf). congruence. }
        split; [|done]. intros _. split; [done|]. rewrite Hh.
        destruct (capture_owed ss) eqn:Eo.
        -- specialize (Howed eq_refl).
           destruct (current_player (env ss)); simpl in *; lia.
        -- destruct (Hfree eq_refl) as [_ Hrel].
           destruct (current_player (env ss)); simpl in *; lia.
  - (* the global phase was movement *)
    destruct (Hmv eq_refl) as [Hp1 Hm1].
    destruct Hsum as [(En & Hnc & Hc & Hg & Hp)
                     |(En & Hc & sm & Hgm & Hpm & Hhm & Hg & Hp)].
    + rewrite Hg, Hp. split; [done|]. done.
    + assert (leaves_placement sm = false) as El.
      { apply not_true_iff_false. intros [? _]%leaves_placement_spec.
        congruence. }
      rewrite El in Hg, Hp. rewrite Hg. split; [done|]. intros _.
      split.
      * destruct (Hp P1) as [->| ->]; done.
      * destruct (Hp M1) as [->| ->]; done.
Qed.

Lemma reachable_placement_turns ss : reachable ss → placement_turns ss.
Proof.
  induction 1 as [|ss a ss' Hr IH Hl Ha].
  - unfold placement_turns, hands_empty. simpl. split; [|done].
    intros _. repeat split; try done. intros [? _]. done.
  - eapply placement_turns_step; eauto using reachable_phases.
Qed.

Lemma reachable_cells_valid ss : reachable ss → cells_valid (board (env ss)).
Proof.
  unfold cells_valid. induction 1 as [|ss a ss' Hr IH Hl Ha].
  - apply Forall_replicate. by left.
  - apply apply_Some in Ha as (r & Hstep & _).
    pose proof (step_pieces _ _ _ _ Hstep (legal_positions_given _ _ Hl))
      as Hpc.
    simpl in Hpc.
    assert (∀ p, pval p = 0%Z ∨ pval p = 1%Z ∨ pval p = (-1)%Z) as Hv
      by (intros [|]; auto).
    destruct (atype a).
    + destruct Hpc as (t & _ & _ & -> & _). by apply Forall_insert.
    + destruct Hpc as (f & t & _ & _ & _ & _ & -> & _).
      apply Forall_insert; [|done]. apply Forall_insert; [done|]. by left.
    + destruct Hpc as (f & _ & _ & -> & _). apply Forall_insert; [done|].
      by left.
Qed.

Lemma count_cells_full (b : list Z) :
  cells_valid b → board_full b →
  (count_cells 1 b + count_cells (-1) b)%Z = Z.of_nat (length b).
Proof.
  unfold cells_valid, board_full. induction b as [|c b IH]; [done|].
  intros Hv Hf. apply Forall_cons in Hv as [Hc Hv].
  assert (c ≠ 0%Z) as Hc0 by (apply Hf; by left).
  assert (∀ x, In x b → x ≠ 0%Z) as Hf' by (intros x Hx; apply Hf; by right).
  specialize (IH Hv Hf'). simpl count_cells. simpl length.
  destruct Hc as [->|[->| ->]]; [done| |]; simpl; lia.
Qed.

(** In legal play the player about to start a turn in the placement phase
    holds a piece and faces an empty cell: the blockade check never fires
    against a placement-phase player. *)
Lemma placement_never_blocked ss :
  reachable ss → capture_owed ss = false →
  pget (player_phase (env ss)) (current_player (env ss)) = placement →
  (0 < pget (pieces_in_hand (env ss)) (current_player (env ss)))%Z
  ∧ has_move (env ss) = true.
Proof.
  intros Hr Ho Hph.
  destruct (reachable_placement_turns ss Hr) as [Hpl Hmv].
  destruct (reachable_phases ss Hr) as [_ Hnf].
  destruct (reachable_balanced ss Hr) as [Hlen Hbal].
  pose proof (reachable_cells_valid ss Hr) as Hval.
  assert (global_phase (env ss) = placement) as Hg.
  { destruct (global_phase (env ss)) eqn:Eg; [done| |done].
    destruct (Hmv eq_refl) as [H1 H2].
    by destruct (current_player (env ss)). }
  destruct (Hpl Hg) as (_ & _ & Hfree & _).
  destruct (Hfree Ho) as [Hne Hrel].
  destruct (Hbal P1) as (Hs1 & _ & Hh1 & Hc1).
  destruct (Hbal M1) as (Hs2 & _ & Hh2 & Hc2).
  assert (0 < pget (pieces_in_hand (env ss)) (current_player (env ss)))%Z
    as Hpos.
  { unfold hands_empty in Hne.
    destruct (current_player (env ss)); simpl in *; lia. }
  split; [done|].
  destruct (has_move (env ss)) eqn:Eh; [done|].
  apply has_move_blocked in Eh. unfold blocked in Eh. rewrite Hph in Eh.
  destruct Eh as [Hfull|Hle]; [|lia].
  pose proof (count_cells_full _ Hval Hfull) as Hcount.
  rewrite Hlen in Hcount. unfold BOARD_POSITIONS, PIECES_PER_PLAYER in *.
  simpl pval in *. lia.
Qed.

(** ** Blockade in legal play (C6) *)

Lemma count_cells_pos v (b : list Z) :
  (0 < count_cells v b)%Z → ∃ i, i < length b ∧ cell b i = v.
Proof.
  induction b as [|c b IH]; simpl; [lia|].
  destruct (Z.eqb_spec c v) as [->|Hne].
  - intros _. exists 0. split; [lia|done].
  - intros Hpos. destruct IH as (i & Hi & Hc); [lia|].
    exists (S i). split; [lia|done].
Qed.

(** In legal play the blockade check of [step] and the true blockade of
    the rules are the same thing: a player about to start a turn in the
    placement phase holds a piece. *)
Lemma truly_blocked_blocked ss :
  reachable ss → capture_owed ss = false →
  (truly_blocked (env ss) ↔ blocked (env ss)).
Proof.
  intros Hr Ho. unfold truly_blocked, blocked.
  destruct (pget (player_phase (env ss)) (current_player (env ss))) eqn:Eph;
    [|done|done].
  split; [by left|]. intros [H|H]; [done|].
  destruct (placement_never_blocked ss Hr Ho Eph) as [Hpos _]. lia.
Qed.

Lemma moving_player_blocked s :
  pget (player_phase s) (current_player s) = movement →
  has_move s = false → truly_blocked s.
Proof.
  intros Hph Hhm%has_move_blocked. unfold blocked, truly_blocked in *.
  by rewrite Hph in *.
Qed.

(** Within the move limit, legal play has the blockade rule as the rules
    state it.  After a legal action that completes a turn without
    eliminating the opponent: the player about to move is truly blocked
    exactly when the legal-action list is empty; a truly blocked player
    always ends the game; while the move counter is at most 200 the game
    ends exactly on a true blockade, and then the acting player wins; and a
    player about to place always holds a piece, so that the case of an empty
    hand in the placement phase never comes up. *)
Lemma blockade_within_limit ss a ss' :
  reachable ss → legal ss a → apply ss a = Some ss' →
  capture_owed ss' = false →
  eliminated (current_player (env ss)) (env ss') = false →
  (truly_blocked (env ss') ↔ get_valid_actions (env ss') = [])
  ∧ (truly_blocked (env ss') → finished ss' = true)
  ∧ ((move_count (env ss') <= 200)%Z →
     (finished ss' = true ↔ truly_blocked (env ss'))
     ∧ (truly_blocked (env ss') →
        winner (env ss') = Some (pval (current_player (env ss)))))
  ∧ (pget (player_phase (env ss')) (current_player (env ss')) = placement →
     (0 < pget (pieces_in_hand (env ss')) (current_player (env ss')))%Z).
Proof.
  intros Hr Hl Ha Ho He.
  assert (reachable ss') as Hr' by (eapply reachable_step; eauto).
  pose proof (truly_blocked_blocked ss' Hr' Ho) as Htb.
  apply apply_Some in Ha as (r & Hs & Hcap & Hfin & _).
  assert (needs_capture (info r) = false) as Hn by congruence.
  destruct (reachable_balanced ss' Hr') as [Hlen Hbal].
  destruct (reachable_phases ss' Hr') as [Hfly _].
  assert (current_player (env ss') = opp (current_player (env ss))) as Hcur.
  { destruct (step_summary _ _ _ _ Hs) as [(Hc & _)|(_ & Hc & _)];
      [congruence|done]. }
  assert (flyer_has_piece (env ss')) as Hpiece.
  { intros Hph. specialize (Hfly _ Hph).
    unfold eliminated in He. rewrite Hfly in He. simpl in He.
    apply Z.ltb_ge in He.
    destruct (Hbal (opp (current_player (env ss)))) as (_ & Hob & _).
    rewrite Hob in He. rewrite Hcur.
    destruct (count_cells_pos (pval (opp (current_player (env ss))))
                (board (env ss'))) as (i & Hi & Hc); [lia|].
    exists i. split; [lia|done]. }
  assert (blocked (env ss') → done r = true) as Hends.
  { intros Hb.
    destruct (Z_le_gt_dec (move_count (env ss')) 200) as [Hm|Hm].
    - destruct (completed_step_blockade _ _ _ _ Hs Hn Hm He) as (Hdone & _).
      by apply Hdone.
    - destruct (step_completed _ _ _ _ Hs Hn) as (r0 & sm & Hf & _).
      destruct (finish_turn_verdict (current_player (env ss)) r0 sm)
        as (_ & _ & Hover & _).
      destruct (finish_turn_same (current_player (env ss)) r0 sm)
        as (_ & _ & _ & _ & Hmc & _).
      rewrite Hf in Hover, Hmc. simpl in Hover, Hmc.
      apply Hover. lia. }
  split; [|split; [|split]].
  - rewrite Htb. by apply blocked_no_actions.
  - rewrite Htb, Hfin. done.
  - intros Hm.
    destruct (completed_step_blockade _ _ _ _ Hs Hn Hm He)
      as (Hdone & Hwin & _).
    rewrite Htb, Hfin. done.
  - intros Hph. by destruct (placement_never_blocked ss' Hr' Ho Hph).
Qed.

(** C6.  A true blockade that ends in a draw.  The legal game
    [long_game_blockade] leaves player 1 with a capture owed; the capture of
    13 takes the last free piece of player -1, whose four remaining pieces
    sit on the corners 0, 2, 21 and 23 with every neighbour (1, 9, 14, 22)
    held by player 1.  Player -1, about to move in the movement phase with 4
    pieces, is truly blocked and has no legal action, so the acting player
    should win; but the move counter stands at 202 and the step returns
    [done] with the winner 0 (draw), not player 1. *)
Theorem blockade_lost_to_move_limit :
  let s := env_after long_game_blockade in
  let res := step_or_stay s (capture_action 13) in
  option_map env (play long_game_blockade new_session) = Some s
  ∧ In (capture_action 13) (get_valid_capture_actions s)
  ∧ step s (capture_action 13) = Some res
  ∧ current_player s = P1
  ∧ current_player res.1 = M1
  ∧ pget (player_phase res.1) M1 = movement
  ∧ pget (pieces_on_board res.1) M1 = 4%Z
  ∧ eliminated P1 res.1 = false
  ∧ truly_blocked res.1
  ∧ get_valid_actions res.1 = []
  ∧ needs_capture (info res.2) = false
  ∧ move_count res.1 = 202%Z
  ∧ done res.2 = true
  ∧ winner res.1 = Some 0%Z
  ∧ winner res.1 ≠ Some (pval P1).
Proof.
  cbv zeta.
  split; [vm_compute; reflexivity|].
  split; [vm_compute; auto 10|].
  split; [vm_compute; reflexivity|].
  split; [vm_compute; reflexivity|].
  split; [vm_compute; reflexivity|].
  split; [vm_compute; reflexivity|].
  split; [vm_compute; reflexivity|].
  split; [vm_compute; reflexivity|].
  split; [apply moving_player_blocked; vm_compute; reflexivity|].
  split; [vm_compute; reflexivity|].
  split; [vm_compute; reflexivity|].
  split; [vm_compute; reflexivity|].
  split; [vm_compute; reflexivity|].
  split; [vm_compute; reflexivity|].
  vm_compute. discriminate.
Qed.

(** The same blockade reached without the quiet moves, at a move count of
    42: the step returns [done] with player 1 as the winner. *)
Example blockade_wins_within_limit :
  let s := env_after short_game_blockade in
  let res := step_or_stay s (capture_action 13) in
  option_map env (play short_game_blockade new_session) = Some s
  ∧ step s (capture_action 13) = Some res
  ∧ board res.1 = board (step_or_stay (env_after long_game_blockade)
                           (capture_action 13)).1
  ∧ get_valid_actions res.1 = []
  ∧ move_count res.1 = 42%Z
  ∧ done res.2 = true
  ∧ winner res.1 = Some (pval P1).
Proof. vm_compute. repeat split. Qed.

(** * Further properties of the engine *)

(** ** Decoding, then encoding *)

Lemma index_of_decoded (i : nat) :
  action_to_index (index_to_action i) = Some i.
Proof.
  unfold index_to_action, ACTION_MOVEMENT_START, ACTION_CAPTURE_START,
    ACTION_PLACEMENT_START, BOARD_POSITIONS.
  destruct (Nat.ltb_spec i 24).
  - unfold action_to_index. simpl. f_equal. lia.
  - destruct (Nat.ltb_spec i 600).
    + pose proof (Nat.div_mod_eq (i - 24) 24) as Hdm.
      generalize dependent ((i - 24) / 24). intros d.
      generalize dependent ((i - 24) mod 24). intros r Hdm.
      unfold action_to_index, ACTION_MOVEMENT_START, BOARD_POSITIONS.
      cbn [atype from_pos to_pos]. f_equal. lia.
    + unfold action_to_index, ACTION_CAPTURE_START. simpl. f_equal. lia.
Qed.

(** X1.  Every index is the code of the action it decodes to: for every
    [i], encoding [index_to_action i] gives [i] back (indices of 624 and more
    fall in the capture branch and are no exception). *)
Theorem encode_after_decode (i : nat) :
  action_to_index (index_to_action i) = Some i.
Proof. apply index_of_decoded. Qed.

(** ** The action mask *)

Lemma valid_action_index s a :
  In a (get_valid_actions s) →
  ∃ idx, action_to_index a = Some idx ∧ idx < ACTION_CAPTURE_START
         ∧ index_to_action idx = a
         ∧ match pget (player_phase s) (current_player s) with
           | placement => idx < ACTION_MOVEMENT_START
           | _ => ACTION_MOVEMENT_START ≤ idx
           end.
Proof.
  intros Ha. pose proof Ha as Hphase. apply in_get_valid_actions in Hphase.
  unfold ACTION_CAPTURE_START, ACTION_MOVEMENT_START.
  destruct (valid_action_shape s a Ha)
    as [(t & Ht & ->)|(f & t & Hf & Ht & ->)].
  - destruct (roundtrip_place t Ht) as [He Hd]. exists t.
    unfold BOARD_POSITIONS in Ht.
    split; [done|]. split; [lia|]. split; [done|].
    destruct (pget (player_phase s) (current_player s)); [lia| |].
    + by destruct Hphase as (? & ? & _ & _ & _ & _ & ?).
    + by destruct Hphase as (? & ? & _ & _ & _ & _ & ?).
  - destruct (roundtrip_move f t Hf Ht) as [He Hd]. exists (24 + f * 24 + t).
    unfold BOARD_POSITIONS in Hf, Ht.
    split; [done|]. split; [lia|]. split; [done|].
    destruct (pget (player_phase s) (current_player s)); [|lia|lia].
    by destruct Hphase as (_ & ? & _ & _ & ?).
Qed.

Lemma index_in_dec (l : list Action) (i : nat) :
  (∃ a, In a l ∧ action_to_index a = Some i)
  ∨ ¬ (∃ a, In a l ∧ action_to_index a = Some i).
Proof.
  induction l as [|a l [IH|IH]].
  - right. intros (a & [] & _).
  - left. destruct IH as (b & Hb & Hi). exists b. split; [by right|done].
  - destruct (decide (action_to_index a = Some i)) as [Ha|Ha].
    + left. exists a. split; [by left|done].
    + right. intros (b & [<-|Hb] & Hi); [done|]. apply IH. eauto.
Qed.

Lemma mask_fold (l : list Action) (m : list Q) :
  (∀ a, In a l → ∃ idx, action_to_index a = Some idx ∧ idx < length m) →
  ∃ m',
    fold_left mark_action l (Some m) = Some m'
    ∧ length m' = length m
    ∧ (∀ i, (∃ a, In a l ∧ action_to_index a = Some i) → m' !! i = Some 1%Q)
    ∧ (∀ i, ¬ (∃ a, In a l ∧ action_to_index a = Some i) → m' !! i = m !! i).
Proof.
  revert m. induction l as [|a l IH]; intros m Hall.
  - exists m. simpl. repeat split; try done. intros i (a & [] & _).
  - destruct (Hall a (or_introl eq_refl)) as (idx & Hidx & Hlt).
    simpl. unfold mark_action at 1. rewrite Hidx.
    destruct (Nat.ltb_spec idx (length m)); [|lia].
    destruct (IH (<[idx := 1%Q]> m)) as (m' & Hf & Hlen & Hone & Hzero).
    { intros b Hb. destruct (Hall b (or_intror Hb)) as (j & Hj & Hjl).
      exists j. by rewrite length_insert. }
    exists m'. rewrite length_insert in Hlen.
    split; [done|]. split; [done|]. split.
    + intros i (b & [<-|Hb] & Hi).
      * destruct (index_in_dec l i) as [Hin|Hnin].
        -- by apply Hone.
        -- rewrite (Hzero i Hnin). rewrite Hidx in Hi. injection Hi as <-.
           by apply list_lookup_insert_eq.
      * apply Hone. eauto.
    + intros i Hno. rewrite Hzero.
      * apply list_lookup_insert_ne. intros <-. apply Hno. eauto.
      * intros (b & Hb & Hi). apply Hno. eauto.
Qed.

Lemma mask_total s :
  ∃ m,
    get_valid_action_mask s = Some m
    ∧ length m = ACTION_SPACE_SIZE
    ∧ ∀ i, i < ACTION_SPACE_SIZE →
        (In (index_to_action i) (get_valid_actions s) → m !! i = Some 1%Q)
        ∧ (¬ In (index_to_action i) (get_valid_actions s) → m !! i = Some 0%Q).
Proof.
  unfold get_valid_action_mask.
  destruct (mask_fold (get_valid_actions s) (replicate ACTION_SPACE_SIZE 0%Q))
    as (m & Hm & Hlen & Hone & Hzero).
  { intros a Ha. destruct (valid_action_index s a Ha) as (idx & Hi & Hlt & _).
    exists idx. split; [done|]. rewrite length_replicate.
    unfold ACTION_CAPTURE_START, ACTION_SPACE_SIZE in *. lia. }
  rewrite length_replicate in Hlen.
  exists m. split; [done|]. split; [done|]. intros i Hi. split.
  - intros Hin. apply Hone. exists (index_to_action i).
    split; [done|apply index_of_decoded].
  - intros Hnin. rewrite Hzero.
    + by apply lookup_replicate_2.
    + intros (a & Ha & Hidx). apply Hnin.
      destruct (valid_action_index s a Ha) as (j & Hj & _ & Hd & _).
      rewrite Hidx in Hj. injection Hj as <-. by rewrite Hd.
Qed.

(** X2.  [get_valid_action_mask] never raises: it returns 624 entries, and
    entry [i] is 1 exactly when the action that [i] decodes to is in
    [get_valid_actions], and 0 otherwise. *)
Theorem mask_marks_legal_actions (s : Env) :
  ∃ m,
    get_valid_action_mask s = Some m
    ∧ length m = ACTION_SPACE_SIZE
    ∧ ∀ i, i < ACTION_SPACE_SIZE →
        (In (index_to_action i) (get_valid_actions s) → m !! i = Some 1%Q)
        ∧ (¬ In (index_to_action i) (get_valid_actions s) → m !! i = Some 0%Q).
Proof. apply mask_total. Qed.

(** X3.  The mask holds no capture: entries 600 to 623 are 0 in every
    state; in the placement phase every 1 lies below 24 and in the movement
    and flying phases every 1 lies in 24..599. *)
Theorem mask_ranges (s : Env) (m : list Q) (i : nat) :
  get_valid_action_mask s = Some m →
  m !! i = Some 1%Q →
  i < ACTION_CAPTURE_START
  ∧ match pget (player_phase s) (current_player s) with
    | placement => i < ACTION_MOVEMENT_START
    | _ => ACTION_MOVEMENT_START ≤ i
    end.
Proof.
  intros Hm Hi. destruct (mask_total s) as (m' & Hm' & Hlen & Hspec).
  rewrite Hm in Hm'. injection Hm' as <-.
  assert (i < ACTION_SPACE_SIZE) as Hlt.
  { rewrite <- Hlen. by eapply lookup_lt_Some. }
  destruct (Hspec i Hlt) as [_ Hzero].
  destruct (in_dec Action_eq_dec (index_to_action i) (get_valid_actions s))
    as [Hin|Hnin].
  - destruct (valid_action_index s _ Hin) as (j & Hj & Hjlt & _ & Hph).
    rewrite index_of_decoded in Hj. injection Hj as <-. done.
  - rewrite (Hzero Hnin) in Hi. discriminate Hi.
Qed.

Lemma mask_ranges_witness :
  0 < ACTION_CAPTURE_START ∧ 0 < ACTION_MOVEMENT_START.
Proof.
  apply (mask_ranges reset (default [] (get_valid_action_mask reset)) 0).
  - vm_compute. reflexivity.
  - vm_compute. reflexivity.
Defined.

(** ** The copy of an environment *)

(** X4.  A clone is the original with the two event flags cleared: it is
    the original itself exactly when neither flag was set, cloning twice
    changes nothing more, and since [step] clears the flags before it does
    anything else, a step on the clone returns what the step on the original
    returns; the tensor, the legal actions, the legal captures and the mask
    are those of the original. *)
Theorem clone_equivalent (s : Env) :
  (clone s = s ↔ last_mill_formed s = false ∧ last_capture s = false)
  ∧ clone (clone s) = clone s
  ∧ (∀ a, step (clone s) a = step s a)
  ∧ get_state (clone s) = get_state s
  ∧ get_valid_actions (clone s) = get_valid_actions s
  ∧ get_valid_capture_actions (clone s) = get_valid_capture_actions s
  ∧ get_valid_action_mask (clone s) = get_valid_action_mask s.
Proof.
  split; [|by repeat split].
  destruct s as [b g pp c h o w m lm lc]. unfold clone. simpl. split.
  - intros [= <- <-]. done.
  - intros [-> ->]. done.
Qed.

(** ** Errors and the footprint of a step *)

Lemma write_at_None b pos v :
  write_at b pos v = None ↔ ∃ i, pos = Some i ∧ length b ≤ i.
Proof.
  unfold write_at, write. destruct pos as [i|].
  - destruct (Nat.ltb_spec i (length b)); split; try done.
    + intros (i' & [= <-] & ?). lia.
    + intros _. eauto.
  - split; [done|]. by intros (i & ? & _).
Qed.

Lemma write_at_length b pos v b' :
  write_at b pos v = Some b' → length b' = length b.
Proof.
  unfold write_at, write. destruct pos as [i|].
  - case_match; [|done]. intros [= <-]. apply length_insert.
  - intros [= <-]. apply length_replicate.
Qed.

(** X5.  [step] raises exactly when an int position it uses lies outside
    the board: the target of a placement, source or target of a movement,
    the source of a capture.  A position that is [None] raises nothing, and
    whether the action is legal plays no part.  A placement whose target is
    [None] returns with every cell of the board set to the acting player's
    value. *)
Theorem step_raises_iff_out_of_range (s : Env) (a : Action) :
  (step s a = None ↔ position_out_of_range s a)
  ∧ (atype a = place → to_pos a = None →
     ∃ s' r, step s a = Some (s', r)
             ∧ board s'
               = replicate (length (board s)) (pval (current_player s))).
Proof.
  split.
  - unfold step, position_out_of_range.
    set (s0 := set_last_capture false (set_last_mill_formed false s)).
    destruct (atype a).
    + unfold do_place.
      pose proof (write_at_None (board s0) (to_pos a) (pval (current_player s0)))
        as Hw.
      destruct (write_at (board s0) (to_pos a) _) as [b|]; simpl in Hw.
      * split; [done|]. intros H. by apply Hw in H.
      * split; [|done]. intros _. by apply Hw.
    + unfold do_move.
      pose proof (write_at_None (board s0) (from_pos a) 0%Z) as Hf.
      destruct (write_at (board s0) (from_pos a) 0%Z) as [b0|] eqn:E0;
        simpl in Hf.
      * pose proof (write_at_None b0 (to_pos a) (pval (current_player s0)))
          as Ht.
        rewrite (write_at_length _ _ _ _ E0) in Ht. simpl in Ht.
        destruct (write_at b0 (to_pos a) _) as [b|].
        -- split; [done|]. intros [H|H]; [by apply Hf in H|by apply Ht in H].
        -- split; [|done]. intros _. right. by apply Ht.
      * split; [|done]. intros _. left. by apply Hf.
    + unfold do_capture.
      pose proof (write_at_None (board s0) (from_pos a) 0%Z) as Hw.
      destruct (write_at (board s0) (from_pos a) 0%Z) as [b|]; simpl in Hw.
      * split; [done|]. intros H. by apply Hw in H.
      * split; [|done]. intros _. by apply Hw.
  - intros Hty Hto. unfold step. rewrite Hty, Hto.
    unfold do_place, write_at.
    match goal with
    | |- context [after_piece ?p ?q None ?sm] =>
        pose proof (after_piece_pieces p q None sm) as (Hb & _);
        destruct (after_piece p q None sm) as [s' r]
    end.
    exists s', r. split; [done|]. simpl in Hb. done.
Qed.

(** X6.  For an action whose positions are cells of the board, [step]
    returns, keeps the size of the board and changes no cell other than the
    ones the action names. *)
Theorem step_changes_named_cells_only (s : Env) (a : Action) :
  positions_in_range s a →
  ∃ s' r,
    step s a = Some (s', r)
    ∧ length (board s') = length (board s)
    ∧ ∀ j, from_pos a ≠ Some j → to_pos a ≠ Some j →
           cell (board s') j = cell (board s) j.
Proof.
  intros Hin. destruct (step_total s a Hin) as (s' & r & Hs).
  exists s', r. split; [done|].
  assert (positions_given a) as Hg.
  { unfold positions_in_range, positions_given in *. destruct (atype a).
    - by destruct Hin as (t & -> & _).
    - by destruct Hin as (f & t & -> & -> & _).
    - by destruct Hin as (f & -> & _). }
  pose proof (step_pieces _ _ _ _ Hs Hg) as Hp. simpl in Hp.
  destruct (atype a).
  - destruct Hp as (t & Ht & _ & -> & _). rewrite length_insert.
    split; [done|]. intros j _ Hj. apply cell_insert_ne. congruence.
  - destruct Hp as (f & t & Hf & Ht & _ & _ & -> & _).
    rewrite !length_insert. split; [done|]. intros j Hjf Hjt.
    rewrite !cell_insert_ne; congruence.
  - destruct Hp as (f & Hf & _ & -> & _). rewrite length_insert.
    split; [done|]. intros j Hj _. apply cell_insert_ne. congruence.
Qed.

Lemma step_changes_named_cells_only_witness :
  ∃ s' r,
    step two_in_row (move_action 0 2) = Some (s', r)
    ∧ length (board s') = length (board two_in_row)
    ∧ ∀ j, from_pos (move_action 0 2) ≠ Some j →
           to_pos (move_action 0 2) ≠ Some j →
           cell (board s') j = cell (board two_in_row) j.
Proof.
  apply (step_changes_named_cells_only two_in_row (move_action 0 2)).
  exists 0, 2. simpl. repeat split; lia.
Defined.

Lemma cell_insert_eq (b : list Z) i v :
  i < length b → cell (<[i:=v]> b) i = v.
Proof. intros H. unfold cell. by rewrite list_lookup_insert_eq. Qed.

(** X7.  A movement from a cell to itself is carried out like any other:
    the cell ends up holding the acting player's piece whatever it held
    before (empty, or a piece of the opponent), while the counters of pieces
    in hand and on board stay as they were. *)
Theorem self_move_writes_piece
    (s : Env) (x : nat) (s' : Env) (r : StepResult) :
  step s (move_action x x) = Some (s', r) →
  cell (board s') x = pval (current_player s)
  ∧ pieces_on_board s' = pieces_on_board s
  ∧ pieces_in_hand s' = pieces_in_hand s.
Proof.
  intros Hs.
  assert (positions_given (move_action x x)) as Hg by (by split).
  pose proof (step_pieces _ _ _ _ Hs Hg) as Hp. simpl in Hp.
  destruct Hp as (f & t & [= <-] & [= <-] & Hf & _ & -> & -> & ->).
  split; [|done]. apply cell_insert_eq. by rewrite length_insert.
Qed.

Lemma self_move_writes_piece_witness :
  let res := step_or_stay reset (move_action 0 0) in
  cell (board reset) 0 = 0%Z
  ∧ cell (board res.1) 0 = pval (current_player reset)
  ∧ pieces_on_board res.1 = pieces_on_board reset
  ∧ pieces_in_hand res.1 = pieces_in_hand reset.
Proof.
  split; [reflexivity|].
  apply (self_move_writes_piece reset 0 (step_or_stay reset (move_action 0 0)).1
           (step_or_stay reset (move_action 0 0)).2).
  vm_compute. reflexivity.
Defined.

(** ** The outcome of a step *)

Lemma finish_turn_outcome acting r s :
  let s' := (finish_turn acting r s).1 in
  let res := (finish_turn acting r s).2 in
  (done res = true →
   (winner s' = Some 0%Z ∧ reward res = 0%Q ∧ (move_count s > 200)%Z)
   ∨ (winner s' = Some (pval acting) ∧ reward res = (3 # 2)%Q
      ∧ (move_count s <= 200)%Z))
  ∧ (done res = false →
     winner s' = winner s ∧ reward res = r ∧ (move_count s <= 200)%Z).
Proof.
  simpl.
  pose proof (phase_transition_same s) as H1.
  pose proof (flying_update_same (phase_transition s)) as H2.
  pose proof (same_position_trans _ _ _ H1 H2) as (_&_&_&_&Hm&_).
  assert (winner (flying_update (phase_transition s)) = winner s) as Hw.
  { unfold flying_update, phase_transition. simpl.
    repeat case_match; done. }
  unfold finish_turn.
  set (s1 := flying_update (phase_transition s)) in *.
  unfold check_elimination.
  destruct (negb (phase_eqb (global_phase s1) placement)); simpl.
  - destruct (pget (pieces_on_board s1) (opp acting) <? 3)%Z; simpl.
    + unfold check_draw. simpl. rewrite Hm.
      destruct (Z.gtb_spec (move_count s) 200); simpl; split; intros Hd;
        try done; [left|right]; repeat split; try done; lia.
    + unfold check_blockade. simpl.
      destruct (has_move s1); simpl; unfold check_draw; simpl;
        rewrite Hm; destruct (Z.gtb_spec (move_count s) 200); simpl;
        split; intros Hd; try done;
        first [left; repeat split; try done; lia
              |right; repeat split; try done; lia
              |repeat split; try done; lia].
  - unfold check_blockade. simpl.
    destruct (has_move s1); simpl; unfold check_draw; simpl;
      rewrite Hm; destruct (Z.gtb_spec (move_count s) 200); simpl;
      split; intros Hd; try done;
      first [left; repeat split; try done; lia
            |right; repeat split; try done; lia
            |repeat split; try done; lia].
Qed.

Lemma step_completed_winner s a s' r :
  step s a = Some (s', r) →
  needs_capture (info r) = false →
  ∃ r0 sm,
    finish_turn (current_player s) r0 sm = (s', r)
    ∧ winner sm = winner s
    ∧ move_count sm = (move_count s + 1)%Z.
Proof.
  unfold step. intros H Hn.
  destruct (atype a).
  - destruct (do_place _ (to_pos a)) as [sm|] eqn:E; [|done].
    injection H as H.
    apply do_place_frame in E as (_ & _ & _ & Hm & _ & _ & Hw & _).
    simpl in Hm, Hw.
    unfold after_piece in H. repeat case_match; simplify_eq; try done;
      eexists _, _; (split; [eassumption|]); simpl; rewrite Hm, Hw; done.
  - destruct (do_move _ (from_pos a) (to_pos a)) as [sm|] eqn:E; [|done].
    injection H as H.
    apply do_move_frame in E as (_ & _ & _ & Hm & _ & _ & Hw & _).
    simpl in Hm, Hw.
    unfold after_piece in H. repeat case_match; simplify_eq; try done;
      eexists _, _; (split; [eassumption|]); simpl; rewrite Hm, Hw; done.
  - destruct (do_capture _ (from_pos a)) as [sm|] eqn:E; [|done].
    injection H as H.
    apply do_capture_frame in E as (_ & _ & _ & Hm & _ & _ & Hw & _).
    eexists _, _. split; [eassumption|]. done.
Qed.

Lemma step_outcome s a s' r :
  step s a = Some (s', r) →
  move_count s' = (move_count s + 1)%Z
  ∧ (done r = true →
     needs_capture (info r) = false
     ∧ ((winner s' = Some 0%Z ∧ reward r = 0%Q ∧ (move_count s' > 200)%Z)
        ∨ (winner s' = Some (pval (current_player s))
           ∧ reward r = (3 # 2)%Q ∧ (move_count s' <= 200)%Z)))
  ∧ (done r = false → winner s' = winner s)
  ∧ (needs_capture (info r) = false → (move_count s' > 200)%Z →
     done r = true).
Proof.
  intros Hs. pose proof (step_move_count _ _ _ _ Hs) as Hmc.
  split; [done|].
  destruct (needs_capture (info r)) eqn:En.
  - destruct (step_capture_owed _ _ _ _ Hs En) as (_&_&_&_&Hw&Hd).
    rewrite Hd. repeat split; try done.
  - destruct (step_completed_winner _ _ _ _ Hs En) as (r0 & sm & Hf & Hw & Hm).
    pose proof (finish_turn_outcome (current_player s) r0 sm) as [Hy Hn].
    rewrite Hf in Hy, Hn. simpl in Hy, Hn.
    rewrite Hm, <- Hmc in Hy, Hn. rewrite Hw in Hn.
    split; [|split].
    + intros Hd. split; [done|]. by apply Hy.
    + intros Hd. by destruct (Hn Hd).
    + intros _ Hgt. destruct (done r); [done|].
      destruct (Hn eq_refl) as (_ & _ & ?). lia.
Qed.

(** X8.  What a step reports when it ends the game: [done] is never set
    together with a capture owed; when it is set, either the move counter is
    above 200, the winner is 0 and the reward 0.0, or the counter is at most
    200, the winner is the acting player and the reward 1.5.  When [done] is
    not set the winner is left as it was.  A step that completes a turn with
    the counter above 200 always sets [done]. *)
Theorem step_reports_outcome
    (s : Env) (a : Action) (s' : Env) (r : StepResult) :
  step s a = Some (s', r) →
  (done r = true →
   needs_capture (info r) = false
   ∧ ((winner s' = Some 0%Z ∧ reward r = 0%Q ∧ (move_count s' > 200)%Z)
      ∨ (winner s' = Some (pval (current_player s))
         ∧ reward r = (3 # 2)%Q ∧ (move_count s' <= 200)%Z)))
  ∧ (done r = false → winner s' = winner s)
  ∧ (needs_capture (info r) = false → (move_count s' > 200)%Z →
     done r = true).
Proof. intros Hs. by destruct (step_outcome _ _ _ _ Hs) as [_ ?]. Qed.

Lemma step_reports_outcome_witness :
  let s := env_after long_game_elimination in
  let res := step_or_stay s (capture_action 7) in
  (done res.2 = true →
   needs_capture (info res.2) = false
   ∧ ((winner res.1 = Some 0%Z ∧ reward res.2 = 0%Q
       ∧ (move_count res.1 > 200)%Z)
      ∨ (winner res.1 = Some (pval (current_player s))
         ∧ reward res.2 = (3 # 2)%Q ∧ (move_count res.1 <= 200)%Z)))
  ∧ (done res.2 = false → winner res.1 = winner s)
  ∧ (needs_capture (info res.2) = false → (move_count res.1 > 200)%Z →
     done res.2 = true).
Proof.
  apply (step_reports_outcome (env_after long_game_elimination)
           (capture_action 7)).
  vm_compute. reflexivity.
Defined.

(** X9.  A capture always ends the turn: the step asks for no further
    capture and reports no mill, the opponent becomes the player to act, the
    captured cell is empty, and the opponent's on-board counter drops by one
    while hands are untouched. *)
Theorem capture_ends_turn
    (s : Env) (f : nat) (s' : Env) (r : StepResult) :
  step s (capture_action f) = Some (s', r) →
  info r = InfoTurn false true
  ∧ current_player s' = opp (current_player s)
  ∧ cell (board s') f = 0%Z
  ∧ pget (pieces_on_board s') (opp (current_player s))
    = (pget (pieces_on_board s) (opp (current_player s)) - 1)%Z
  ∧ pget (pieces_on_board s') (current_player s)
    = pget (pieces_on_board s) (current_player s)
  ∧ pieces_in_hand s' = pieces_in_hand s.
Proof.
  intros Hs.
  assert (positions_given (capture_action f)) as Hg by done.
  pose proof (step_pieces _ _ _ _ Hs Hg) as Hp. simpl in Hp.
  destruct Hp as (f' & [= <-] & Hf & Hb & Hh & Ho).
  unfold step in Hs. simpl in Hs.
  destruct (do_capture _ (Some f)) as [sm|] eqn:E; [|done].
  injection Hs as Hs.
  pose proof (finish_turn_info (current_player s)
                (base_reward + (5 # 100))%Q sm) as Hi.
  pose proof (finish_turn_same (current_player s)
                (base_reward + (5 # 100))%Q sm) as (_&Hc&_).
  rewrite Hs in Hi, Hc. simpl in Hi, Hc.
  unfold do_capture, write_at in E. destruct (write _ _ _) as [b|]; [|done].
  injection E as <-. simpl in *.
  rewrite Hi, Hc, Hb, Hh, Ho. repeat split.
  - by apply cell_insert_eq.
  - by destruct (current_player s).
  - by destruct (current_player s).
Qed.

Lemma capture_ends_turn_witness :
  let s := env_after long_game_draw in
  let res := step_or_stay s (capture_action 14) in
  info res.2 = InfoTurn false true
  ∧ current_player res.1 = opp (current_player s)
  ∧ cell (board res.1) 14 = 0%Z
  ∧ pget (pieces_on_board res.1) (opp (current_player s))
    = (pget (pieces_on_board s) (opp (current_player s)) - 1)%Z
  ∧ pget (pieces_on_board res.1) (current_player s)
    = pget (pieces_on_board s) (current_player s)
  ∧ pieces_in_hand res.1 = pieces_in_hand s.
Proof.
  apply (capture_ends_turn (env_after long_game_draw) 14).
  vm_compute. reflexivity.
Defined.

(** ** Invariants of legal play *)

(** X10.  In every session reached by legal actions the board has 24 cells
    and each holds 0, 1 or -1. *)
Theorem board_stays_valid (ss : Session) :
  reachable ss →
  length (board (env ss)) = BOARD_POSITIONS ∧ cells_valid (board (env ss)).
Proof.
  intros Hr. split.
  - by destruct (reachable_balanced ss Hr).
  - by apply reachable_cells_valid.
Qed.

Lemma board_stays_valid_witness :
  length (board (env (session_after long_game_draw))) = BOARD_POSITIONS
  ∧ cells_valid (board (env (session_after long_game_draw))).
Proof.
  apply (board_stays_valid (session_after long_game_draw)).
  apply (play_reachable long_game_draw new_session).
  - apply reachable_new.
  - vm_compute. reflexivity.
Defined.

Lemma count_cells_nonneg v b : (0 <= count_cells v b)%Z.
Proof. induction b as [|c b IH]; simpl; [lia|]. destruct (c =? v)%Z; lia. Qed.

(** X11.  In legal play both counters of each player stay between 0 and 9
    and never add up to more than 9, so the clamping that the page applies
    before showing them changes nothing. *)
Theorem shown_counters_exact (ss : Session) (p : Player) :
  reachable ss →
  shown_in_hand (env ss) p = pget (pieces_in_hand (env ss)) p
  ∧ shown_on_board (env ss) p = pget (pieces_on_board (env ss)) p
  ∧ (0 <= pget (pieces_in_hand (env ss)) p)%Z
  ∧ (0 <= pget (pieces_on_board (env ss)) p)%Z
  ∧ (pget (pieces_in_hand (env ss)) p
     + pget (pieces_on_board (env ss)) p <= 9)%Z.
Proof.
  intros Hr. destruct (reachable_balanced ss Hr) as [_ Hb].
  destruct (Hb p) as (Hsum & Hob & Hh & Hc).
  pose proof (count_cells_nonneg (pval p) (board (env ss))).
  unfold shown_in_hand, shown_on_board, PIECES_PER_PLAYER in *.
  repeat split; lia.
Qed.

Lemma shown_counters_exact_witness :
  let e := env (session_after long_game_draw) in
  shown_in_hand e M1 = pget (pieces_in_hand e) M1
  ∧ shown_on_board e M1 = pget (pieces_on_board e) M1
  ∧ (0 <= pget (pieces_in_hand e) M1)%Z
  ∧ (0 <= pget (pieces_on_board e) M1)%Z
  ∧ (pget (pieces_in_hand e) M1 + pget (pieces_on_board e) M1 <= 9)%Z.
Proof.
  apply (shown_counters_exact (session_after long_game_draw) M1).
  apply (play_reachable long_game_draw new_session).
  - apply reachable_new.
  - vm_compute. reflexivity.
Defined.

(** X12.  In legal play, as long as the global phase is placement, both
    players are in the placement phase and the placements alternate: at the
    start of a turn the player to act holds as many pieces as the other
    (player 1) or one more (player -1), and the hands are not both empty;
    once the global phase is movement nobody is in the placement phase. *)
Theorem placements_alternate (ss : Session) :
  reachable ss → placement_turns ss.
Proof. apply reachable_placement_turns. Qed.

Lemma placements_alternate_witness :
  placement_turns (session_after opening_before_last_mill).
Proof.
  apply (placements_alternate (session_after opening_before_last_mill)).
  apply (play_reachable opening_before_last_mill new_session).
  - apply reachable_new.
  - vm_compute. reflexivity.
Defined.

(** X13.  In legal play a player who starts a turn in the placement phase
    holds at least one piece and passes the blockade check: the blockade
    never fires against a player who is still placing. *)
Theorem no_blockade_while_placing (ss : Session) :
  reachable ss → capture_owed ss = false →
  pget (player_phase (env ss)) (current_player (env ss)) = placement →
  (0 < pget (pieces_in_hand (env ss)) (current_player (env ss)))%Z
  ∧ has_move (env ss) = true.
Proof. apply placement_never_blocked. Qed.

Lemma no_blockade_while_placing_witness :
  let e := env (session_after opening_before_last_mill) in
  (0 < pget (pieces_in_hand e) (current_player e))%Z ∧ has_move e = true.
Proof.
  apply (no_blockade_while_placing (session_after opening_before_last_mill)).
  - apply (play_reachable opening_before_last_mill new_session).
    + apply reachable_new.
    + vm_compute. reflexivity.
  - reflexivity.
  - reflexivity.
Defined.

Lemma after_piece_owed_has_target acting q t sm s' r :
  after_piece acting q t sm = (s', r) → needs_capture (info r) = true →
  get_valid_capture_actions s' ≠ [].
Proof.
  intros Hap Hn. unfold after_piece in Hap.
  destruct (is_in_mill_at sm t (pval (current_player sm))).
  - destruct (0 <? length (get_valid_capture_actions
                             (set_last_mill_formed true sm))) eqn:Ec.
    + injection Hap as <- <-. apply Nat.ltb_lt in Ec. intros Hnil.
      rewrite Hnil in Ec. simpl in Ec. lia.
    + pose proof (finish_turn_info acting (q + (1 # 10))%Q
        (set_current_player (opp (current_player (set_last_mill_formed true sm)))
           (set_last_mill_formed true sm))) as Hi.
      rewrite Hap in Hi. simpl in Hi. rewrite Hi in Hn. done.
  - pose proof (finish_turn_info acting q
        (set_current_player (opp (current_player sm)) sm)) as Hi.
    rewrite Hap in Hi. simpl in Hi. rewrite Hi in Hn. done.
Qed.

Lemma step_owed_has_target s a s' r :
  step s a = Some (s', r) → needs_capture (info r) = true →
  get_valid_capture_actions s' ≠ [].
Proof.
  unfold step. intros H Hn.
  destruct (atype a).
  - destruct (do_place _ (to_pos a)) as [sm|]; [|done]. injection H as H.
    by eapply after_piece_owed_has_target.
  - destruct (do_move _ (from_pos a) (to_pos a)) as [sm|]; [|done].
    injection H as H.
    by eapply after_piece_owed_has_target.
  - destruct (do_capture _ (from_pos a)) as [sm|]; [|done].
    injection H as H.
    pose proof (finish_turn_info (current_player s)
                  (base_reward + (5 # 100))%Q sm) as Hi.
    rewrite H in Hi. simpl in Hi. rewrite Hi in Hn. done.
Qed.

Lemma completed_step_ready s a s' r :
  step s a = Some (s', r) → needs_capture (info r) = false →
  done r = false →
  has_move s' = true
  ∧ (global_phase s' ≠ placement →
     (3 <= pget (pieces_on_board s') (current_player s'))%Z)
  ∧ (move_count s' <= 200)%Z.
Proof.
  intros Hs Hn Hd.
  destruct (step_completed _ _ _ _ Hs Hn) as (r0 & sm & Hf & Hc & _).
  destruct (finish_turn_verdict (current_player s) r0 sm)
    as (Hg & Hp & Hover & Hv).
  pose proof (finish_turn_same (current_player s) r0 sm) as Hsame.
  rewrite Hf in Hg, Hp, Hover, Hv, Hsame. simpl in Hg, Hp, Hover, Hv, Hsame.
  assert (same_position (flying_update (phase_transition sm)) s') as Hs1.
  { pose proof (same_position_trans _ _ _ (phase_transition_same sm)
                  (flying_update_same (phase_transition sm))) as H1.
    destruct H1 as (A1&A2&A3&A4&A5&A6&A7).
    destruct Hsame as (B1&B2&B3&B4&B5&B6&B7).
    repeat split; congruence. }
  set (s1 := flying_update (phase_transition sm)) in *.
  assert (has_move s' = has_move s1) as Hhm by by apply has_move_same.
  assert (move_count sm <= 200)%Z as Hm.
  { destruct (Z_le_gt_dec (move_count sm) 200) as [?|Hgt]; [done|].
    destruct (Hover Hgt). congruence. }
  specialize (Hv Hm).
  destruct (eliminated (current_player s) s1) eqn:He; simpl in Hv;
    [destruct Hv; congruence|].
  destruct (has_move s1) eqn:Eh; simpl in Hv; [|destruct Hv; congruence].
  destruct Hsame as (_&Hc'&_&_&Hmc&_). destruct Hs1 as (_&_&_&Ho&_).
  split; [congruence|]. split; [|lia].
  intros Hnp. rewrite Hc', Hc, Ho.
  unfold eliminated in He. rewrite <- Hg in He.
  apply andb_false_iff in He as [He|He].
  - apply negb_false_iff, phase_eqb_eq in He. done.
  - apply Z.ltb_ge in He. done.
Qed.

Lemma reachable_ready ss : reachable ss → ready ss.
Proof.
  induction 1 as [|ss a ss' Hr IH Hl Ha].
  - intros _. simpl. split; [reflexivity|]. split; [done|]. simpl. lia.
  - apply apply_Some in Ha as (r & Hs & Ho & Hfin & _).
    unfold ready. rewrite Ho, Hfin. intros Hd.
    destruct (needs_capture (info r)) eqn:En.
    + by eapply step_owed_has_target.
    + by apply (completed_step_ready _ _ _ _ Hs En Hd).
Qed.

Lemma open_session_has_action ss :
  reachable ss → finished ss = false → legal_set ss ≠ [].
Proof.
  intros Hr Hf. pose proof (reachable_ready ss Hr Hf) as Hrd.
  unfold legal_set. destruct (capture_owed ss); [done|].
  destruct Hrd as (Hm & H3 & _).
  destruct (reachable_balanced ss Hr) as [Hlen Hb].
  destruct (reachable_phases ss Hr) as [Hfly _].
  intros Hnil. apply blocked_no_actions in Hnil; [| done |].
  - apply has_move_blocked in Hnil. congruence.
  - intros Hph. specialize (Hfly _ Hph).
    destruct (Hb (current_player (env ss))) as (_ & Hob & _).
    destruct (count_cells_pos (pval (current_player (env ss)))
                (board (env ss))) as (i & Hi & Hc).
    + rewrite <- Hob. assert (global_phase (env ss) ≠ placement) as Hnp
        by congruence. specialize (H3 Hnp). lia.
    + exists i. split; [lia|done].
Qed.

(** X14.  Legal play never gets stuck: in every open session reached by
    legal actions the set the driver chooses from is not empty; an owed
    capture has a target, and a player starting a turn has an action. *)
Theorem legal_play_never_stuck (ss : Session) :
  reachable ss → finished ss = false → legal_set ss ≠ [].
Proof. apply open_session_has_action. Qed.

Lemma legal_play_never_stuck_witness :
  legal_set (session_after long_game_draw) ≠ [].
Proof.
  apply (legal_play_never_stuck (session_after long_game_draw)).
  - apply (play_reachable long_game_draw new_session).
    + apply reachable_new.
    + vm_compute. reflexivity.
  - reflexivity.
Defined.

Lemma reachable_move_bound ss :
  reachable ss → (move_count (env ss) <= move_bound ss)%Z.
Proof.
  induction 1 as [|ss a ss' Hr IH Hl Ha].
  - cbv. discriminate.
  - pose proof (legal_action_type ss a Hl) as Hty.
    destruct Hl as [Hfin _].
    apply apply_Some in Ha as (r & Hs & Ho & Hf & _).
    destruct (step_outcome _ _ _ _ Hs) as (Hmc & _ & _ & Hover).
    unfold move_bound in *. rewrite Hfin in IH. rewrite Ho, Hf.
    destruct (needs_capture (info r)) eqn:En.
    + destruct (step_capture_owed _ _ _ _ Hs En) as (Hnc & _ & _ & _ & _ & ->).
      destruct (capture_owed ss); [congruence|]. lia.
    + destruct (done r) eqn:Ed.
      * destruct (capture_owed ss); lia.
      * destruct (Z_le_gt_dec (move_count (env ss')) 200) as [?|Hgt]; [done|].
        specialize (Hover eq_refl Hgt). congruence.
Qed.

Lemma play_counts_actions acts ss ss' :
  play acts ss = Some ss' →
  move_count (env ss') = (move_count (env ss) + Z.of_nat (length acts))%Z.
Proof.
  revert ss. induction acts as [|a acts IH]; intros ss; simpl.
  - intros [= <-]. lia.
  - destruct (legalb ss a); [|done].
    destruct (apply ss a) as [ss1|] eqn:Ea; [|done]. intros Hp.
    rewrite (IH ss1 Hp).
    apply apply_Some in Ea as (r & Hs & _).
    rewrite (step_move_count _ _ _ _ Hs). lia.
Qed.

(** X15.  Every legal game is finite: the move counter equals the number of
    actions played, it never passes 202, and while the game is open it is at
    most 200 at the start of a turn and at most 201 with a capture owed.
    So no legal game from a fresh session has more than 202 actions. *)
Theorem legal_games_are_bounded (acts : list Action) (ss : Session) :
  play acts new_session = Some ss →
  move_count (env ss) = Z.of_nat (length acts)
  ∧ (move_count (env ss) <= move_bound ss)%Z
  ∧ length acts ≤ 202.
Proof.
  intros Hp.
  pose proof (play_counts_actions _ _ _ Hp) as Hc. simpl in Hc.
  pose proof (reachable_move_bound ss
                (play_reachable _ _ _ reachable_new Hp)) as Hb.
  split; [done|]. split; [done|].
  unfold move_bound in Hb.
  destruct (finished ss), (capture_owed ss); lia.
Qed.

Lemma legal_games_are_bounded_witness :
  let ss := session_after long_game_elimination in
  move_count (env ss) = Z.of_nat (length long_game_elimination)
  ∧ (move_count (env ss) <= move_bound ss)%Z
  ∧ length long_game_elimination ≤ 202.
Proof.
  apply (legal_games_are_bounded long_game_elimination).
  vm_compute. reflexivity.
Defined.

Lemma reachable_winner_settled ss : reachable ss → winner_settled ss.
Proof.
  induction 1 as [|ss a ss' Hr [IHo _] Hl Ha].
  - split; [done|]. simpl. done.
  - destruct Hl as [Hfin _]. specialize (IHo Hfin).
    apply apply_Some in Ha as (r & Hs & _ & Hf & _).
    destruct (step_outcome _ _ _ _ Hs) as (_ & Hd & Hnd & _).
    unfold winner_settled. rewrite Hf. split.
    + intros Hdf. rewrite (Hnd Hdf). done.
    + intros Hdt. destruct (Hd Hdt) as (_ & [(-> & _)|(-> & _)]); [auto|].
      destruct (current_player (env ss)); auto.
Qed.

(** X16.  In legal play the winner field tells whether the game is over:
    it is unset as long as no step has reported [done], and once a step has,
    it is 1, -1 or 0. *)
Theorem winner_set_iff_finished (ss : Session) :
  reachable ss → winner_settled ss.
Proof. apply reachable_winner_settled. Qed.

Lemma winner_set_iff_finished_witness :
  winner_settled (session_after (long_game_draw ++ [capture_action 14])).
Proof.
  apply (winner_set_iff_finished
           (session_after (long_game_draw ++ [capture_action 14]))).
  apply (play_reachable (long_game_draw ++ [capture_action 14]) new_session).
  - apply reachable_new.
  - vm_compute. reflexivity.
Defined.

(** ** Captures and mills *)

Lemma no_capture_iff_no_piece s :
  get_valid_capture_actions s = []
  ↔ ∀ pos, pos < BOARD_POSITIONS →
           cell (board s) pos ≠ pval (opp (current_player s)).
Proof.
  rewrite pval_opp. split.
  - intros Hnil pos Hp Hc.
    assert (capture_available (board s) (current_player s)) as Hav.
    { unfold capture_available. rewrite pval_opp.
      destruct (_all_in_mills s (- pval (current_player s))) eqn:Ea.
      - exists pos. split; [done|]. split; [done|]. right.
        by apply all_in_mills_spec.
      - unfold _all_in_mills in Ea.
        assert (¬ forallb
                    (λ pos, if (cell (board s) pos =? - pval (current_player s))%Z
                            then _is_in_mill s pos (- pval (current_player s))
                            else true) (seq 0 BOARD_POSITIONS) = true) as Hn
          by congruence.
        rewrite forallb_forall in Hn.
        destruct (existsb
                    (λ q, (cell (board s) q =? - pval (current_player s))%Z
                          && negb (_is_in_mill s q (- pval (current_player s))))
                    (seq 0 BOARD_POSITIONS)) eqn:Ex.
        + apply existsb_exists in Ex as (q & Hq%in_seq & Hc').
          apply andb_true_iff in Hc' as [Hc1%Z.eqb_eq Hc2%negb_true_iff].
          exists q. split; [lia|]. split; [done|]. left.
          by apply is_in_mill_false.
        + exfalso. apply Hn. intros q Hq.
          rewrite existsb_false in Ex. specialize (Ex q Hq).
          destruct (cell (board s) q =? - pval (current_player s))%Z; [|done].
          simpl in Ex. by apply negb_false_iff. }
    apply captures_nonempty in Hav. rewrite Hnil in Hav. done.
  - intros Hno. apply nil_no_member. intros a Ha.
    apply in_get_valid_capture_actions in Ha as (pos & Hp & Hc & _).
    by apply (Hno pos).
Qed.

(** X17.  Mill protection never leaves the capturing player without a
    target: the list of legal captures is empty exactly when the opponent
    has no piece on the board. *)
Theorem capture_exists_iff_opponent_on_board (s : Env) :
  get_valid_capture_actions s = []
  ↔ ∀ pos, pos < BOARD_POSITIONS →
           cell (board s) pos ≠ pval (opp (current_player s)).
Proof. apply no_capture_iff_no_piece. Qed.

(** ** The static tables *)

Lemma adjacency_checked :
  forallb
    (λ f, forallb
            (λ t, (t <? BOARD_POSITIONS) && negb (t =? f)
                  && existsb (Nat.eqb f) (ADJACENCY t))
            (ADJACENCY f)
          && (2 <=? length (ADJACENCY f)) && (length (ADJACENCY f) <=? 4)
          && bool_decide (NoDup (ADJACENCY f)))
    (seq 0 BOARD_POSITIONS) = true.
Proof. vm_compute. reflexivity. Qed.

(** X18.  The adjacency table is a simple undirected graph on the 24
    cells: every cell has 2, 3 or 4 neighbours, all different; every
    neighbour of a cell is a cell of the board other than the cell itself;
    and the cell is a neighbour of each of its neighbours.  So a slide can
    always be taken back along the same line. *)
Theorem adjacency_symmetric (f : nat) :
  f < BOARD_POSITIONS →
  2 ≤ length (ADJACENCY f) ≤ 4
  ∧ NoDup (ADJACENCY f)
  ∧ ∀ t, In t (ADJACENCY f) →
         t < BOARD_POSITIONS ∧ t ≠ f ∧ In f (ADJACENCY t).
Proof.
  intros Hf. pose proof adjacency_checked as H.
  rewrite forallb_forall in H. specialize (H f).
  assert (In f (seq 0 BOARD_POSITIONS)) as Hin by (apply in_seq; lia).
  apply H in Hin. apply andb_true_iff in Hin as [Hin Hnd].
  apply andb_true_iff in Hin as [Hin H4].
  apply andb_true_iff in Hin as [Hall H2].
  apply Nat.leb_le in H2, H4. apply bool_decide_eq_true in Hnd.
  split; [lia|]. split; [done|]. intros t Ht.
  rewrite forallb_forall in Hall. specialize (Hall t Ht).
  apply andb_true_iff in Hall as [Hall Hback].
  apply andb_true_iff in Hall as [Hlt Hne].
  apply Nat.ltb_lt in Hlt. apply negb_true_iff, Nat.eqb_neq in Hne.
  apply existsb_exists in Hback as (x & Hx & ->%Nat.eqb_eq).
  done.
Qed.

Lemma adjacency_symmetric_witness :
  2 ≤ length (ADJACENCY 1) ≤ 4
  ∧ NoDup (ADJACENCY 1)
  ∧ ∀ t, In t (ADJACENCY 1) →
         t < BOARD_POSITIONS ∧ t ≠ 1 ∧ In 1 (ADJACENCY t).
Proof.
  apply (adjacency_symmetric 1). vm_compute. lia.
Defined.

Lemma mills_checked :
  forallb
    (λ mill, match mill with
             | [a; b; c] =>
                 (a <? b) && (b <? c) && (c <? BOARD_POSITIONS)
                 && existsb (Nat.eqb b) (ADJACENCY a)
                 && existsb (Nat.eqb c) (ADJACENCY b)
             | _ => false
             end) MILLS = true
  ∧ forallb
      (λ pos, length (List.filter (λ mill, existsb (Nat.eqb pos) mill) MILLS)
              =? 2)
      (seq 0 BOARD_POSITIONS) = true.
Proof. split; vm_compute; reflexivity. Qed.

(** X19.  The mill table follows the lines of the board: each of its 16
    entries is three distinct cells of the board, listed in increasing order,
    of which the second is adjacent to the first and the third to the
    second; and every cell of the board lies in exactly two mills. *)
Theorem mills_follow_lines (pos : nat) :
  pos < BOARD_POSITIONS →
  length MILLS = 16
  ∧ (∀ mill, In mill MILLS →
       ∃ a b c, mill = [a; b; c] ∧ a < b ∧ b < c ∧ c < BOARD_POSITIONS
                ∧ In b (ADJACENCY a) ∧ In c (ADJACENCY b))
  ∧ length (List.filter (λ mill, existsb (Nat.eqb pos) mill) MILLS) = 2.
Proof.
  intros Hp. destruct mills_checked as [Hm Hc]. split; [reflexivity|]. split.
  - intros mill Hin. rewrite forallb_forall in Hm. specialize (Hm mill Hin).
    destruct mill as [|a [|b [|c [|d l]]]]; try done.
    repeat (apply andb_true_iff in Hm as [Hm ?]).
    exists a, b, c.
    repeat match goal with
           | H : (_ <? _) = true |- _ => apply Nat.ltb_lt in H
           | H : existsb _ _ = true |- _ =>
               apply existsb_exists in H as (? & ? & ->%Nat.eqb_eq)
           end.
    repeat split; done.
  - rewrite forallb_forall in Hc. apply Nat.eqb_eq, Hc, in_seq. lia.
Qed.

Lemma mills_follow_lines_witness :
  length MILLS = 16
  ∧ (∀ mill, In mill MILLS →
       ∃ a b c, mill = [a; b; c] ∧ a < b ∧ b < c ∧ c < BOARD_POSITIONS
                ∧ In b (ADJACENCY a) ∧ In c (ADJACENCY b))
  ∧ length (List.filter (λ mill, existsb (Nat.eqb 4) mill) MILLS) = 2.
Proof. apply (mills_follow_lines 4). vm_compute. lia. Defined.

(** ** The tensor on a valid board *)

Lemma get_state_entries s i :
  length (board s) = BOARD_POSITIONS → i < BOARD_POSITIONS →
  let T := get_state s in
  let ph := pget (player_phase s) (current_player s) in
  entry T 0 i
  = Some (indicator (cell (board s) i =? pval (current_player s))%Z)
  ∧ entry T 1 i
    = Some (indicator (cell (board s) i =? - pval (current_player s))%Z)
  ∧ entry T 2 i = Some (indicator (phase_eqb ph placement))
  ∧ entry T 3 i = Some (indicator (phase_eqb ph movement))
  ∧ entry T 4 i = Some (indicator (phase_eqb ph flying))
  ∧ entry T 6 i = Some (indicator (cell (board s) i =? 0)%Z).
Proof.
  intros Hlen Hi.
  assert (ones !! i = Some 1%Q) as Ho by by apply lookup_replicate_2.
  assert (zeros !! i = Some 0%Q) as Hz by by apply lookup_replicate_2.
  unfold entry, get_state.
  generalize dependent ones. generalize dependent zeros. intros z Hz o Ho.
  simpl. rewrite !lookup_map_cell by lia.
  destruct (pget (player_phase s) (current_player s)); simpl;
    rewrite ?Ho, ?Hz; done.
Qed.

(** X20.  On a board of 24 cells holding only 0, 1 and -1 the tensor is
    one-hot twice over: for every cell exactly one of layer 0 (own piece),
    layer 1 (opponent piece) and layer 6 (empty) is 1 and the other two are
    0, and exactly one of the phase layers 2, 3, 4 is 1. *)
Theorem state_layers_one_hot (s : Env) (i : nat) :
  length (board s) = BOARD_POSITIONS → cells_valid (board s) →
  i < BOARD_POSITIONS →
  let T := get_state s in
  ((entry T 0 i, entry T 1 i, entry T 6 i) = (Some 1%Q, Some 0%Q, Some 0%Q)
   ∨ (entry T 0 i, entry T 1 i, entry T 6 i) = (Some 0%Q, Some 1%Q, Some 0%Q)
   ∨ (entry T 0 i, entry T 1 i, entry T 6 i) = (Some 0%Q, Some 0%Q, Some 1%Q))
  ∧ ((entry T 2 i, entry T 3 i, entry T 4 i) = (Some 1%Q, Some 0%Q, Some 0%Q)
     ∨ (entry T 2 i, entry T 3 i, entry T 4 i)
       = (Some 0%Q, Some 1%Q, Some 0%Q)
     ∨ (entry T 2 i, entry T 3 i, entry T 4 i)
       = (Some 0%Q, Some 0%Q, Some 1%Q)).
Proof.
  intros Hlen Hval Hi. simpl.
  destruct (get_state_entries s i Hlen Hi) as (-> & -> & -> & -> & -> & ->).
  assert (cell (board s) i = 0 ∨ cell (board s) i = 1
          ∨ cell (board s) i = -1)%Z as Hc.
  { unfold cells_valid in Hval. rewrite Forall_forall in Hval.
    apply Hval, list_elem_of_lookup. exists i.
    apply cell_in_range_lookup. lia. }
  split.
  - destruct Hc as [-> | [-> | ->]], (current_player s); vm_compute; auto.
  - destruct (pget (player_phase s) (current_player s)); vm_compute; auto.
Qed.

Lemma state_layers_one_hot_witness :
  let T := get_state two_in_row in
  ((entry T 0 9, entry T 1 9, entry T 6 9) = (Some 1%Q, Some 0%Q, Some 0%Q)
   ∨ (entry T 0 9, entry T 1 9, entry T 6 9) = (Some 0%Q, Some 1%Q, Some 0%Q)
   ∨ (entry T 0 9, entry T 1 9, entry T 6 9) = (Some 0%Q, Some 0%Q, Some 1%Q))
  ∧ ((entry T 2 9, entry T 3 9, entry T 4 9) = (Some 1%Q, Some 0%Q, Some 0%Q)
     ∨ (entry T 2 9, entry T 3 9, entry T 4 9)
       = (Some 0%Q, Some 1%Q, Some 0%Q)
     ∨ (entry T 2 9, entry T 3 9, entry T 4 9)
       = (Some 0%Q, Some 0%Q, Some 1%Q)).
Proof.
  apply (state_layers_one_hot two_in_row 9).
  - reflexivity.
  - unfold cells_valid, two_in_row. simpl.
    repeat first [apply Forall_nil_2 | apply Forall_cons_2; [by auto|]].
  - vm_compute. lia.
Defined.

(** ** Pixel coordinates (board.py) *)

Lemma in_cell_ids (p : Z) : (0 <= p < 24)%Z → In p cell_ids.
Proof.
  intros Hp. unfold cell_ids. apply in_map_iff. exists (Z.to_nat p).
  split; [lia|]. apply in_seq. unfold BOARD_POSITIONS. lia.
Qed.

Lemma grid_checked :
  forallb
    (λ p, match POSITION_GRID p with
          | Some (gx, gy) =>
              (0 <=? gx)%Z && (gx <=? 6)%Z && (0 <=? gy)%Z && (gy <=? 6)%Z
              && forallb
                   (λ q, match POSITION_GRID q with
                         | Some (hx, hy) =>
                             implb ((gx =? hx)%Z && (gy =? hy)%Z) (p =? q)%Z
                         | None => false
                         end) cell_ids
          | None => false
          end) cell_ids = true.
Proof. vm_compute. reflexivity. Qed.

Lemma grid_of_cell (p : Z) :
  (0 <= p < 24)%Z →
  ∃ gx gy, POSITION_GRID p = Some (gx, gy)
           ∧ (0 <= gx <= 6)%Z ∧ (0 <= gy <= 6)%Z
           ∧ ∀ q hx hy, (0 <= q < 24)%Z → POSITION_GRID q = Some (hx, hy) →
                        gx = hx → gy = hy → p = q.
Proof.
  intros Hp. pose proof grid_checked as H. rewrite forallb_forall in H.
  specialize (H p (in_cell_ids p Hp)).
  destruct (POSITION_GRID p) as [[gx gy]|]; [|done].
  repeat (apply andb_true_iff in H as [H ?]).
  exists gx, gy. split; [done|]. split; [lia|]. split; [lia|].
  intros q hx hy Hq Hgq -> ->.
  match goal with
  | Hall : forallb _ cell_ids = true |- _ =>
      rewrite forallb_forall in Hall;
      specialize (Hall q (in_cell_ids q Hq)); rewrite Hgq in Hall;
      rewrite !Z.eqb_refl in Hall; simpl in Hall; by apply Z.eqb_eq
  end.
Qed.

(** X21.  [get_position_coords] places the 24 cells on distinct points
    whenever the cell size [(board_size - 2 * margin) // 6] is not zero, each
    coordinate being the margin plus 0 to 6 cell sizes; with the default
    600 and 60 every coordinate lies between 60 and 540.  A position that is
    not a cell of the board gets (0, 0). *)
Theorem coords_distinct_and_inside (p q board_size margin : Z) :
  (0 <= p < 24)%Z → (0 <= q < 24)%Z →
  ((board_size - 2 * margin) / 6 ≠ 0)%Z →
  (get_position_coords p board_size margin
   = get_position_coords q board_size margin → p = q)
  ∧ (60 <= (get_position_coords p BOARD_SIZE MARGIN).1 <= 540)%Z
  ∧ (60 <= (get_position_coords p BOARD_SIZE MARGIN).2 <= 540)%Z
  ∧ ∀ z, (z < 0 ∨ 24 <= z)%Z →
         get_position_coords z board_size margin = (0, 0)%Z.
Proof.
  intros Hp Hq Hcs.
  destruct (grid_of_cell p Hp) as (gx & gy & Hgp & Hx & Hy & Hinj).
  destruct (grid_of_cell q Hq) as (hx & hy & Hgq & _).
  unfold get_position_coords. rewrite Hgp, Hgq.
  split; [|split; [|split]].
  - intros [= Ex Ey]. apply (Hinj q hx hy Hq Hgq); nia.
  - unfold BOARD_SIZE, MARGIN. simpl.
    change ((600 - 2 * 60) / 6)%Z with 80%Z. lia.
  - unfold BOARD_SIZE, MARGIN. simpl.
    change ((600 - 2 * 60) / 6)%Z with 80%Z. lia.
  - intros z Hz.
    assert (POSITION_GRID z = None) as ->; [|done].
    unfold POSITION_GRID. destruct z as [|z|z]; [lia| |reflexivity].
    destruct z as [z|z|]; try first [reflexivity|lia];
      destruct z as [z|z|]; try first [reflexivity|lia];
      destruct z as [z|z|]; try first [reflexivity|lia];
      destruct z as [z|z|]; try first [reflexivity|lia];
      destruct z as [z|z|]; first [reflexivity|lia].
Qed.

Lemma coords_distinct_and_inside_witness :
  (get_position_coords 4 600 60 = get_position_coords 7 600 60
   → 4%Z = 7%Z)
  ∧ (60 <= (get_position_coords 4 BOARD_SIZE MARGIN).1 <= 540)%Z
  ∧ (60 <= (get_position_coords 4 BOARD_SIZE MARGIN).2 <= 540)%Z
  ∧ ∀ z, (z < 0 ∨ 24 <= z)%Z → get_position_coords z 600 60 = (0, 0)%Z.
Proof.
  apply (coords_distinct_and_inside 4 7 600 60).
  - lia.
  - lia.
  - vm_compute. discriminate.
Defined.

Lemma mills_grid_checked :
  forallb
    (λ mill,
       match map (λ i, POSITION_GRID (Z.of_nat i)) mill with
       | [Some (ax, ay); Some (bx, by_); Some (cx, cy)] =>
           ((ax =? bx)%Z && (bx =? cx)%Z) || ((ay =? by_)%Z && (by_ =? cy)%Z)
       | _ => false
       end) MILLS = true.
Proof. vm_compute. reflexivity. Qed.

(** X22.  The mills of the rules are straight lines of the picture: for
    every entry of the mill table, whatever the board size and the margin,
    the three cells are drawn with the same x coordinate or with the same y
    coordinate. *)
Theorem mills_are_drawn_straight
    (mill : list nat) (board_size margin : Z) :
  In mill MILLS →
  ∃ a b c,
    mill = [a; b; c]
    ∧ let xy i := get_position_coords (Z.of_nat i) board_size margin in
      ((xy a).1 = (xy b).1 ∧ (xy b).1 = (xy c).1)
      ∨ ((xy a).2 = (xy b).2 ∧ (xy b).2 = (xy c).2).
Proof.
  intros Hin. pose proof mills_grid_checked as H.
  rewrite forallb_forall in H. specialize (H mill Hin).
  destruct mill as [|a [|b [|c [|d l]]]]; simpl in H; try done.
  - by destruct (POSITION_GRID (Z.of_nat a)) as [[? ?]|].
  - destruct (POSITION_GRID (Z.of_nat a)) as [[? ?]|]; [|done].
    by destruct (POSITION_GRID (Z.of_nat b)) as [[? ?]|].
  - exists a, b, c. split; [done|]. unfold get_position_coords.
    destruct (POSITION_GRID (Z.of_nat a)) as [[ax ay]|]; [|done].
    destruct (POSITION_GRID (Z.of_nat b)) as [[bx by_]|]; [|done].
    destruct (POSITION_GRID (Z.of_nat c)) as [[cx cy]|]; [|done].
    simpl.
    apply orb_true_iff in H as [H|H];
      apply andb_true_iff in H as [->%Z.eqb_eq ->%Z.eqb_eq]; auto.
  - destruct (POSITION_GRID (Z.of_nat a)) as [[? ?]|]; [|done].
    destruct (POSITION_GRID (Z.of_nat b)) as [[? ?]|]; [|done].
    by destruct (POSITION_GRID (Z.of_nat c)) as [[? ?]|].
Qed.

Lemma mills_are_drawn_straight_witness :
  ∃ a b c,
    [1; 4; 7] = [a; b; c]
    ∧ let xy i := get_position_coords (Z.of_nat i) 600 60 in
      ((xy a).1 = (xy b).1 ∧ (xy b).1 = (xy c).1)
      ∨ ((xy a).2 = (xy b).2 ∧ (xy b).2 = (xy c).2).
Proof.
  apply (mills_are_drawn_straight [1; 4; 7] 600 60).
  simpl. auto 20.
Defined.

(** ** One turn of the driver (app.py) *)

Lemma completed_step_player s a s' r :
  step s a = Some (s', r) → needs_capture (info r) = false →
  current_player s' = opp (current_player s).
Proof.
  intros Hs Hn.
  destruct (step_summary _ _ _ _ Hs) as [(En & _)|(_ & Hc & _)];
    [congruence|done].
Qed.

Lemma execute_turn_turn ss u a c :
  reachable ss → capture_owed ss = false → finished ss = false →
  ui_env u = env ss →
  In a (get_valid_actions (env ss)) →
  (∀ e1 r1, step (env ss) a = Some (e1, r1) →
            needs_capture (info r1) = true →
            In c (get_valid_capture_actions e1)) →
  turn_completed ss u a c.
Proof.
  intros Hr Ho Hf Hu Ha Hc.
  assert (legal ss a) as Hl.
  { split; [done|]. unfold legal_set. by rewrite Ho. }
  destruct (reachable_balanced ss Hr) as [Hlen _].
  destruct (legal_apply_total ss a Hlen Hl) as [ss1 Hap].
  assert (reachable ss1) as Hr1 by (eapply reachable_step; eauto).
  pose proof Hap as Hap'.
  apply apply_Some in Hap' as (r1 & Hs1 & Ho1 & Hf1 & _).
  pose proof (step_move_count _ _ _ _ Hs1) as Hm1.
  unfold turn_completed, execute_turn. simpl. rewrite Hu, Hs1.
  destruct (needs_capture (info r1)) eqn:En.
  - (* the capture is played in the same turn *)
    destruct (step_capture_owed _ _ _ _ Hs1 En) as (_ & Hc1 & _ & _ & _ & Hd1).
    assert (legal ss1 c) as Hl1.
    { split; [congruence|]. unfold legal_set. rewrite Ho1.
      by apply (Hc _ r1). }
    destruct (reachable_balanced ss1 Hr1) as [Hlen1 _].
    destruct (legal_apply_total ss1 c Hlen1 Hl1) as [ss2 Hap2].
    assert (reachable ss2) as Hr2 by (eapply reachable_step; eauto).
    apply apply_Some in Hap2 as (r2 & Hs2 & Ho2 & Hf2 & _).
    pose proof (step_move_count _ _ _ _ Hs2) as Hm2.
    assert (atype c = capture) as Hty.
    { pose proof (legal_action_type ss1 c Hl1) as H. by rewrite Ho1 in H. }
    assert (needs_capture (info r2) = false) as En2.
    { destruct (needs_capture (info r2)) eqn:E; [|done].
      destruct (step_capture_owed _ _ _ _ Hs2 E) as (? & _). done. }
    pose proof (completed_step_player _ _ _ _ Hs2 En2) as Hc2.
    simpl. rewrite Hs2. simpl.
    match goal with
    | |- ∃ u' d ss', Some (?x, (?y, _)) = _ ∧ _ => exists x, y, ss2
    end. split; [reflexivity|]. simpl.
    rewrite length_app, length_app. simpl.
    repeat split; try done; try congruence; try lia.
  - pose proof (completed_step_player _ _ _ _ Hs1 En) as Hc1.
    match goal with
    | |- ∃ u' d ss', Some (?x, (?y, _)) = _ ∧ _ => exists x, y, ss1
    end. split; [reflexivity|]. simpl.
    rewrite length_app. simpl.
    repeat split; try done; try congruence; try lia.
Qed.

(** X23.  One call of [execute_turn] on an open session at the start of a
    turn, with a legal action and (if the step asks for it) a legal capture,
    never raises and always completes the turn: no capture is left owed, the
    opponent is the player to act, the pair returned is the [done] of the
    last step and the environment's winner, and the page's move counter and
    its log grow by the moves made, 1 or 2, exactly as the environment's
    counter does. *)
Theorem execute_turn_completes_turn
    (ss : Session) (u : Ui) (a c : Action) :
  reachable ss → capture_owed ss = false → finished ss = false →
  ui_env u = env ss →
  In a (get_valid_actions (env ss)) →
  (∀ e1 r1, step (env ss) a = Some (e1, r1) →
            needs_capture (info r1) = true →
            In c (get_valid_capture_actions e1)) →
  turn_completed ss u a c.
Proof. apply execute_turn_turn. Qed.

Lemma execute_turn_completes_turn_witness :
  let ss := session_after (map place_action [0; 12; 1; 9]) in
  turn_completed ss (mkUi (env ss) 4%Z None [])
                 (place_action 2) (capture_action 12).
Proof.
  apply (execute_turn_completes_turn
           (session_after (map place_action [0; 12; 1; 9]))).
  - apply (play_reachable (map place_action [0; 12; 1; 9]) new_session).
    + apply reachable_new.
    + vm_compute. reflexivity.
  - reflexivity.
  - reflexivity.
  - reflexivity.
  - vm_compute. auto 30.
  - intros e1 r1 H _. vm_compute in H. injection H as <- _.
    vm_compute. auto 30.
Defined.

(** ** Elimination and the mill flag *)

Lemma completed_step_elimination s a s' r :
  step s a = Some (s', r) → needs_capture (info r) = false →
  (move_count s' <= 200)%Z →
  eliminated (current_player s) s' = true →
  done r = true ∧ winner s' = Some (pval (current_player s))
  ∧ reward r = (3 # 2)%Q.
Proof.
  intros Hs Hn Hm He.
  destruct (step_completed _ _ _ _ Hs Hn) as (r0 & sm & Hf & _).
  destruct (finish_turn_verdict (current_player s) r0 sm)
    as (Hg & _ & _ & Hv).
  pose proof (finish_turn_outcome (current_player s) r0 sm) as [Hy _].
  pose proof (finish_turn_same (current_player s) r0 sm) as Hsame.
  rewrite Hf in Hg, Hv, Hy, Hsame. simpl in Hg, Hv, Hy, Hsame.
  pose proof (same_position_trans _ _ _ (phase_transition_same sm)
                (flying_update_same (phase_transition sm))) as (_&_&_&Ho1&_).
  destruct Hsame as (_&_&_&Ho&Hmc&_).
  assert (eliminated (current_player s) (flying_update (phase_transition sm))
          = true) as He1.
  { unfold eliminated in *. by rewrite <- Hg, Ho1, <- Ho. }
  rewrite <- Hmc in Hv, Hy. specialize (Hv Hm). rewrite He1 in Hv. simpl in Hv.
  destruct Hv as [Hd Hw]. split; [done|]. split; [done|].
  destruct (Hy Hd) as [(_ & _ & ?)|(_ & ? & _)]; [lia|done].
Qed.

(** X24.  Within the move limit the elimination rule holds: a step that
    completes a turn with the move counter at most 200, outside the
    placement phase, and leaves the opponent of the acting player with fewer
    than 3 pieces on the on-board counter sets [done], records the acting
    player as the winner and returns the reward 1.5. *)
Theorem elimination_wins_within_limit
    (s : Env) (a : Action) (s' : Env) (r : StepResult) :
  step s a = Some (s', r) → needs_capture (info r) = false →
  (move_count s' <= 200)%Z →
  global_phase s' ≠ placement →
  (pget (pieces_on_board s') (opp (current_player s)) < 3)%Z →
  done r = true ∧ winner s' = Some (pval (current_player s))
  ∧ reward r = (3 # 2)%Q.
Proof.
  intros Hs Hn Hm Hg Ho. apply (completed_step_elimination s a); try done.
  unfold eliminated. apply andb_true_iff. split.
  - apply negb_true_iff. destruct (phase_eqb (global_phase s') placement) eqn:E;
      [|done]. by apply phase_eqb_eq in E.
  - by apply Z.ltb_lt.
Qed.

Lemma elimination_wins_within_limit_witness :
  let s := env_after short_game_elimination in
  let res := step_or_stay s (capture_action 7) in
  done res.2 = true ∧ winner res.1 = Some (pval (current_player s))
  ∧ reward res.2 = (3 # 2)%Q.
Proof.
  apply (elimination_wins_within_limit
           (env_after short_game_elimination) (capture_action 7)).
  - vm_compute. reflexivity.
  - reflexivity.
  - vm_compute. discriminate.
  - vm_compute. discriminate.
  - vm_compute. reflexivity.
Defined.

Lemma after_piece_formed acting q t sm :
  last_mill_formed sm = false →
  formed_mill (info (after_piece acting q (Some t) sm).2)
  = _is_in_mill sm t (pval (current_player sm))
  ∧ last_mill_formed (after_piece acting q (Some t) sm).1
    = _is_in_mill sm t (pval (current_player sm)).
Proof.
  intros Hflag. unfold after_piece, is_in_mill_at.
  destruct (_is_in_mill sm t (pval (current_player sm))).
  - destruct (0 <? length (get_valid_capture_actions
                             (set_last_mill_formed true sm))); [done|].
    rewrite finish_turn_info.
    by destruct (finish_turn_same acting (q + (1 # 10))%Q
       (set_current_player (opp (current_player (set_last_mill_formed true sm)))
          (set_last_mill_formed true sm))) as (_&_&_&_&_&->&_).
  - rewrite finish_turn_info.
    by destruct (finish_turn_same acting q
       (set_current_player (opp (current_player sm)) sm)) as (_&_&_&_&_&->&_).
Qed.

Lemma step_formed_mill s a t s' r :
  atype a ≠ capture → to_pos a = Some t → step s a = Some (s', r) →
  (formed_mill (info r) = true
   ↔ inside_mill (board s') (pval (current_player s)) t)
  ∧ last_mill_formed s' = formed_mill (info r).
Proof.
  intros Hty Hto Hs. unfold step in Hs. rewrite Hto in Hs.
  assert (∀ sm, board sm = board s' → current_player sm = current_player s →
                (_is_in_mill sm t (pval (current_player sm)) = true
                 ↔ inside_mill (board s') (pval (current_player s)) t))
    as Hspec.
  { intros sm Hb Hc. rewrite is_in_mill_spec, Hb, Hc. done. }
  destruct (atype a); [| |done].
  - destruct (do_place _ (Some t)) as [sm|] eqn:E; [|done].
    injection Hs as Hs.
    apply do_place_frame in E as (Hc & _ & _ & _ & _ & _ & _ & _ & Hlm).
    destruct (after_piece_formed (current_player s) base_reward t sm)
      as [Hf Hl]; [done|].
    destruct (after_piece_pieces (current_player s) base_reward (Some t) sm)
      as (Hb & _).
    rewrite Hs in Hf, Hl, Hb. simpl in Hf, Hl, Hb.
    rewrite Hf, Hl. split; [|done]. by apply Hspec.
  - destruct (do_move _ (from_pos a) (Some t)) as [sm|] eqn:E; [|done].
    injection Hs as Hs.
    apply do_move_frame in E as (Hc & _ & _ & _ & _ & _ & _ & _ & Hlm).
    destruct (after_piece_formed (current_player s) base_reward t sm)
      as [Hf Hl]; [done|].
    destruct (after_piece_pieces (current_player s) base_reward (Some t) sm)
      as (Hb & _).
    rewrite Hs in Hf, Hl, Hb. simpl in Hf, Hl, Hb.
    rewrite Hf, Hl. split; [|done]. by apply Hspec.
Qed.

(** X25.  The mill flag of a placement or movement tells exactly whether
    the cell just occupied lies in a complete mill of the acting player on
    the board the step leaves, whether or not a capture follows; the
    environment's own flag holds the same value. *)
Theorem formed_mill_iff_mill
    (s : Env) (a : Action) (t : nat) (s' : Env) (r : StepResult) :
  atype a ≠ capture → to_pos a = Some t → step s a = Some (s', r) →
  (formed_mill (info r) = true
   ↔ inside_mill (board s') (pval (current_player s)) t)
  ∧ last_mill_formed s' = formed_mill (info r).
Proof. apply step_formed_mill. Qed.

Lemma formed_mill_iff_mill_witness :
  let res := step_or_stay two_in_row_alone (place_action 2) in
  (formed_mill (info res.2) = true
   ↔ inside_mill (board res.1) (pval (current_player two_in_row_alone)) 2)
  ∧ last_mill_formed res.1 = formed_mill (info res.2).
Proof.
  apply (formed_mill_iff_mill two_in_row_alone (place_action 2) 2).
  - discriminate.
  - reflexivity.
  - vm_compute. reflexivity.
Defined.

(** ** The flying phase *)

Lemma step_completed_phases s a s' r :
  step s a = Some (s', r) → needs_capture (info r) = false →
  ∃ go : bool,
    global_phase s' = (if go then movement else global_phase s)
    ∧ (go = true → global_phase s = placement)
    ∧ ∀ p, pget (player_phase s') p
           = if phase_eqb (global_phase s') movement
                && (pget (pieces_on_board s') p =? 3)%Z
             then flying
             else if go then movement else pget (player_phase s) p.
Proof.
  intros Hs Hn.
  destruct (step_completed _ _ _ _ Hs Hn) as (r0 & sm & Hf & _ & _ & Hg & Hp).
  destruct (finish_turn_verdict (current_player s) r0 sm) as (Hg' & Hp' & _).
  pose proof (finish_turn_same (current_player s) r0 sm) as (_&_&_&Ho&_).
  rewrite Hf in Hg', Hp', Ho. simpl in Hg', Hp', Ho.
  destruct (phase_transition_phases sm) as [Hg1 _].
  destruct (flying_update_phases (phase_transition sm)) as [Hg2 _].
  exists (leaves_placement sm). split; [|split].
  - rewrite Hg', Hg2, Hg1, Hg. done.
  - intros [? _]%leaves_placement_spec. congruence.
  - intros p. rewrite Hp', end_of_turn_player_phase, <- Hg', Ho, Hp. done.
Qed.

Lemma flying_tracked_step ss a ss' :
  reachable ss → flying_tracked ss → legal ss a → apply ss a = Some ss' →
  flying_tracked ss'.
Proof.
  intros Hr IH Hl Ha.
  pose proof (legal_action_type ss a Hl) as Hty.
  destruct (reachable_placement_turns ss Hr) as [_ Hmv].
  apply apply_Some in Ha as (r & Hs & _).
  pose proof (step_pieces _ _ _ _ Hs (legal_positions_given _ _ Hl)) as Hpc.
  simpl in Hpc.
  assert (global_phase (env ss) = movement →
          ∀ p, (pget (pieces_on_board (env ss')) p
                <= pget (pieces_on_board (env ss)) p)%Z
               ∧ (needs_capture (info r) = true →
                  pget (pieces_on_board (env ss')) p
                  = pget (pieces_on_board (env ss)) p)) as Hdec.
  { intros Hg p. destruct (Hmv Hg) as [H1 H2].
    assert (atype a ≠ place) as Hnp.
    { revert Hty H1 H2. destruct (capture_owed ss); [congruence|].
      destruct (current_player (env ss));
        destruct (pget (player_phase (env ss)) P1),
                 (pget (player_phase (env ss)) M1); congruence. }
    destruct (atype a) eqn:Ea; [done| |].
    - destruct Hpc as (f & t & _ & _ & _ & _ & _ & _ & ->). split; [lia|done].
    - destruct Hpc as (f & _ & _ & _ & _ & ->). split.
      + destruct (current_player (env ss)), p; simpl; lia.
      + intros En. destruct (step_capture_owed _ _ _ _ Hs En) as (? & _).
        congruence. }
  unfold flying_tracked in *. intros Hg' p.
  destruct (needs_capture (info r)) eqn:En.
  - destruct (step_capture_owed _ _ _ _ Hs En) as (_ & _ & Hg & Hp & _).
    rewrite Hg in Hg'. destruct (Hdec Hg' p) as [_ Heq].
    rewrite Hp, (Heq eq_refl). by apply IH.
  - destruct (step_completed_phases _ _ _ _ Hs En) as (go & Hg & Hgo & Hp).
    rewrite (Hp p), Hg'. simpl.
    destruct (Z.eqb_spec (pget (pieces_on_board (env ss')) p) 3) as [E3|E3].
    + split; [done|]. intros _. lia.
    + split; [done|]. destruct go; [done|]. intros Hfl.
      rewrite Hg in Hg'. destruct (IH Hg' p) as [_ Hle].
      destruct (Hdec Hg' p) as [Hd _]. specialize (Hle Hfl). lia.
Qed.

Lemma reachable_flying_tracked ss : reachable ss → flying_tracked ss.
Proof.
  induction 1 as [|ss a ss' Hr IH Hl Ha].
  - intros Hg. discriminate Hg.
  - by apply (flying_tracked_step ss a ss').
Qed.

(** X26.  In legal play the flying phase follows the on-board counter:
    once the global phase is movement, a player whose counter is exactly 3 is
    in the flying phase, and a player in the flying phase has a counter of at
    most 3. *)
Theorem flying_follows_counter (ss : Session) :
  reachable ss → flying_tracked ss.
Proof. apply reachable_flying_tracked. Qed.

Lemma flying_follows_counter_witness :
  flying_tracked (session_after long_game_elimination).
Proof.
  apply (flying_follows_counter (session_after long_game_elimination)).
  apply (play_reachable long_game_elimination new_session).
  - apply reachable_new.
  - vm_compute. reflexivity.
Defined.

(** ** The capture mask of the policy driver (model.py) *)

Lemma valid_capture_index s a :
  In a (get_valid_capture_actions s) →
  ∃ f, f < BOARD_POSITIONS ∧ a = capture_action f
       ∧ action_to_index a = Some (ACTION_CAPTURE_START + f).
Proof.
  intros (f & Hf & ->)%valid_capture_shape. exists f.
  by destruct (roundtrip_capture f).
Qed.

Lemma capture_mask_total s :
  ∃ m,
    capture_mask s = Some m
    ∧ length m = ACTION_SPACE_SIZE
    ∧ (∀ f, f < BOARD_POSITIONS →
         (In (capture_action f) (get_valid_capture_actions s) →
          m !! (ACTION_CAPTURE_START + f) = Some 1%Q)
         ∧ (¬ In (capture_action f) (get_valid_capture_actions s) →
            m !! (ACTION_CAPTURE_START + f) = Some 0%Q))
    ∧ ∀ i, i < ACTION_CAPTURE_START → m !! i = Some 0%Q.
Proof.
  unfold capture_mask.
  destruct (mask_fold (get_valid_capture_actions s)
              (replicate ACTION_SPACE_SIZE 0%Q))
    as (m & Hm & Hlen & Hone & Hzero).
  { intros a Ha. destruct (valid_capture_index s a Ha) as (f & Hf & _ & Hi).
    exists (ACTION_CAPTURE_START + f). split; [done|].
    rewrite length_replicate.
    unfold ACTION_CAPTURE_START, ACTION_SPACE_SIZE, BOARD_POSITIONS in *. lia. }
  rewrite length_replicate in Hlen.
  exists m. split; [done|]. split; [done|]. split.
  - intros f Hf. split.
    + intros Hin. apply Hone. exists (capture_action f). split; [done|].
      by destruct (roundtrip_capture f).
    + intros Hnin. rewrite Hzero.
      * apply lookup_replicate_2.
        unfold ACTION_CAPTURE_START, ACTION_SPACE_SIZE, BOARD_POSITIONS in *.
        lia.
      * intros (a & Ha & Hi). apply Hnin.
        destruct (valid_capture_index s a Ha) as (g & Hg & -> & Hj).
        rewrite Hj in Hi. injection Hi as Hi.
        assert (g = f) as -> by (unfold ACTION_CAPTURE_START in Hi; lia).
        done.
  - intros i Hi. rewrite Hzero.
    + apply lookup_replicate_2.
      unfold ACTION_CAPTURE_START, ACTION_SPACE_SIZE in *. lia.
    + intros (a & Ha & Hj).
      destruct (valid_capture_index s a Ha) as (g & Hg & -> & Hk).
      rewrite Hk in Hj. injection Hj as Hj.
      unfold ACTION_CAPTURE_START in *. lia.
Qed.

(** X27.  The capture mask built in [get_ai_capture] never raises, has 624
    entries, holds a 1 at 600 + f exactly for the legal capture targets f
    and a 0 at every index below 600 — the range in which
    [get_valid_action_mask] puts its ones — so the two masks never mark the
    same index. *)
Theorem capture_mask_marks_targets (s : Env) :
  ∃ m,
    capture_mask s = Some m
    ∧ length m = ACTION_SPACE_SIZE
    ∧ (∀ f, f < BOARD_POSITIONS →
         (In (capture_action f) (get_valid_capture_actions s) →
          m !! (ACTION_CAPTURE_START + f) = Some 1%Q)
         ∧ (¬ In (capture_action f) (get_valid_capture_actions s) →
            m !! (ACTION_CAPTURE_START + f) = Some 0%Q))
    ∧ (∀ i, i < ACTION_CAPTURE_START → m !! i = Some 0%Q)
    ∧ ∀ m' i, get_valid_action_mask s = Some m' →
              ¬ (m !! i = Some 1%Q ∧ m' !! i = Some 1%Q).
Proof.
  destruct (capture_mask_total s) as (m & Hm & Hlen & Hcap & Hlow).
  exists m. repeat split; try done; try apply Hcap; try done.
  intros m' i Hm' [H1 H2].
  destruct (mask_total s) as (m2 & Hm2 & Hlen2 & Hspec).
  rewrite Hm' in Hm2. injection Hm2 as <-.
  assert (i < ACTION_SPACE_SIZE) as Hi.
  { rewrite <- Hlen. by eapply lookup_lt_Some. }
  destruct (Hspec i Hi) as [_ Hz].
  destruct (in_dec Action_eq_dec (index_to_action i) (get_valid_actions s))
    as [Hin|Hnin].
  - destruct (valid_action_index s _ Hin) as (j & Hj & Hjlt & _).
    rewrite index_of_decoded in Hj. injection Hj as <-.
    rewrite (Hlow i Hjlt) in H1. discriminate H1.
  - rewrite (Hz Hnin) in H2. discriminate H2.
Qed.

(** ** No legal action is listed twice *)

Lemma NoDup_flat_map {A B} (f : A → list B) (l : list A) :
  NoDup l →
  (∀ x, In x l → NoDup (f x)) →
  (∀ x y z, In x l → In y l → In z (f x) → In z (f y) → x = y) →
  NoDup (flat_map f l).
Proof.
  induction l as [|x l IH]; intros Hl Hin Hdis; simpl.
  - constructor.
  - apply NoDup_cons in Hl as [Hx Hl]. apply NoDup_app. split; [|split].
    + apply Hin. by left.
    + intros z Hz%list_elem_of_In Hz'%list_elem_of_In.
      apply in_flat_map in Hz' as (y & Hy & Hzy).
      assert (x = y) as ->
        by (apply (Hdis x y z); [by left|by right|done|done]).
      apply Hx. by apply list_elem_of_In.
    + apply IH; [done| |].
      * intros y Hy. apply Hin. by right.
      * intros y y' z Hy Hy'. apply Hdis; by right.
Qed.

Lemma NoDup_cond_singleton {A} (c : bool) (x : A) :
  NoDup (if c then [x] else []).
Proof. destruct c; [apply NoDup_singleton|constructor]. Qed.

Lemma ADJACENCY_NoDup f : NoDup (ADJACENCY f).
Proof.
  do 24 (destruct f as [|f];
         [apply NoDup_ListNoDup; repeat constructor; simpl; intuition lia|]).
  constructor.
Qed.

Lemma valid_actions_NoDup s : NoDup (get_valid_actions s).
Proof.
  unfold get_valid_actions.
  destruct (pget (player_phase s) (current_player s)).
  - destruct (0 <? pget (pieces_in_hand s) (current_player s))%Z;
      [|constructor].
    apply NoDup_flat_map.
    + apply NoDup_seq.
    + intros x _. apply NoDup_cond_singleton.
    + intros x y z _ _ [_ ->]%in_cond_singleton [_ Heq]%in_cond_singleton.
      by injection Heq.
  - apply NoDup_flat_map.
    + apply NoDup_seq.
    + intros f _. destruct (cell (board s) f =? pval (current_player s))%Z;
        [|constructor].
      apply NoDup_flat_map.
      * apply ADJACENCY_NoDup.
      * intros x _. apply NoDup_cond_singleton.
      * intros x y z _ _ [_ ->]%in_cond_singleton [_ Heq]%in_cond_singleton.
        by injection Heq.
    + intros f g z _ _ Hf Hg.
      destruct (cell (board s) f =? pval (current_player s))%Z; [|done].
      destruct (cell (board s) g =? pval (current_player s))%Z; [|done].
      apply in_flat_map in Hf as (t & _ & [_ ->]%in_cond_singleton).
      apply in_flat_map in Hg as (t' & _ & [_ Heq]%in_cond_singleton).
      by injection Heq.
  - apply NoDup_flat_map.
    + apply NoDup_seq.
    + intros f _. destruct (cell (board s) f =? pval (current_player s))%Z;
        [|constructor].
      apply NoDup_flat_map.
      * apply NoDup_seq.
      * intros x _. apply NoDup_cond_singleton.
      * intros x y z _ _ [_ ->]%in_cond_singleton [_ Heq]%in_cond_singleton.
        by injection Heq.
    + intros f g z _ _ Hf Hg.
      destruct (cell (board s) f =? pval (current_player s))%Z; [|done].
      destruct (cell (board s) g =? pval (current_player s))%Z; [|done].
      apply in_flat_map in Hf as (t & _ & [_ ->]%in_cond_singleton).
      apply in_flat_map in Hg as (t' & _ & [_ Heq]%in_cond_singleton).
      by injection Heq.
Qed.

Lemma count_ones_insert (m : list Q) i :
  m !! i = Some 0%Q → count_ones (<[i := 1%Q]> m) = S (count_ones m).
Proof.
  unfold count_ones. revert i. induction m as [|x m IH]; intros [|i] H;
    simpl in *; try done.
  - injection H as ->. done.
  - specialize (IH i H). destruct (Qeq_bool x 1); simpl; lia.
Qed.

Lemma count_ones_zeros n : count_ones (replicate n 0%Q) = 0.
Proof. unfold count_ones. induction n as [|n IH]; simpl; done. Qed.

Lemma mask_fold_count (l : list Action) (m : list Q) :
  NoDup l →
  (∀ a, In a l → ∃ idx, action_to_index a = Some idx ∧ m !! idx = Some 0%Q
                        ∧ index_to_action idx = a) →
  ∀ m', fold_left mark_action l (Some m) = Some m' →
        count_ones m' = count_ones m + length l.
Proof.
  revert m. induction l as [|a l IH]; intros m Hnd Hall m' Hf; simpl in *.
  - injection Hf as <-. lia.
  - apply NoDup_cons in Hnd as [Ha Hnd].
    destruct (Hall a (or_introl eq_refl)) as (idx & Hidx & Hz & Hdec).
    unfold mark_action at 1 in Hf. rewrite Hidx in Hf.
    assert (idx < length m) as Hlt by by eapply lookup_lt_Some.
    destruct (Nat.ltb_spec idx (length m)); [|lia].
    assert (∀ b, In b l →
                 ∃ j, action_to_index b = Some j
                      ∧ <[idx := 1%Q]> m !! j = Some 0%Q
                      ∧ index_to_action j = b) as Hall'.
    { intros b Hb. destruct (Hall b (or_intror Hb)) as (j & Hj & Hjz & Hjd).
      exists j. split; [done|]. split; [|done].
      rewrite list_lookup_insert_ne; [done|]. intros <-.
      apply Ha. apply list_elem_of_In. congruence. }
    rewrite (IH (<[idx := 1%Q]> m) Hnd Hall' m' Hf).
    rewrite (count_ones_insert m idx Hz). lia.
Qed.

(** X28.  [get_valid_actions] lists no action twice, and the mask holds
    exactly as many ones as there are legal actions. *)
Theorem mask_counts_legal_actions (s : Env) (m : list Q) :
  get_valid_action_mask s = Some m →
  NoDup (get_valid_actions s)
  ∧ count_ones m = length (get_valid_actions s).
Proof.
  intros Hm. split; [apply valid_actions_NoDup|].
  unfold get_valid_action_mask in Hm.
  assert (∀ a, In a (get_valid_actions s) →
               ∃ idx, action_to_index a = Some idx
                      ∧ replicate ACTION_SPACE_SIZE 0%Q !! idx = Some 0%Q
                      ∧ index_to_action idx = a) as Hall.
  { intros a Ha.
    destruct (valid_action_index s a Ha) as (i & Hi & Hlt & Hd & _).
    exists i. split; [done|]. split; [|done].
    apply lookup_replicate_2.
    unfold ACTION_CAPTURE_START, ACTION_SPACE_SIZE in *. lia. }
  rewrite (mask_fold_count (get_valid_actions s)
             (replicate ACTION_SPACE_SIZE 0%Q)
             (valid_actions_NoDup s) Hall m Hm).
  by rewrite count_ones_zeros.
Qed.

Lemma mask_counts_legal_actions_witness :
  let s := env_after long_game_draw_before in
  NoDup (get_valid_actions s)
  ∧ count_ones (default [] (get_valid_action_mask s))
    = length (get_valid_actions s).
Proof.
  apply (mask_counts_legal_actions (env_after long_game_draw_before)).
  vm_compute. reflexivity.
Defined.
